(** * docs-template-update: the placeholder rewriter, entity discovery and
      patch generation of [docs-template-update.go]

    Go strings are byte sequences; they are modelled as lists of [ascii]
    (one [ascii] is one byte).  The standard-library functions the program
    calls ([strings.Split], [fmt.Sprintf], [regexp.ReplaceAllString]) are
    modelled by their Go semantics on the fragment the program uses, each in
    a module named after its Go package. *)

From Stdlib Require Import Ascii String List Arith NArith Bool Lia.
From Stdlib Require DecimalString.
Import ListNotations.

Local Open Scope list_scope.

(** ** Bytes and literals *)

Definition bytes := list ascii.

(** A Go string literal. *)
Definition lit (s : string) : bytes := list_ascii_of_string s.

(** The double quote (byte 34), the line feed (byte 10) and the tab
    (byte 9). *)
Definition DQ : ascii := Ascii false true false false false true false false.
Definition LF : ascii := Ascii false true false true false false false false.
Definition TAB : ascii := Ascii true false false true false false false false.

Definition bytes_eqb (a b : bytes) : bool :=
  if list_eq_dec ascii_dec a b then true else false.

(** ** Package [strings] *)
Module strings.

(** [HasPrefix]-and-trim: [strip sep s] is [Some rest] when [s = sep ++ rest]. *)
Fixpoint strip (sep s : bytes) : option bytes :=
  match sep with
  | [] => Some s
  | c :: sep' =>
      match s with
      | [] => None
      | x :: s' => if Ascii.eqb c x then strip sep' s' else None
      end
  end.

(** [strings.Cut(s, sep)]: the text before and after the first (leftmost)
    instance of [sep], or [None] when [sep] does not occur in [s]. *)
Fixpoint Cut (s sep : bytes) : option (bytes * bytes) :=
  match strip sep s with
  | Some rest => Some ([], rest)
  | None =>
      match s with
      | [] => None
      | x :: s' =>
          match Cut s' sep with
          | Some (before, after) => Some (x :: before, after)
          | None => None
          end
      end
  end.

Definition Contains (s sep : bytes) : bool :=
  match Cut s sep with Some _ => true | None => false end.

(** The loop of [genSplit]: cut at the leftmost instance of [sep], keep the
    text before it, go on in the text after it; at most [n] cuts. *)
Fixpoint genSplit (n : nat) (s sep : bytes) : list bytes :=
  match n with
  | O => [s]
  | S n' =>
      match Cut s sep with
      | None => [s]
      | Some (before, after) => before :: genSplit n' after sep
      end
  end.

(** [strings.Split(s, sep)] for a non-empty [sep] (the program only splits on
    its two fixed headers).  A non-empty [sep] occurs fewer than
    [length s + 1] times without overlap, so the bound never cuts the loop
    short (lemma [genSplit_fuel]). *)
Definition Split (s sep : bytes) : list bytes := genSplit (length s) s sep.

(** [strings.Join(elems, sep)]. *)
Fixpoint Join (elems : list bytes) (sep : bytes) : bytes :=
  match elems with
  | [] => []
  | [e] => e
  | e :: elems' => e ++ sep ++ Join elems' sep
  end.

(** [strings.Builder]: the accumulated text, threaded through the calls. *)
Definition Builder := bytes.
Definition NewBuilder : Builder := [].
Definition WriteString (b : Builder) (s : bytes) : Builder := b ++ s.
Definition Reset (b : Builder) : Builder := [].
Definition String (b : Builder) : bytes := b.

End strings.

(** ** Package [fmt] *)
Module fmt.

(** Operands of the formatting calls: strings and non-negative ints. *)
Inductive operand : Type :=
  | Str (s : bytes)
  | Int (n : nat).

Definition Itoa (n : nat) : bytes :=
  lit (DecimalString.NilEmpty.string_of_uint (Nat.to_uint n)).

(** What a verb prints for an operand; a verb of the wrong kind prints Go's
    [%!verb(type=value)]. *)
Definition verb_s (a : operand) : bytes :=
  match a with
  | Str s => s
  | Int n => lit "%!s(int=" ++ Itoa n ++ lit ")"
  end.

Definition verb_d (a : operand) : bytes :=
  match a with
  | Int n => Itoa n
  | Str s => lit "%!d(string=" ++ s ++ lit ")"
  end.

(** [fmt.Sprintf] for the verbs [%s] and [%d] (and [%%]), the verbs of
    the formats modelled here; a verb without operand prints
    [%!s(MISSING)] as Go does.  Operands left over are not reported: every
    call modelled here passes exactly the operands its format uses. *)
Fixpoint Sprintf (format : bytes) (args : list operand) : bytes :=
  match format with
  | [] => []
  | c :: rest =>
      if Ascii.eqb c "%"%char then
        match rest with
        | v :: rest' =>
            if Ascii.eqb v "s"%char then
              match args with
              | a :: args' => verb_s a ++ Sprintf rest' args'
              | [] => lit "%!s(MISSING)" ++ Sprintf rest' []
              end
            else if Ascii.eqb v "d"%char then
              match args with
              | a :: args' => verb_d a ++ Sprintf rest' args'
              | [] => lit "%!d(MISSING)" ++ Sprintf rest' []
              end
            else if Ascii.eqb v "%"%char then "%"%char :: Sprintf rest' args
            else c :: Sprintf rest args
        | [] => lit "%!(NOVERB)"
        end
      else c :: Sprintf rest args
  end.

End fmt.

(** ** Package [regexp] *)
Module regexp.

(** The regular expressions of the program are sequences of literal bytes
    and the greedy repetition [\s+]. *)
Inductive item : Type :=
  | Lit (c : ascii)
  | SpacePlus.

Definition Regexp := list item.

(** Perl class [\s] of RE2: tab, line feed, form feed, carriage return and
    space. *)
Definition is_space (c : ascii) : bool :=
  let n := nat_of_ascii c in
  (n =? 9) || (n =? 10) || (n =? 12) || (n =? 13) || (n =? 32).

(** Punctuation that a backslash escapes to itself. *)
Definition is_punct (c : ascii) : bool :=
  let n := nat_of_ascii c in
  ((33 <=? n) && (n <=? 47)) || ((58 <=? n) && (n <=? 64)) ||
  ((91 <=? n) && (n <=? 96)) || ((123 <=? n) && (n <=? 126)).

(** Characters that are operators when they are not escaped. *)
Definition is_meta (c : ascii) : bool :=
  existsb (Ascii.eqb c) (lit "\.+*?()|[]{}^$").

(** [regexp.Compile] on this fragment: escaped punctuation, [\s+], and
    ordinary bytes; [None] for any other syntax. *)
Fixpoint Compile (expr : bytes) : option Regexp :=
  match expr with
  | [] => Some []
  | c :: rest =>
      if Ascii.eqb c "\"%char then
        match rest with
        | e :: rest' =>
            if Ascii.eqb e "s"%char then
              match rest' with
              | p :: rest'' =>
                  if Ascii.eqb p "+"%char
                  then option_map (cons SpacePlus) (Compile rest'')
                  else None
              | [] => None
              end
            else if is_punct e then option_map (cons (Lit e)) (Compile rest')
            else None
        | [] => None
        end
      else if is_meta c then None
      else option_map (cons (Lit c)) (Compile rest)
  end.

(** [regexp.MustCompile] panics when [Compile] fails; both expressions of
    the program compile (lemmas [fieldsPattern_compiles],
    [eventPattern_compiles]). *)
Definition MustCompile (expr : bytes) : Regexp :=
  match Compile expr with Some re => re | None => [] end.

(** Greedy [\s*] followed by the continuation [k]: the longest run of white
    space is tried first, shorter ones on failure (leftmost-first
    semantics). *)
Fixpoint spaces_then (k : bytes -> option bytes) (s : bytes) : option bytes :=
  match s with
  | x :: s' =>
      if is_space x then
        match spaces_then k s' with
        | Some r => Some r
        | None => k s
        end
      else k s
  | [] => k []
  end.

(** Match [re] at the start of [s]; the result is the input left after the
    match. *)
Fixpoint match_here (re : Regexp) : bytes -> option bytes :=
  match re with
  | [] => fun s => Some s
  | Lit c :: re' =>
      fun s =>
        match s with
        | x :: s' => if Ascii.eqb c x then match_here re' s' else None
        | [] => None
        end
  | SpacePlus :: re' =>
      fun s =>
        match s with
        | x :: s' => if is_space x then spaces_then (match_here re') s' else None
        | [] => None
        end
  end.

(** Leftmost match: the text before it, the matched text and the text after
    it. *)
Fixpoint find (re : Regexp) (s : bytes) : option (bytes * bytes * bytes) :=
  match match_here re s with
  | Some rest => Some ([], firstn (length s - length rest) s, rest)
  | None =>
      match s with
      | [] => None
      | x :: s' =>
          match find re s' with
          | Some (before, m, after) => Some (x :: before, m, after)
          | None => None
          end
      end
  end.

(** *** Replacement templates ([Regexp.expand]) *)

Definition is_digit (c : ascii) : bool :=
  let n := nat_of_ascii c in (48 <=? n) && (n <=? 57).

(** Bytes of a variable name: letters, digits and underscore.  Go also takes
    non-ASCII Unicode letters and digits; this byte-level model reads ASCII
    names, which is exact on ASCII templates. *)
Definition is_name_byte (c : ascii) : bool :=
  let n := nat_of_ascii c in
  ((48 <=? n) && (n <=? 57)) || ((65 <=? n) && (n <=? 90)) ||
  ((97 <=? n) && (n <=? 122)) || (n =? 95).

Fixpoint span_name (s : bytes) : bytes * bytes :=
  match s with
  | c :: s' =>
      if is_name_byte c then let (n, r) := span_name s' in (c :: n, r)
      else ([], s)
  | [] => ([], [])
  end.

(** The number a name denotes, [None] for Go's [-1]: not all digits, a
    leading zero, or too long. *)
Fixpoint parse_num (acc : N) (name : bytes) : option N :=
  match name with
  | [] => Some acc
  | c :: name' =>
      if negb (is_digit c) || (100000000 <=? acc)%N then None
      else parse_num (acc * 10 + (N_of_ascii c - 48))%N name'
  end.

Definition name_num (name : bytes) : option N :=
  match name with
  | c :: _ :: _ => if Ascii.eqb c "0"%char then None else parse_num 0%N name
  | _ => parse_num 0%N name
  end.

(** [extract]: the name from a leading [name] or [{name}] (the [$] already
    removed), its number and the rest of the template. *)
Definition extract (str : bytes) : option (bytes * option N * bytes) :=
  match str with
  | [] => None
  | c :: str' =>
      let brace := Ascii.eqb c "{"%char in
      let body := if brace then str' else str in
      let (name, rest) := span_name body in
      match name with
      | [] => None
      | _ =>
          if brace then
            match rest with
            | r :: rest' =>
                if Ascii.eqb r "}"%char then Some (name, name_num name, rest')
                else None
            | [] => None
            end
          else Some (name, name_num name, rest)
      end
  end.

(** The loop of [Regexp.expand] for an expression without capture groups:
    [matched] is submatch 0, every other index and every name is out of
    range and stands for the empty text.  Each round consumes the [$] it
    cut at, so [length template] rounds reach the end. *)
Fixpoint expand_loop (n : nat) (template matched : bytes) : bytes :=
  match n with
  | O => template
  | S n' =>
      match strings.Cut template (lit "$") with
      | None => template
      | Some (before, after) =>
          before ++
          match after with
          | c :: after' =>
              if Ascii.eqb c "$"%char then "$"%char :: expand_loop n' after' matched
              else
                match extract after with
                | None => "$"%char :: expand_loop n' after matched
                | Some (_, num, rest) =>
                    match num with
                    | Some 0%N => matched ++ expand_loop n' rest matched
                    | _ => expand_loop n' rest matched
                    end
                end
          | [] => lit "$"
          end
      end
  end.

Definition expand (template matched : bytes) : bytes :=
  expand_loop (length template) template matched.

(** The loop of [Regexp.replaceAll] for an expression whose matches are
    never empty (so the search always resumes at the end of the last
    match): copy the text before the leftmost match, append the expanded
    replacement, go on after the match. *)
Fixpoint replaceAll (n : nat) (re : Regexp) (src repl : bytes) : bytes :=
  match n with
  | O => src
  | S n' =>
      match find re src with
      | None => src
      | Some (before, m, after) =>
          before ++ expand repl m ++ replaceAll n' re after repl
      end
  end.

(** [Regexp.ReplaceAllString(src, repl)]. *)
Definition ReplaceAllString (re : Regexp) (src repl : bytes) : bytes :=
  replaceAll (length src) re src repl.

End regexp.

(** ** Package [path/filepath] (Unix: the separator is [/], no volume
    names) *)
Module filepath.

Definition is_sep (c : ascii) : bool := Ascii.eqb c "/"%char.

Fixpoint drop_seps (s : bytes) : bytes :=
  match s with
  | c :: s' => if is_sep c then drop_seps s' else s
  | [] => []
  end.

Fixpoint take_elem (s : bytes) : bytes :=
  match s with
  | c :: s' => if is_sep c then [] else c :: take_elem s'
  | [] => []
  end.

(** [filepath.Base]: the last element of the path, trailing separators
    removed first; [.] for the empty path, [/] for a path of separators
    only. *)
Definition Base (path : bytes) : bytes :=
  match path with
  | [] => lit "."
  | _ =>
      match rev (take_elem (drop_seps (rev path))) with
      | [] => lit "/"
      | last => last
      end
  end.

(** One element of the path against the elements kept so far (the last
    kept element first). *)
Definition clean_step (rooted : bool) (kept : list bytes) (e : bytes)
  : list bytes :=
  if bytes_eqb e [] || bytes_eqb e (lit ".") then kept
  else if bytes_eqb e (lit "..") then
    match kept with
    | top :: kept' => if bytes_eqb top (lit "..") then e :: kept else kept'
    | [] => if rooted then [] else [e]
    end
  else e :: kept.

(** [filepath.Clean] by its documented rules: runs of separators collapse,
    [.] elements go, an inner [..] goes with the element before it, [..] at
    the start of a rooted path goes, the empty result is [.]. *)
Definition Clean (path : bytes) : bytes :=
  let rooted := match path with c :: _ => is_sep c | [] => false end in
  let kept := fold_left (clean_step rooted) (strings.Split path (lit "/")) [] in
  match (if rooted then lit "/" else []) ++ strings.Join (rev kept) (lit "/") with
  | [] => lit "."
  | out => out
  end.

Fixpoint drop_empty (elem : list bytes) : list bytes :=
  match elem with
  | [] :: elem' => drop_empty elem'
  | _ => elem
  end.

(** [filepath.Join]: leading empty elements are ignored, the rest is joined
    with separators and cleaned; the empty string when all are empty. *)
Definition Join (elem : list bytes) : bytes :=
  match drop_empty elem with
  | [] => []
  | es => Clean (strings.Join es (lit "/"))
  end.

End filepath.

(** ** Package [os]: the file system as the program observes it *)
Module os.

(** Errors: the conditions of the operating system the program tells
    apart, and an error wrapped by [fmt.Errorf] with [%w]. *)
Inductive error : Type :=
  | ErrNotExist
  | ErrPermission
  | ErrNotDir
  | ErrIO
  | Wrapped (msg : bytes) (cause : error).

(** A Go [error] value; [None] is [nil]. *)
Definition goerror := option error.

Record DirEntry : Type := { Name : bytes; IsDir : bool }.

(** The two calls the program makes: [os.Stat] (its [FileInfo] is
    discarded by the caller, only the error is kept) and [os.ReadDir]. *)
Record FileSystem : Type := {
  Stat : bytes -> goerror;
  ReadDir : bytes -> list DirEntry * goerror
}.

(** [os.IsNotExist]; it is false on [nil]. *)
Definition IsNotExist (err : goerror) : bool :=
  match err with
  | Some ErrNotExist => true
  | _ => false
  end.

(** A file system holding the listed directories and nothing else. *)
Definition dirsFS (dirs : list (bytes * list DirEntry)) : FileSystem :=
  let lookup path :=
    find (fun d => bytes_eqb (fst d) path) dirs in
  {| Stat := fun path =>
       match lookup path with Some _ => None | None => Some ErrNotExist end;
     ReadDir := fun path =>
       match lookup path with
       | Some d => (snd d, None)
       | None => ([], Some ErrNotExist)
       end |}.

End os.

(** ** Package [github.com/pmezard/go-difflib/difflib] *)
Module difflib.

Record Match : Type := { A : nat; B : nat; Size : nat }.

(** Tags are the bytes ['r'], ['d'], ['i'] and ['e']. *)
Record OpCode : Type :=
  { Tag : ascii; I1 : nat; I2 : nat; J1 : nat; J2 : nat }.

(** A Go map read with the zero value as default. *)
Definition update {V : Type} (m : bytes -> V) (s : bytes) (v : V) : bytes -> V :=
  fun s' => if bytes_eqb s' s then v else m s'.

Definition update_nat (m : nat -> nat) (j v : nat) : nat -> nat :=
  fun j' => if j' =? j then v else m j'.

(** [chainB]: [b2j] maps each line of [b] to the ascending list of its
    positions.  [IsJunk] is nil, so no line is junk; with [autoJunk] and at
    least 200 lines, a line at more than [n/100 + 1] positions is popular
    and its key is deleted. *)
Definition chainB (b : list bytes) : bytes -> list nat :=
  let b2j :=
    fold_left
      (fun b2j (e : nat * bytes) =>
         let (i, s) := e in update b2j s (b2j s ++ [i]))
      (combine (seq 0 (length b)) b) (fun _ => []) in
  let n := length b in
  if 200 <=? n then
    let ntest := n / 100 + 1 in
    fun s => if ntest <? length (b2j s) then [] else b2j s
  else b2j.

(** [isBJunk]: [bJunk] is empty. *)
Definition isBJunk (s : bytes) : bool := false.

(** The best match so far: [(besti, bestj, bestsize)]. *)
Definition best := (nat * nat * nat)%type.

(** [j2len[j-1]]; at [j = 0] the key [-1] is absent and reads as zero. *)
Definition before (j2len : nat -> nat) (j : nat) : nat :=
  match j with
  | O => 0
  | S j' => j2len j'
  end.

(** The inner loop of [findLongestMatch] over the positions of [a[i]] in
    [b]: positions below [blo] are skipped, the first one from [bhi] on
    ends the loop.  A run that ends at [(i, j)] is not longer than [i + 1]
    or [j + 1], so [i - k + 1] is [i + 1 - k] on natural numbers. *)
Fixpoint scan_row (i blo bhi : nat) (j2len : nat -> nat) (js : list nat)
    (st : best) (newj2len : nat -> nat) : best * (nat -> nat) :=
  match js with
  | [] => (st, newj2len)
  | j :: js' =>
      if j <? blo then scan_row i blo bhi j2len js' st newj2len
      else if bhi <=? j then (st, newj2len)
      else
        let k := before j2len j + 1 in
        let newj2len := update_nat newj2len j k in
        let '(_, _, bestsize) := st in
        let st := if bestsize <? k then (i + 1 - k, j + 1 - k, k) else st in
        scan_row i blo bhi j2len js' st newj2len
  end.

(** The outer loop, [i] from [alo] up to [ahi]. *)
Fixpoint scan_rows (a : list bytes) (b2j : bytes -> list nat) (blo bhi : nat)
    (rows : list nat) (st : best) (j2len : nat -> nat) : best :=
  match rows with
  | [] => st
  | i :: rows' =>
      let (st', newj2len) :=
        scan_row i blo bhi j2len (b2j (nth i a [])) st (fun _ => 0) in
      scan_rows a b2j blo bhi rows' st' newj2len
  end.

(** The loops that extend the best match at its two ends, first by lines
    that are not junk ([junk = false]), then by junk lines. *)
Fixpoint extend_back (n : nat) (a b : list bytes) (alo blo : nat)
    (junk : bool) (st : best) : best :=
  match n with
  | O => st
  | S n' =>
      let '(besti, bestj, bestsize) := st in
      if (alo <? besti) && (blo <? bestj) &&
         Bool.eqb (isBJunk (nth (bestj - 1) b [])) junk &&
         bytes_eqb (nth (besti - 1) a []) (nth (bestj - 1) b [])
      then extend_back n' a b alo blo junk (besti - 1, bestj - 1, bestsize + 1)
      else st
  end.

Fixpoint extend_fwd (n : nat) (a b : list bytes) (ahi bhi : nat)
    (junk : bool) (st : best) : best :=
  match n with
  | O => st
  | S n' =>
      let '(besti, bestj, bestsize) := st in
      if (besti + bestsize <? ahi) && (bestj + bestsize <? bhi) &&
         Bool.eqb (isBJunk (nth (bestj + bestsize) b [])) junk &&
         bytes_eqb (nth (besti + bestsize) a []) (nth (bestj + bestsize) b [])
      then extend_fwd n' a b ahi bhi junk (besti, bestj, bestsize + 1)
      else st
  end.

(** [findLongestMatch(alo, ahi, blo, bhi)]; each extension loop runs at
    most [length a] times. *)
Definition findLongestMatch (a b : list bytes) (b2j : bytes -> list nat)
    (alo ahi blo bhi : nat) : Match :=
  let st := scan_rows a b2j blo bhi (seq alo (ahi - alo)) (alo, blo, 0) (fun _ => 0) in
  let st := extend_back (length a) a b alo blo false st in
  let st := extend_fwd (length a) a b ahi bhi false st in
  let st := extend_back (length a) a b alo blo true st in
  let st := extend_fwd (length a) a b ahi bhi true st in
  let '(besti, bestj, bestsize) := st in
  {| A := besti; B := bestj; Size := bestsize |}.

(** The recursive closure [matchBlocks] of [GetMatchingBlocks]; each call
    works on a strictly shorter range of [a], [n] bounds the depth. *)
Fixpoint matchBlocks (n : nat) (a b : list bytes) (b2j : bytes -> list nat)
    (alo ahi blo bhi : nat) (matched : list Match) : list Match :=
  match n with
  | O => matched
  | S n' =>
      let m := findLongestMatch a b b2j alo ahi blo bhi in
      let i := A m in
      let j := B m in
      let k := Size m in
      if 0 <? k then
        let matched :=
          if (alo <? i) && (blo <? j)
          then matchBlocks n' a b b2j alo i blo j matched
          else matched in
        let matched := matched ++ [m] in
        if (i + k <? ahi) && (j + k <? bhi)
        then matchBlocks n' a b b2j (i + k) ahi (j + k) bhi matched
        else matched
      else matched
  end.

(** The loop of [GetMatchingBlocks] that merges adjacent blocks; the state
    is the block [(i1, j1, k1)] under construction and the blocks done. *)
Definition collapse_step (st : nat * nat * nat * list Match) (blk : Match)
  : nat * nat * nat * list Match :=
  let '(i1, j1, k1, nonAdjacent) := st in
  if (i1 + k1 =? A blk) && (j1 + k1 =? B blk)
  then (i1, j1, k1 + Size blk, nonAdjacent)
  else
    (A blk, B blk, Size blk,
     if 0 <? k1
     then nonAdjacent ++ [{| A := i1; B := j1; Size := k1 |}]
     else nonAdjacent).

Definition GetMatchingBlocks (a b : list bytes) : list Match :=
  let matched :=
    matchBlocks (S (length a)) a b (chainB b) 0 (length a) 0 (length b) [] in
  let '(i1, j1, k1, nonAdjacent) := fold_left collapse_step matched (0, 0, 0, []) in
  let nonAdjacent :=
    if 0 <? k1
    then nonAdjacent ++ [{| A := i1; B := j1; Size := k1 |}]
    else nonAdjacent in
  nonAdjacent ++ [{| A := length a; B := length b; Size := 0 |}].

(** The loop of [GetOpCodes]; the state is [(i, j)] and the codes so far. *)
Definition opcode_step (st : nat * nat * list OpCode) (m : Match)
  : nat * nat * list OpCode :=
  let '(i, j, opCodes) := st in
  let ai := A m in
  let bj := B m in
  let size := Size m in
  let tag :=
    if (i <? ai) && (j <? bj) then Some "r"%char
    else if i <? ai then Some "d"%char
    else if j <? bj then Some "i"%char
    else None in
  let opCodes :=
    match tag with
    | Some t => opCodes ++ [{| Tag := t; I1 := i; I2 := ai; J1 := j; J2 := bj |}]
    | None => opCodes
    end in
  let i := ai + size in
  let j := bj + size in
  let opCodes :=
    if 0 <? size
    then opCodes ++ [{| Tag := "e"%char; I1 := ai; I2 := i; J1 := bj; J2 := j |}]
    else opCodes in
  (i, j, opCodes).

Definition GetOpCodes (a b : list bytes) : list OpCode :=
  snd (fold_left opcode_step (GetMatchingBlocks a b) (0, 0, [])).

Definition is_equal (c : OpCode) : bool := Ascii.eqb (Tag c) "e"%char.

Definition set_first (codes : list OpCode) (c : OpCode) : list OpCode :=
  match codes with
  | [] => []
  | _ :: rest => c :: rest
  end.

Definition set_last (codes : list OpCode) (c : OpCode) : list OpCode :=
  match codes with
  | [] => []
  | _ => removelast codes ++ [c]
  end.

(** The loop of [GetGroupedOpCodes]; the state is the groups done and the
    group under construction. *)
Definition group_step (n : nat) (st : list (list OpCode) * list OpCode)
    (c : OpCode) : list (list OpCode) * list OpCode :=
  let (groups, group) := st in
  let '(i1, i2, j1, j2) := (I1 c, I2 c, J1 c, J2 c) in
  if is_equal c && (n + n <? i2 - i1) then
    let group :=
      group ++ [{| Tag := Tag c; I1 := i1; I2 := Nat.min i2 (i1 + n);
                   J1 := j1; J2 := Nat.min j2 (j1 + n) |}] in
    let groups := groups ++ [group] in
    let i1 := Nat.max i1 (i2 - n) in
    let j1 := Nat.max j1 (j2 - n) in
    (groups, [{| Tag := Tag c; I1 := i1; I2 := i2; J1 := j1; J2 := j2 |}])
  else
    (groups, group ++ [{| Tag := Tag c; I1 := i1; I2 := i2; J1 := j1; J2 := j2 |}]).

(** [GetGroupedOpCodes(n)] for [n >= 0].  All indices are non-negative, so
    [max(i1, i2-n)] is the same with the subtraction cut off at zero. *)
Definition GetGroupedOpCodes (a b : list bytes) (n : nat) : list (list OpCode) :=
  let codes := GetOpCodes a b in
  let codes :=
    match codes with
    | [] => [{| Tag := "e"%char; I1 := 0; I2 := 1; J1 := 0; J2 := 1 |}]
    | _ => codes
    end in
  let codes :=
    match hd_error codes with
    | Some c =>
        if is_equal c
        then set_first codes
               {| Tag := Tag c; I1 := Nat.max (I1 c) (I2 c - n); I2 := I2 c;
                  J1 := Nat.max (J1 c) (J2 c - n); J2 := J2 c |}
        else codes
    | None => codes
    end in
  let codes :=
    match hd_error (rev codes) with
    | Some c =>
        if is_equal c
        then set_last codes
               {| Tag := Tag c; I1 := I1 c; I2 := Nat.min (I2 c) (I1 c + n);
                  J1 := J1 c; J2 := Nat.min (J2 c) (J1 c + n) |}
        else codes
    | None => codes
    end in
  let (groups, group) := fold_left (group_step n) codes ([], []) in
  match group with
  | [] => groups
  | [c] => if is_equal c then groups else groups ++ [group]
  | _ => groups ++ [group]
  end.

(** [formatRangeUnified(start, stop)]. *)
Definition formatRangeUnified (start stop : nat) : bytes :=
  let beginning := start + 1 in
  let length := stop - start in
  if length =? 1 then fmt.Sprintf (lit "%d") [fmt.Int beginning]
  else
    let beginning := if length =? 0 then beginning - 1 else beginning in
    fmt.Sprintf (lit "%d,%d") [fmt.Int beginning; fmt.Int length].

Record UnifiedDiff : Type := {
  DiffA : list bytes;
  DiffB : list bytes;
  FromFile : bytes;
  FromDate : bytes;
  ToFile : bytes;
  ToDate : bytes;
  Eol : bytes;
  Context : nat
}.

(** The slice [s[lo:hi]]. *)
Definition slice (s : list bytes) (lo hi : nat) : list bytes :=
  firstn (hi - lo) (skipn lo s).

Definition write_lines (buf : bytes) (prefix : bytes) (lines : list bytes) : bytes :=
  fold_left (fun buf line => buf ++ prefix ++ line) lines buf.

(** The lines of one opcode. *)
Definition write_opcode (diff : UnifiedDiff) (buf : bytes) (c : OpCode) : bytes :=
  if Ascii.eqb (Tag c) "e"%char then
    write_lines buf (lit " ") (slice (DiffA diff) (I1 c) (I2 c))
  else
    let buf :=
      if Ascii.eqb (Tag c) "r"%char || Ascii.eqb (Tag c) "d"%char
      then write_lines buf (lit "-") (slice (DiffA diff) (I1 c) (I2 c))
      else buf in
    if Ascii.eqb (Tag c) "r"%char || Ascii.eqb (Tag c) "i"%char
    then write_lines buf (lit "+") (slice (DiffB diff) (J1 c) (J2 c))
    else buf.

(** One group: the file header before the first group, the range line,
    the lines.  The state is the buffer and [started]. *)
Definition write_group (diff : UnifiedDiff) (st : bytes * bool)
    (g : list OpCode) : bytes * bool :=
  let (buf, started) := st in
  let buf :=
    if started then buf
    else
      let fromDate :=
        if 0 <? length (FromDate diff) then [TAB] ++ FromDate diff else [] in
      let toDate :=
        if 0 <? length (ToDate diff) then [TAB] ++ ToDate diff else [] in
      if negb (bytes_eqb (FromFile diff) []) || negb (bytes_eqb (ToFile diff) [])
      then
        buf ++
        fmt.Sprintf (lit "--- %s%s%s")
          [fmt.Str (FromFile diff); fmt.Str fromDate; fmt.Str (Eol diff)] ++
        fmt.Sprintf (lit "+++ %s%s%s")
          [fmt.Str (ToFile diff); fmt.Str toDate; fmt.Str (Eol diff)]
      else buf in
  match hd_error g, hd_error (rev g) with
  | Some first, Some last =>
      let range1 := formatRangeUnified (I1 first) (I2 last) in
      let range2 := formatRangeUnified (J1 first) (J2 last) in
      let buf :=
        buf ++
        fmt.Sprintf (lit "@@ -%s +%s @@%s")
          [fmt.Str range1; fmt.Str range2; fmt.Str (Eol diff)] in
      (fold_left (write_opcode diff) g buf, true)
  | _, _ => (buf, true)
  end.

(** [WriteUnifiedDiff] into a buffer that never fails, as
    [GetUnifiedDiffString] calls it: the text written and a nil error. *)
Definition GetUnifiedDiffString (diff : UnifiedDiff) : bytes * os.goerror :=
  let diff :=
    if length (Eol diff) =? 0
    then {| DiffA := DiffA diff; DiffB := DiffB diff;
            FromFile := FromFile diff; FromDate := FromDate diff;
            ToFile := ToFile diff; ToDate := ToDate diff;
            Eol := [LF]; Context := Context diff |}
    else diff in
  let groups := GetGroupedOpCodes (DiffA diff) (DiffB diff) (Context diff) in
  (fst (fold_left (write_group diff) groups ([], false)), None).

End difflib.

(** ** The placeholder rewriter *)

(** [`\{\{fields\s+"data_stream_name"\}\}`] and
    [`\{\{event\s+"data_stream_name"\}\}`]. *)
Definition fieldsPattern : regexp.Regexp :=
  regexp.MustCompile
    (lit "\{\{fields\s+" ++ DQ :: lit "data_stream_name" ++ DQ :: lit "\}\}").
Definition eventPattern : regexp.Regexp :=
  regexp.MustCompile
    (lit "\{\{event\s+" ++ DQ :: lit "data_stream_name" ++ DQ :: lit "\}\}").

(** The formats [`{{fields "%s"}}`] and [`{{event "%s"}}`]. *)
Definition fieldsFormat : bytes := lit "{{fields " ++ DQ :: lit "%s" ++ DQ :: lit "}}".
Definition eventFormat : bytes := lit "{{event " ++ DQ :: lit "%s" ++ DQ :: lit "}}".

(** The formats ["#### %s\n\n{{fields \"%s\"}}\n\n"] and
    ["#### %s\n\n{{event \"%s\"}}\n\n"] of the per-entity sub-blocks. *)
Definition fieldsBlockFormat : bytes :=
  lit "#### %s" ++ [LF; LF] ++ fieldsFormat ++ [LF; LF].
Definition eventBlockFormat : bytes :=
  lit "#### %s" ++ [LF; LF] ++ eventFormat ++ [LF; LF].

Definition ecsHeader : bytes := lit "### ECS field Reference".
Definition sampleHeader : bytes := lit "### Sample Event".

(** [applyDataStreamPlaceholders(content, dataStreams)].  The messages
    logged under [verbose] do not reach the returned text and are left
    out. *)
Definition applyDataStreamPlaceholders
    (content : bytes) (dataStreams : list bytes) : bytes :=
  if length dataStreams =? 0 then content
  else
    let result := strings.NewBuilder in
    if length dataStreams =? 1 then
      let result :=
        strings.WriteString result
          (regexp.ReplaceAllString fieldsPattern content
             (fmt.Sprintf fieldsFormat [fmt.Str (nth 0 dataStreams [])])) in
      let content := strings.String result in
      let result := strings.Reset result in
      let result :=
        strings.WriteString result
          (regexp.ReplaceAllString eventPattern content
             (fmt.Sprintf eventFormat [fmt.Str (nth 0 dataStreams [])])) in
      strings.String result
    else
      let sections := strings.Split content ecsHeader in
      let sections :=
        if negb (length sections =? 2)
        then strings.Split content sampleHeader
        else sections in
      if negb (length sections =? 2) then
        let result :=
          strings.WriteString result
            (regexp.ReplaceAllString fieldsPattern content
               (fmt.Sprintf fieldsFormat [fmt.Str (nth 0 dataStreams [])])) in
        let content := strings.String result in
        let result := strings.Reset result in
        let result :=
          strings.WriteString result
            (regexp.ReplaceAllString eventPattern content
               (fmt.Sprintf eventFormat [fmt.Str (nth 0 dataStreams [])])) in
        strings.String result
      else
        let result := strings.WriteString result (nth 0 sections []) in
        let result :=
          strings.WriteString result (lit "### ECS field Reference" ++ [LF; LF]) in
        let result :=
          fold_left
            (fun result ds =>
               strings.WriteString result (fmt.Sprintf fieldsBlockFormat [fmt.Str ds; fmt.Str ds]))
            dataStreams result in
        let eventSections := strings.Split (nth 1 sections []) sampleHeader in
        let result :=
          if length eventSections =? 2 then
            let result :=
              strings.WriteString result (lit "### Sample Event" ++ [LF; LF]) in
            let result :=
              fold_left
                (fun result ds =>
                   strings.WriteString result
                     (fmt.Sprintf eventBlockFormat [fmt.Str ds; fmt.Str ds]))
                dataStreams result in
            strings.WriteString result (nth 1 eventSections [])
          else strings.WriteString result (nth 1 sections []) in
        strings.String result.

(** ** Entity discovery *)

(** [findDataStreams(pkgPath)] on the file system [fs]; the messages logged
    under [verbose] are left out. *)
Definition findDataStreams (fs : os.FileSystem) (pkgPath : bytes)
  : list bytes * os.goerror :=
  let dataStreamPath := filepath.Join [pkgPath; lit "data_stream"] in
  if os.IsNotExist (os.Stat fs dataStreamPath) then ([], None)
  else
    let (entries, err) := os.ReadDir fs dataStreamPath in
    match err with
    | Some cause =>
        ([], Some (os.Wrapped (lit "failed to read data_stream directory: ") cause))
    | None =>
        let dataStreams :=
          fold_left
            (fun dataStreams entry =>
               if os.IsDir entry then dataStreams ++ [os.Name entry]
               else dataStreams)
            entries [] in
        (dataStreams, None)
    end.

(** ** Patch generation *)

(** [generatePatch(filePath, original, updated)]. *)
Definition generatePatch (filePath original updated : bytes)
  : bytes * os.goerror :=
  let fromLines := strings.Split original [LF] in
  let toLines := strings.Split updated [LF] in
  let diff :=
    {| difflib.DiffA := fromLines;
       difflib.DiffB := toLines;
       difflib.FromFile := lit "a/" ++ filepath.Base filePath;
       difflib.FromDate := [];
       difflib.ToFile := lit "b/" ++ filepath.Base filePath;
       difflib.ToDate := [];
       difflib.Eol := [];
       difflib.Context := 3 |} in
  difflib.GetUnifiedDiffString diff.

(** ** Vocabulary of the specification *)

Definition fieldsKind : bytes := lit "fields".
Definition eventKind : bytes := lit "event".
Definition genericName : bytes := lit "data_stream_name".

Definition isKind (kind : bytes) : Prop := kind = fieldsKind \/ kind = eventKind.

(** A run of white space, as [\s] reads it. *)
Definition whitespace (ws : bytes) : Prop := forallb regexp.is_space ws = true.

(** The placeholder of [kind] bound to [name], rendered: the keyword, one
    space, the quoted name, between double braces. *)
Definition placeholder (kind name : bytes) : bytes :=
  lit "{{" ++ kind ++ lit " " ++ DQ :: name ++ DQ :: lit "}}".

(** A generic placeholder token: as [placeholder kind genericName], with the
    white space [ws] between the keyword and the quoted name. *)
Definition genericPlaceholder (kind ws : bytes) : bytes :=
  lit "{{" ++ kind ++ ws ++ DQ :: genericName ++ DQ :: lit "}}".

(** The matching pattern of the rewriter with [name] in the quoted-name
    position; at [genericName] it is the pattern the rewriter compiles
    (lemmas [fieldsPattern_shape], [eventPattern_shape]). *)
Definition placeholderPattern (kind name : bytes) : regexp.Regexp :=
  map regexp.Lit (lit "{{" ++ kind) ++
  regexp.SpacePlus :: map regexp.Lit (DQ :: name ++ DQ :: lit "}}").

(** The sub-block of one entity: its heading, a blank line, its
    placeholder, a blank line. *)
Definition entityHeading (name : bytes) : bytes := lit "#### " ++ name.
Definition subBlock (kind name : bytes) : bytes :=
  entityHeading name ++ [LF; LF] ++ placeholder kind name ++ [LF; LF].

(** A generic placeholder starts at the head of [s]. *)
Definition startsGeneric (s : bytes) : Prop :=
  exists kind ws rest,
    isKind kind /\ ws <> [] /\ whitespace ws /\
    s = genericPlaceholder kind ws ++ rest.

(** [Rewritten e d out]: [out] is [d] with every generic placeholder, read
    from left to right, replaced by the placeholder of the same kind bound
    to [e], and every other byte kept. *)
Inductive Rewritten (e : bytes) : bytes -> bytes -> Prop :=
  | RW_nil : Rewritten e [] []
  | RW_placeholder kind ws rest out :
      isKind kind -> ws <> [] -> whitespace ws ->
      Rewritten e rest out ->
      Rewritten e (genericPlaceholder kind ws ++ rest) (placeholder kind e ++ out)
  | RW_other c d out :
      ~ startsGeneric (c :: d) ->
      Rewritten e d out ->
      Rewritten e (c :: d) (c :: out).

(** The single-entity behaviour for the entity [e]: the fields pattern is
    replaced throughout, then the event pattern in the result. *)
Definition singleEntityRewrite (content e : bytes) : bytes :=
  regexp.ReplaceAllString eventPattern
    (regexp.ReplaceAllString fieldsPattern content
       (fmt.Sprintf fieldsFormat [fmt.Str e]))
    (fmt.Sprintf eventFormat [fmt.Str e]).

(** A token that differs from the generic placeholder by the white space
    [a] after the opening braces, [ws] after the keyword, [b] and [c] inside
    the quotes, [d] before the closing braces. *)
Definition spacedToken (kind a ws b c d : bytes) : bytes :=
  lit "{{" ++ a ++ kind ++ ws ++ DQ :: b ++ genericName ++ c ++ DQ :: d ++ lit "}}".

(** Line [i] of [l] has kept its key in [b2j] (it is not popular). *)
Definition kept (b2j : bytes -> list nat) (l : list bytes) (i : nat) : bool :=
  match b2j (nth i l []) with
  | [] => false
  | _ => true
  end.

(** The number of consecutive kept lines that end at line [i]. *)
Fixpoint keptRun (b2j : bytes -> list nat) (l : list bytes) (i : nat) : nat :=
  if kept b2j l i
  then S (match i with O => 0 | S i' => keptRun b2j l i' end)
  else 0.

(** What the outer loop of [findLongestMatch] maintains when a sequence is
    matched against itself, at the start of row [i]: the best match lies on
    the diagonal and ends before row [i], it is at least as long as every
    run of kept lines that ends before row [i], and [j2len] is bounded by
    these runs and exact at [i - 1]. *)
Definition scanInv (b2j : bytes -> list nat) (l : list bytes) (i : nat)
    (st : difflib.best) (j2len : nat -> nat) : Prop :=
  let '(besti, bestj, bestsize) := st in
  besti = bestj /\ besti + bestsize <= i /\
  (forall j, j2len j <= difflib.before (keptRun b2j l) i) /\
  (forall j, j2len j <= keptRun b2j l j) /\
  difflib.before j2len i = difflib.before (keptRun b2j l) i /\
  (forall i', i' < i -> keptRun b2j l i' <= bestsize).

(** The opening brace. *)
Definition LB : ascii := "{"%char.

(** The text that opens an event placeholder. *)
Definition eventOpener : bytes := lit "{{event".

(** Every match of [re] takes at least one byte. *)
Definition nonempty_matches (re : regexp.Regexp) : Prop :=
  forall s r, regexp.match_here re s = Some r -> length r < length s.

(** The positions below [n] at which [l] holds the line [s], ascending. *)
Definition positions (l : list bytes) (s : bytes) (n : nat) : list nat :=
  filter (fun j => bytes_eqb (nth j l []) s) (seq 0 n).

(** ** Sample inputs *)

(** A document with a generic placeholder of each kind and no section
    header. *)
Definition sampleDocument : bytes :=
  lit "# Logs" ++ [LF] ++ genericPlaceholder fieldsKind (lit "  ") ++ [LF] ++
  lit "An example event:" ++ [LF] ++ genericPlaceholder eventKind [LF] ++ [LF].

(** An entity name that closes its placeholder and opens a generic event
    placeholder. *)
Definition bracedName : bytes :=
  lit "x" ++ DQ :: lit "}}{{event " ++ DQ :: lit "data_stream_name".

(** A document with the sample-event header and without the fields
    header. *)
Definition sampleOnlyDocument : bytes :=
  lit "# Title" ++ [LF] ++ sampleHeader ++ [LF] ++
  genericPlaceholder eventKind (lit " ") ++ [LF].

(** A package with the entities [x] and [y] and a plain file beside them,
    and a package without [data_stream]. *)
Definition sampleEntries : list os.DirEntry :=
  [ {| os.Name := lit "notes.txt"; os.IsDir := false |};
    {| os.Name := lit "x"; os.IsDir := true |};
    {| os.Name := lit "y"; os.IsDir := true |} ].

Definition samplePackage : os.FileSystem :=
  os.dirsFS [(lit "pkg", []); (lit "pkg/data_stream", sampleEntries)].

Definition emptyPackage : os.FileSystem := os.dirsFS [(lit "pkg", [])].

(** ** Blocks that match *)

(** The block of [k] lines at [i] in [a] equals the block at [j] in [b],
    and both lie in the ranges searched. *)
Definition validBlock (a b : list bytes) (alo ahi blo bhi : nat)
    (st : difflib.best) : Prop :=
  let '(i, j, k) := st in
  alo <= i /\ i + k <= ahi /\ blo <= j /\ j + k <= bhi /\
  forall t, t < k -> nth (i + t) a [] = nth (j + t) b [].

(** The [k] lines of [a] that end above row [i] equal the [k] lines of
    [b] that end at column [j], inside the ranges searched. *)
Definition validRun (a b : list bytes) (alo blo i j k : nat) : Prop :=
  k <= i - alo /\ k <= j + 1 - blo /\
  forall t, t < k -> nth (i - 1 - t) a [] = nth (j - t) b [].

(** A matching block holds equal lines of the two sequences. *)
Definition genuine (a b : list bytes) (m : difflib.Match) : Prop :=
  difflib.A m + difflib.Size m <= length a /\
  difflib.B m + difflib.Size m <= length b /\
  forall t, t < difflib.Size m ->
    nth (difflib.A m + t) a [] = nth (difflib.B m + t) b [].

(** ** The system the program runs on *)

(** Package [net/http]: what the program reads of a response; [Body] names
    the stream of the body. *)
Module http.

Record Response : Type := { StatusCode : nat; Status : bytes; Body : nat }.

Definition StatusOK : nat := 200.

End http.

(** Package [github.com/google/generative-ai-go/genai]. *)
Module genai.

(** A part of a content: a [Text], or a part of another kind ([Blob],
    [FunctionCall], ...). *)
Inductive Part : Type :=
  | Text (s : bytes)
  | OtherPart.

(** The struct [Content]. *)
Record content : Type := { Parts : list Part }.

(** [Candidate.Content] is a pointer to a [Content]; [None] is [nil]. *)
Record Candidate : Type := { Content : option content }.

Record GenerateContentResponse : Type := { Candidates : list Candidate }.

Inductive HarmCategory : Type :=
  | HarmCategoryHarassment
  | HarmCategoryHateSpeech
  | HarmCategoryDangerousContent
  | HarmCategorySexuallyExplicit.

Inductive HarmBlockThreshold : Type :=
  | HarmBlockNone.

Record SafetySetting : Type :=
  { Category : HarmCategory; Threshold : HarmBlockThreshold }.

(** A [GenerativeModel] as the program sets it up: its name and its safety
    settings; every other field keeps its zero value. *)
Record GenerativeModel : Type :=
  { Client : nat; Name : bytes; SafetySettings : list SafetySetting }.

End genai.

(** A Go [error] of the program: an error of package [os] (with the
    wrappers of [findDataStreams]), an error of another package of which
    only the text is known, a new error made by [fmt.Errorf], and an error
    wrapped by [fmt.Errorf] with [%w] (the text is what the format prints
    before the cause). *)
Inductive error : Type :=
  | OSError (e : os.error)
  | Foreign (text : bytes)
  | New (text : bytes)
  | Wrap (text : bytes) (cause : error).

Definition goerror := option error.

(** The calls that act on the world, as a run records them.  The calls
    that only read it ([os.Stat], [os.ReadDir], [os.ReadFile],
    [os.Getenv]) are not recorded, and the messages logged under [verbose]
    are left out.  A body and a client are named by a number. *)
Inductive call : Type :=
  | MkdirAll (path : bytes) (perm : nat)
  | Copy (src dest : bytes)
  | WriteFile (name data : bytes) (perm : nat)
  | Get (url : bytes)
  | ReadAll (body : nat)
  | BodyClose (body : nat)
  | NewClient (apiKey : bytes)
  | ListModels (client : nat)
  | GenerateContent (model : genai.GenerativeModel) (parts : list genai.Part)
  | ClientClose (client : nat)
  | Println (text : bytes)
  | Fatal (text : bytes) (cause : goerror).

(** The system under the program: the file system a world shows, and what
    each call returns and does to the world.  The errors of
    [Body.Close] and [Client.Close] are dropped by the program and are not
    part of the interface. *)
Record System (World : Type) : Type := {
  fs : World -> os.FileSystem;
  os_ReadFile : bytes -> World -> bytes * goerror;
  os_Getenv : bytes -> World -> bytes;
  os_MkdirAll : bytes -> nat -> World -> goerror * World;
  copy_Copy : bytes -> bytes -> World -> goerror * World;
  os_WriteFile : bytes -> bytes -> nat -> World -> goerror * World;
  http_Get : bytes -> World -> (http.Response * goerror) * World;
  io_ReadAll : nat -> World -> (bytes * goerror) * World;
  Body_Close : nat -> World -> World;
  genai_NewClient : bytes -> World -> (nat * goerror) * World;
  Client_ListModels : nat -> World -> World;
  Client_Close : nat -> World -> World;
  fmt_Println : bytes -> World -> World;
  Model_GenerateContent :
    genai.GenerativeModel -> list genai.Part -> World ->
    (genai.GenerateContentResponse * goerror) * World
}.

Arguments fs {World}.
Arguments os_ReadFile {World}.
Arguments os_Getenv {World}.
Arguments os_MkdirAll {World}.
Arguments copy_Copy {World}.
Arguments os_WriteFile {World}.
Arguments http_Get {World}.
Arguments io_ReadAll {World}.
Arguments Body_Close {World}.
Arguments genai_NewClient {World}.
Arguments Client_ListModels {World}.
Arguments Client_Close {World}.
Arguments Model_GenerateContent {World}.
Arguments fmt_Println {World}.

(** How a run ends: with a value, in a panic, or in [os.Exit]. *)
Inductive outcome (A : Type) : Type :=
  | Returns (a : A)
  | Panics
  | Exits (code : nat).

Arguments Returns {A}.
Arguments Panics {A}.
Arguments Exits {A}.

(** ** The program *)

Definition templateURL : bytes :=
  lit "https://raw.githubusercontent.com/elastic/elastic-package/89b34ec09f562b2c1c921ba4b465b6ef96ea47de/internal/packages/archetype/_static/package-docs-readme.md.tmpl".

(** The system prompt, a format with two [%s]; one line of the source per
    element. *)
Definition systemPrompt : bytes :=
  strings.Join
    [lit "You are a documentation expert specializing in Elastic documentation templates.";
     lit "Your task is to transform the provided README file to conform to the new template structure. This is intended to be an additive process,";
     lit "so do not remove any existing content, only restructure it to fit the new template.";
     [];
     lit "Here is some context for you to reference for your task, read it carefully as you will get questions about it later:";
     lit "# Original README content:";
     lit "%s";
     [];
     lit "# New template structure:";
     lit "%s";
     []]
    [LF].

(** The user prompt. *)
Definition userPromptTemplate : bytes :=
  strings.Join
    [lit "I need to update this README.md file to match our new documentation template.";
     [];
     lit "Follow these exact guidelines:";
     lit "1. Always utilize the original content of the README.md file where possible";
     lit "2. Restructure the document to follow the new template format provided";
     lit "3. If any content is not relevant to the new template, copy it to the Reference section and add a note it in a code comment for why it should be removed";
     lit "4. Do not include the following from the tempalte: initial comment from the template, the header placeholder, or the Reference -> ECS field reference section";
     lit "5. Always organize the datastreams together under Reference section. For each datastream there should be";
     lit "a brief summary, exported fields, and sample events sections all separated with an empty line.";
     lit "6. Always prefix sample event placeholders with 'An example event for " ++ DQ :: lit "data_stream_name" ++ DQ :: lit " looks as following:'.";
     lit "7. Format your response appropriately for a Markdown file";
     lit "8. Replace any 'Exported fields' sections with the mustache placeholder: {{fields " ++ DQ :: lit "data_stream_name" ++ DQ :: lit "}}";
     lit "9. Replace any 'Sample event' sections with the mustache placeholder: {{event " ++ DQ :: lit "data_stream_name" ++ DQ :: lit "}}";
     lit "10. If there is no content for a section, you must add a code comment with some guidance to the user on what to add.";
     lit "11. Sync the document with the new template structure";
     [];
     lit "Return ONLY the updated Markdown content, without any explanation or commentary."]
    [LF].

(** [fmt.Sprintf("%s\n\n%s", fmt.Sprintf(systemPrompt, readmeContent,
    templateContent), userPromptTemplate)]. *)
Definition completePrompt (readmeContent templateContent : bytes) : bytes :=
  fmt.Sprintf (lit "%s" ++ [LF; LF] ++ lit "%s")
    [fmt.Str (fmt.Sprintf systemPrompt
                [fmt.Str readmeContent; fmt.Str templateContent]);
     fmt.Str userPromptTemplate].

Definition modelName : bytes := lit "gemini-2.5-pro".

Definition safetySettings : list genai.SafetySetting :=
  [ {| genai.Category := genai.HarmCategoryHarassment;
       genai.Threshold := genai.HarmBlockNone |};
    {| genai.Category := genai.HarmCategoryHateSpeech;
       genai.Threshold := genai.HarmBlockNone |};
    {| genai.Category := genai.HarmCategoryDangerousContent;
       genai.Threshold := genai.HarmBlockNone |};
    {| genai.Category := genai.HarmCategorySexuallyExplicit;
       genai.Threshold := genai.HarmBlockNone |} ].

Section Program.

Variable World : Type.
Variable sys : System World.

(** A state is the world and the calls made so far. *)
Definition state : Type := (World * list call)%type.

Definition M (A : Type) : Type := state -> outcome A * state.

Definition ret {A : Type} (a : A) : M A := fun s => (Returns a, s).

Definition bind {A B : Type} (m : M A) (k : A -> M B) : M B :=
  fun s =>
    match m s with
    | (Returns a, s') => k a s'
    | (Panics, s') => (Panics, s')
    | (Exits code, s') => (Exits code, s')
    end.

Local Notation "x <- m ;; k" := (bind m (fun x => k))
  (at level 61, m at next level, right associativity).
Local Notation "' p <- m ;; k" := (bind m (fun x => let 'p := x in k))
  (at level 61, p pattern, m at next level, right associativity).

(** A call that reads the world. *)
Definition observe {A : Type} (f : World -> A) : M A :=
  fun s => (Returns (f (fst s)), s).

(** A call that acts on the world; it is recorded. *)
Definition act {A : Type} (c : call) (f : World -> A * World) : M A :=
  fun s => let (a, w) := f (fst s) in (Returns a, (w, snd s ++ [c])).

(** A call of which the program drops the result. *)
Definition act_ (c : call) (f : World -> World) : M unit :=
  fun s => (Returns tt, (f (fst s), snd s ++ [c])).

(** [defer c] before [body]: the call runs when [body] returns and when it
    panics. *)
Definition defer {A : Type} (c : call) (f : World -> World) (body : M A)
  : M A :=
  fun s =>
    match body s with
    | (Returns a, s') => (Returns a, (f (fst s'), snd s' ++ [c]))
    | (Panics, s') => (Panics, (f (fst s'), snd s' ++ [c]))
    | (Exits code, s') => (Exits code, s')
    end.

(** A nil pointer dereference. *)
Definition panic {A : Type} : M A := fun s => (Panics, s).

(** [log.Fatal] and [log.Fatalf]: the message, then [os.Exit(1)]. *)
Definition fatal {A : Type} (text : bytes) (cause : goerror) : M A :=
  fun s => (Exits 1, (fst s, snd s ++ [Fatal text cause])).

(** [fetchTemplate()]. *)
Definition fetchTemplate : M (bytes * goerror) :=
  '(resp, err) <- act (Get templateURL) (http_Get sys templateURL) ;;
  match err with
  | Some e => ret ([], Some e)
  | None =>
      defer (BodyClose (http.Body resp)) (Body_Close sys (http.Body resp))
        (if negb (http.StatusCode resp =? http.StatusOK) then
           ret ([], Some (New (fmt.Sprintf
                                 (lit "failed to fetch template, status: %s")
                                 [fmt.Str (http.Status resp)])))
         else
           '(data, err) <- act (ReadAll (http.Body resp))
                             (io_ReadAll sys (http.Body resp)) ;;
           match err with
           | Some e => ret ([], Some e)
           | None => ret (data, None)
           end)
  end.

Variable googleAPIKey : bytes.
Variable verbose : bool.

(** [generateUpdatedReadme(readmeContent, templateContent)].  The context
    and its timeout reach the program only through the errors of the calls;
    the listing of the models under [verbose] is one call, what it logs is
    left out. *)
Definition generateUpdatedReadme (readmeContent templateContent : bytes)
  : M (bytes * goerror) :=
  '(client, err) <- act (NewClient googleAPIKey)
                      (genai_NewClient sys googleAPIKey) ;;
  match err with
  | Some e => ret ([], Some (Wrap (lit "error creating Gemini client: ") e))
  | None =>
      defer (ClientClose client) (Client_Close sys client)
        (_ <- (if verbose
               then act_ (ListModels client) (Client_ListModels sys client)
               else ret tt) ;;
         let model :=
           {| genai.Client := client; genai.Name := modelName;
              genai.SafetySettings := safetySettings |} in
         let completePrompt := completePrompt readmeContent templateContent in
         '(resp, err) <- act (GenerateContent model [genai.Text completePrompt])
                           (Model_GenerateContent sys model
                              [genai.Text completePrompt]) ;;
         match err with
         | Some e =>
             ret ([], Some (Wrap (fmt.Sprintf
                                    (lit "error generating content with %s: ")
                                    [fmt.Str modelName]) e))
         | None =>
             match genai.Candidates resp with
             | [] => ret ([], Some (New (lit "no response received from Gemini")))
             | candidate :: _ =>
                 match genai.Content candidate with
                 | None => panic
                 | Some content =>
                     match genai.Parts content with
                     | [] =>
                         ret ([], Some (New (lit "no response received from Gemini")))
                     | genai.Text responseText :: _ => ret (responseText, None)
                     | _ :: _ =>
                         ret ([], Some (New (lit "unexpected response type from Gemini")))
                     end
                 end
             end
         end)
  end.

(** [processPackage(pkgPath)]; the permissions [0755] and [0644] are 493
    and 420. *)
Definition processPackage (pkgPath : bytes) : M (bytes * goerror) :=
  let targetDir :=
    filepath.Join [pkgPath; lit "_dev"; lit "build"; lit "docs"] in
  let targetPath := filepath.Join [targetDir; lit "readme.md"] in
  let sourcePath := filepath.Join [pkgPath; lit "docs"; lit "README.md"] in
  let update : M (bytes * goerror) :=
    '(template, err) <- fetchTemplate ;;
    match err with
    | Some e => ret ([], Some (Wrap (lit "failed to fetch template: ") e))
    | None =>
    '(readmeContent, err) <- observe (os_ReadFile sys targetPath) ;;
    match err with
    | Some e => ret ([], Some (Wrap (lit "failed to read readme: ") e))
    | None =>
    '(updatedContent, err) <- generateUpdatedReadme readmeContent template ;;
    match err with
    | Some e =>
        ret ([], Some (Wrap (lit "failed to generate updated readme: ") e))
    | None =>
    '(dataStreams, err) <- observe (fun w => findDataStreams (fs sys w) pkgPath) ;;
    match err with
    | Some e =>
        ret ([], Some (Wrap (lit "failed to find data streams: ") (OSError e)))
    | None =>
    let updatedContent := applyDataStreamPlaceholders updatedContent dataStreams in
    let (patch, err) := generatePatch targetPath readmeContent updatedContent in
    match err with
    | Some e =>
        ret ([], Some (Wrap (lit "failed to generate patch: ") (OSError e)))
    | None =>
    err <- act (WriteFile targetPath updatedContent 420)
             (os_WriteFile sys targetPath updatedContent 420) ;;
    match err with
    | Some e =>
        ret ([], Some (Wrap (lit "failed to write updated readme: ") e))
    | None => ret (patch, None)
    end end end end end end in
  err <- observe (fun w => os.Stat (fs sys w) targetPath) ;;
  if os.IsNotExist err then
    err <- act (MkdirAll targetDir 493) (os_MkdirAll sys targetDir 493) ;;
    match err with
    | Some e =>
        ret ([], Some (Wrap (fmt.Sprintf (lit "failed to create directory %s: ")
                               [fmt.Str targetDir]) e))
    | None =>
        err <- observe (fun w => os.Stat (fs sys w) sourcePath) ;;
        if os.IsNotExist err then
          ret ([], Some (New (fmt.Sprintf (lit "source README.md not found at %s")
                                [fmt.Str sourcePath])))
        else
          err <- act (Copy sourcePath targetPath)
                   (copy_Copy sys sourcePath targetPath) ;;
          match err with
          | Some e => ret ([], Some (Wrap (lit "failed to copy README.md: ") e))
          | None => update
          end
    end
  else update.

End Program.

Arguments ret {World A}.
Arguments bind {World A B}.
Arguments observe {World A}.
Arguments act {World A}.
Arguments act_ {World}.
Arguments defer {World A}.
Arguments panic {World A}.
Arguments fatal {World A}.

(** [main()] after [flag.Parse]: the three variables hold the values of the
    flags. *)
Definition main {World : Type} (sys : System World)
    (googleAPIKey packagePath : bytes) (verbose : bool) : M World unit :=
  bind
    (if bytes_eqb googleAPIKey [] then
       bind (observe (os_Getenv sys (lit "GOOGLE_API_KEY")))
         (fun googleAPIKey =>
            if bytes_eqb googleAPIKey [] then
              fatal
                (lit "Google API key is required. Set it using the -api-key flag or GOOGLE_API_KEY environment variable")
                None
            else ret googleAPIKey)
     else ret googleAPIKey)
    (fun googleAPIKey =>
       bind (processPackage World sys googleAPIKey verbose packagePath)
         (fun r =>
            let (patch, err) := r in
            match err with
            | Some e => fatal (lit "Error processing package: ") (Some e)
            | None => act_ (Println patch) (fmt_Println sys patch)
            end)).

(** ** Vocabulary of the further properties *)

Definition isBodyClose (c : call) : bool :=
  match c with BodyClose _ => true | _ => false end.

(** What the program finds at the first part of the first candidate of a
    response. *)
Inductive reply : Type :=
  | NoCandidate
  | NilContent
  | NoPart
  | TextPart (text : bytes)
  | OtherKind.

Definition firstPart (resp : genai.GenerateContentResponse) : reply :=
  match genai.Candidates resp with
  | [] => NoCandidate
  | candidate :: _ =>
      match genai.Content candidate with
      | None => NilContent
      | Some content =>
          match genai.Parts content with
          | [] => NoPart
          | genai.Text text :: _ => TextPart text
          | genai.OtherPart :: _ => OtherKind
          end
      end
  end.

Definition theModel (client : nat) : genai.GenerativeModel :=
  {| genai.Client := client; genai.Name := modelName;
     genai.SafetySettings := safetySettings |}.

Definition isClientClose (c : call) : bool :=
  match c with ClientClose _ => true | _ => false end.

Definition promptIntro : bytes :=
  match strings.Cut systemPrompt (lit "# Original README content:") with
  | Some (before, _) => before
  | None => []
  end.

Definition targetDir (pkgPath : bytes) : bytes :=
  filepath.Join [pkgPath; lit "_dev"; lit "build"; lit "docs"].
Definition targetPath (pkgPath : bytes) : bytes :=
  filepath.Join [targetDir pkgPath; lit "readme.md"].
Definition sourcePath (pkgPath : bytes) : bytes :=
  filepath.Join [pkgPath; lit "docs"; lit "README.md"].

Definition isWriteFile (c : call) : bool :=
  match c with WriteFile _ _ _ => true | _ => false end.

Definition prepares (c : call) : bool :=
  match c with MkdirAll _ _ | Copy _ _ => true | _ => false end.

Definition isListModels (c : call) : bool :=
  match c with ListModels _ => true | _ => false end.

Definition isOutput (c : call) : bool :=
  match c with Println _ | Fatal _ _ => true | _ => false end.

(** A plain name: not empty, without separator, and neither [.] nor
    [..]. *)
Definition plainName (name : bytes) : Prop :=
  name <> [] /\ ~ In "/"%char name /\ name <> lit "." /\ name <> lit "..".

(** A hunk: the range line, then the lines of the hunk. *)
Definition hunk (ranges body : bytes) : bytes :=
  lit "@@ -" ++ ranges ++ lit " @@" ++ [LF] ++ body.

(** The two file lines of the patch for [filePath]. *)
Definition fileLines (filePath : bytes) : bytes :=
  lit "--- a/" ++ filepath.Base filePath ++ [LF] ++
  lit "+++ b/" ++ filepath.Base filePath ++ [LF].

(** ** A sample system *)

(** The files of a sample world: paths and contents, the last written
    first. *)
Definition sampleWorld : Type := list (bytes * bytes).

Definition readFile (w : sampleWorld) (name : bytes) : option bytes :=
  option_map snd (find (fun f => bytes_eqb (fst f) name) w).

(** A system that holds files and no directory listing; every variable of
    the environment reads [env], every request is answered with the status
    line [status] and the body [body], every generation with [reply]. *)
Definition sampleSystem (env : bytes) (status : nat) (statusLine body : bytes)
    (reply : genai.GenerateContentResponse) : System sampleWorld :=
  {| fs := fun w =>
       {| os.Stat := fun name =>
            match readFile w name with
            | Some _ => None
            | None => Some os.ErrNotExist
            end;
          os.ReadDir := fun _ => ([], Some os.ErrNotExist) |};
     os_ReadFile := fun name w =>
       match readFile w name with
       | Some data => (data, None)
       | None => ([], Some (OSError os.ErrNotExist))
       end;
     os_Getenv := fun _ _ => env;
     os_MkdirAll := fun _ _ w => (None, w);
     copy_Copy := fun src dest w =>
       match readFile w src with
       | Some data => (None, (dest, data) :: w)
       | None => (Some (OSError os.ErrNotExist), w)
       end;
     os_WriteFile := fun name data _ w => (None, (name, data) :: w);
     http_Get := fun _ w =>
       (({| http.StatusCode := status; http.Status := statusLine;
            http.Body := 1 |}, None), w);
     io_ReadAll := fun _ w => ((body, None), w);
     Body_Close := fun _ w => w;
     genai_NewClient := fun _ w => ((1, None), w);
     Client_ListModels := fun _ w => w;
     Client_Close := fun _ w => w;
     fmt_Println := fun _ w => w;
     Model_GenerateContent := fun _ _ w => ((reply, None), w) |}.

Definition textReply (text : bytes) : genai.GenerateContentResponse :=
  {| genai.Candidates :=
       [{| genai.Content := Some {| genai.Parts := [genai.Text text] |} |}] |}.

Definition okSystem : System sampleWorld :=
  sampleSystem [] 200 (lit "200 OK") (lit "# {{title}}")
    (textReply (lit "# New")).

Definition withTarget : sampleWorld :=
  [(lit "pkg/_dev/build/docs/readme.md", lit "# Old")].

Definition withSource : sampleWorld :=
  [(lit "pkg/docs/README.md", lit "# Old")].

Definition samplePatch : bytes :=
  lit "--- a/readme.md" ++ [LF] ++ lit "+++ b/readme.md" ++ [LF] ++
  lit "@@ -1 +1 @@" ++ [LF] ++ lit "-# Old+# New".

(** * Properties *)

(** ** The library models on documented inputs *)

Example Split_documented :
  strings.Split (lit "a man a plan a canal panama") (lit "a ")
  = [[]; lit "man "; lit "plan "; lit "canal panama"] /\
  strings.Split (lit "a,b,c") (lit ",") = [lit "a"; lit "b"; lit "c"] /\
  strings.Split [] (lit ",") = [[]].
Proof. repeat split; reflexivity. Qed.

Example Base_documented :
  filepath.Base (lit "/foo/bar/baz.js") = lit "baz.js" /\
  filepath.Base (lit "/foo/bar/baz/") = lit "baz" /\
  filepath.Base (lit "dev.txt") = lit "dev.txt" /\
  filepath.Base [] = lit "." /\
  filepath.Base (lit "/") = lit "/".
Proof. repeat split; reflexivity. Qed.

Example Join_documented :
  filepath.Join [lit "a"; lit "b"; lit "c"] = lit "a/b/c" /\
  filepath.Join [lit "a/b"; lit "/c"] = lit "a/b/c" /\
  filepath.Join [lit "a/b"; lit "../../../xyz"] = lit "../xyz" /\
  filepath.Join [lit "."; lit "data_stream"] = lit "data_stream".
Proof. repeat split; reflexivity. Qed.

(** [$0] and [${0}] stand for the match, [$1x] names a group that does not
    exist, [$$] is a dollar sign, and so is a [$] no name follows. *)
Example expand_documented :
  regexp.expand (lit "$0-$1x-${0}-$$-$") (lit "M") = lit "M--M-$-$".
Proof. reflexivity. Qed.

Example formatRangeUnified_documented :
  difflib.formatRangeUnified 3 3 = lit "3,0" /\
  difflib.formatRangeUnified 3 4 = lit "4" /\
  difflib.formatRangeUnified 3 9 = lit "4,6".
Proof. repeat split; reflexivity. Qed.

(** The lines come from [strings.Split] without their line feeds and
    [WriteUnifiedDiff] adds none, so the lines of a hunk follow one another
    on one line. *)
Example generatePatch_one_line_changed :
  generatePatch (lit "docs/readme.md")
    (lit "a" ++ [LF] ++ lit "b" ++ [LF] ++ lit "c")
    (lit "a" ++ [LF] ++ lit "x" ++ [LF] ++ lit "c")
  = (lit "--- a/readme.md" ++ [LF] ++ lit "+++ b/readme.md" ++ [LF] ++
     lit "@@ -1,3 +1,3 @@" ++ [LF] ++ lit " a-b+x c", None).
Proof. vm_compute. reflexivity. Qed.

(** ** Bytes *)

Lemma bytes_eqb_eq (a b : bytes) : bytes_eqb a b = true <-> a = b.
Proof.
  unfold bytes_eqb. destruct (list_eq_dec ascii_dec a b); split; congruence.
Qed.

Lemma bytes_eqb_refl (a : bytes) : bytes_eqb a a = true.
Proof. now apply bytes_eqb_eq. Qed.

Lemma bytes_eqb_neq (a b : bytes) : bytes_eqb a b = false <-> a <> b.
Proof.
  unfold bytes_eqb. destruct (list_eq_dec ascii_dec a b); split; congruence.
Qed.

(** ** [strings] *)

Lemma strip_app (sep rest : bytes) : strings.strip sep (sep ++ rest) = Some rest.
Proof.
  induction sep as [|c sep IH]; simpl; [reflexivity|].
  now rewrite Ascii.eqb_refl.
Qed.

Lemma strip_Some (sep s rest : bytes) :
  strings.strip sep s = Some rest -> s = sep ++ rest.
Proof.
  revert s. induction sep as [|c sep IH]; simpl; intros s H.
  - congruence.
  - destruct s as [|x s]; [discriminate|].
    destruct (Ascii.eqb c x) eqn:E; [|discriminate].
    apply Ascii.eqb_eq in E. subst x. f_equal. now apply IH.
Qed.

Lemma Cut_Some (s sep before after : bytes) :
  strings.Cut s sep = Some (before, after) -> s = before ++ sep ++ after.
Proof.
  revert before. induction s as [|x s IH]; intros before; simpl.
  - destruct (strings.strip sep []) eqn:E; [|discriminate].
    intros [= <- <-]. now apply strip_Some in E.
  - destruct (strings.strip sep (x :: s)) eqn:E.
    + intros [= <- <-]. now apply strip_Some in E.
    + destruct (strings.Cut s sep) as [[b a]|] eqn:C; [|discriminate].
      intros [= <- <-]. simpl. f_equal. now apply IH.
Qed.

Lemma Cut_after_length (s sep before after : bytes) :
  strings.Cut s sep = Some (before, after) ->
  length after + length sep <= length s.
Proof.
  intros H. apply Cut_Some in H. subst s. rewrite !length_app. lia.
Qed.

(** A character that is absent cannot be cut at. *)
Lemma Cut_absent (s : bytes) (c : ascii) :
  ~ In c s -> strings.Cut s [c] = None.
Proof.
  induction s as [|x s IH]; intros Hin; simpl; [reflexivity|].
  destruct (Ascii.eqb c x) eqn:E.
  - apply Ascii.eqb_eq in E. subst x. exfalso. apply Hin. now left.
  - rewrite IH; [reflexivity|]. intros H. apply Hin. now right.
Qed.

(** A text in which the separator occurs is cut. *)
Lemma Cut_occurs (sep a b : bytes) : strings.Cut (a ++ sep ++ b) sep <> None.
Proof.
  induction a as [|x a IH].
  - cbn [app]. destruct (sep ++ b) as [|y t] eqn:E.
    + cbn. destruct sep; [discriminate|discriminate].
    + cbn [strings.Cut]. rewrite <- E, strip_app. discriminate.
  - cbn [app strings.Cut].
    destruct (strings.strip sep (x :: a ++ sep ++ b)); [discriminate|].
    destruct (strings.Cut (a ++ sep ++ b) sep) as [[? ?]|];
      [discriminate|contradiction].
Qed.

Lemma Contains_false (s sep a b : bytes) :
  strings.Contains s sep = false -> s <> a ++ sep ++ b.
Proof.
  unfold strings.Contains. intros H ->.
  destruct (strings.Cut (a ++ sep ++ b) sep) eqn:E; [discriminate|].
  now apply Cut_occurs in E.
Qed.

Lemma Contains_false_In (s : bytes) (c : ascii) :
  strings.Contains s [c] = false -> ~ In c s.
Proof.
  intros H Hin. apply in_split in Hin as (a & b & ->).
  now apply (Contains_false _ _ a b) in H.
Qed.

(** Enough rounds: on a non-empty separator the loop of [genSplit] has
    ended before its bound, so a larger bound gives the same parts. *)
Lemma genSplit_fuel (sep : bytes) (n m : nat) (s : bytes) :
  sep <> [] -> length s <= n -> length s <= m ->
  strings.genSplit n s sep = strings.genSplit m s sep.
Proof.
  intros Hsep. revert m s.
  induction n as [|n IH]; intros m s Hn Hm.
  - destruct s; [|simpl in Hn; lia].
    destruct m; simpl; [reflexivity|].
    destruct sep as [|c sep]; [congruence|]. reflexivity.
  - destruct m as [|m].
    + destruct s; [|simpl in Hm; lia]. simpl.
      destruct sep as [|c sep]; [congruence|]. reflexivity.
    + simpl. destruct (strings.Cut s sep) as [[b a]|] eqn:C; [|reflexivity].
      f_equal. apply Cut_after_length in C.
      assert (0 < length sep) by (destruct sep; [congruence|simpl; lia]).
      apply IH; lia.
Qed.

(** [strings.Split] unfolds as the loop of the Go function reads. *)
Lemma Split_unfold (s sep : bytes) :
  sep <> [] ->
  strings.Split s sep =
  match strings.Cut s sep with
  | None => [s]
  | Some (before, after) => before :: strings.Split after sep
  end.
Proof.
  intros Hsep. unfold strings.Split.
  destruct s as [|x s].
  - simpl. destruct sep as [|c sep]; [congruence|]. reflexivity.
  - change (strings.genSplit (length (x :: s)) (x :: s) sep)
      with (match strings.Cut (x :: s) sep with
            | None => [x :: s]
            | Some (before, after) => before :: strings.genSplit (length s) after sep
            end).
    destruct (strings.Cut (x :: s) sep) as [[b a]|] eqn:C; [|reflexivity].
    f_equal. apply Cut_after_length in C.
    assert (0 < length sep) by (destruct sep; [congruence|simpl; lia]).
    apply genSplit_fuel; simpl in *; [assumption|lia|lia].
Qed.

(** [strings.Split] returns at least one part. *)
Lemma Split_nonempty (s sep : bytes) : strings.Split s sep <> [].
Proof.
  unfold strings.Split. destruct (length s); simpl; [discriminate|].
  destruct (strings.Cut s sep) as [[? ?]|]; discriminate.
Qed.

(** Exactly two parts: the separator occurs, and not again after its first
    instance. *)
Lemma Split_two (s sep a b : bytes) :
  sep <> [] ->
  strings.Split s sep = [a; b] <->
  strings.Cut s sep = Some (a, b) /\ strings.Cut b sep = None.
Proof.
  intros Hsep. rewrite Split_unfold by assumption.
  destruct (strings.Cut s sep) as [[b0 a0]|] eqn:C.
  - rewrite Split_unfold by assumption.
    destruct (strings.Cut a0 sep) as [[b1 a1]|] eqn:C1.
    + split.
      * intros H. injection H as _ _ H. now apply Split_nonempty in H.
      * intros [[= -> ->] H]. congruence.
    + split.
      * intros [= -> ->]. now split.
      * intros [[= -> ->] _]. reflexivity.
  - split; [discriminate|]. intros [H _]. discriminate.
Qed.

(** ** [fmt.Sprintf] on the formats of the program *)

Lemma Sprintf_fieldsFormat (e : bytes) :
  fmt.Sprintf fieldsFormat [fmt.Str e] = placeholder fieldsKind e.
Proof. reflexivity. Qed.

Lemma Sprintf_eventFormat (e : bytes) :
  fmt.Sprintf eventFormat [fmt.Str e] = placeholder eventKind e.
Proof. reflexivity. Qed.

Lemma Sprintf_fieldsBlockFormat (e : bytes) :
  fmt.Sprintf fieldsBlockFormat [fmt.Str e; fmt.Str e] = subBlock fieldsKind e.
Proof.
  unfold subBlock, entityHeading. cbn. rewrite <- app_assoc. reflexivity.
Qed.

Lemma Sprintf_eventBlockFormat (e : bytes) :
  fmt.Sprintf eventBlockFormat [fmt.Str e; fmt.Str e] = subBlock eventKind e.
Proof.
  unfold subBlock, entityHeading. cbn. rewrite <- app_assoc. reflexivity.
Qed.

(** The loop that writes one sub-block per entity appends the sub-blocks in
    the order of the entities. *)
Lemma write_blocks (format : bytes) (kind : bytes) (ds : list bytes)
    (result : strings.Builder) :
  (forall e, fmt.Sprintf format [fmt.Str e; fmt.Str e] = subBlock kind e) ->
  fold_left
    (fun result ds => strings.WriteString result
                        (fmt.Sprintf format [fmt.Str ds; fmt.Str ds]))
    ds result
  = result ++ concat (map (subBlock kind) ds).
Proof.
  intros Hf. revert result.
  induction ds as [|d ds IH]; intros result; simpl.
  - now rewrite app_nil_r.
  - rewrite IH, Hf. unfold strings.WriteString. now rewrite <- app_assoc.
Qed.

(** ** The branches of [applyDataStreamPlaceholders] *)

Lemma apply_single (content e : bytes) :
  applyDataStreamPlaceholders content [e] = singleEntityRewrite content e.
Proof. reflexivity. Qed.

Lemma apply_multi (content : bytes) (ds : list bytes) :
  2 <= length ds ->
  applyDataStreamPlaceholders content ds =
  let sections := strings.Split content ecsHeader in
  let sections :=
    if negb (length sections =? 2)
    then strings.Split content sampleHeader else sections in
  if negb (length sections =? 2)
  then singleEntityRewrite content (nth 0 ds [])
  else
    nth 0 sections [] ++ (ecsHeader ++ [LF; LF]) ++
    concat (map (subBlock fieldsKind) ds) ++
    (let eventSections := strings.Split (nth 1 sections []) sampleHeader in
     if length eventSections =? 2
     then (sampleHeader ++ [LF; LF]) ++
          concat (map (subBlock eventKind) ds) ++ nth 1 eventSections []
     else nth 1 sections []).
Proof.
  intros Hlen.
  destruct ds as [|a [|b ds]]; simpl in Hlen; try lia.
  unfold applyDataStreamPlaceholders.
  change (length (a :: b :: ds) =? 0) with false.
  change (length (a :: b :: ds) =? 1) with false.
  cbv iota zeta.
  set (sections := if negb (length (strings.Split content ecsHeader) =? 2)
                   then strings.Split content sampleHeader
                   else strings.Split content ecsHeader).
  destruct (negb (length sections =? 2)); [reflexivity|].
  unfold strings.String.
  rewrite (write_blocks fieldsBlockFormat fieldsKind) by apply Sprintf_fieldsBlockFormat.
  destruct (length (strings.Split (nth 1 sections []) sampleHeader) =? 2).
  - rewrite (write_blocks eventBlockFormat eventKind) by apply Sprintf_eventBlockFormat.
    unfold strings.WriteString, strings.NewBuilder.
    rewrite app_nil_l, <- !app_assoc. reflexivity.
  - unfold strings.WriteString, strings.NewBuilder.
    rewrite app_nil_l, <- !app_assoc. reflexivity.
Qed.

(** ** [regexp]: matching *)

Lemma match_lits (l : bytes) (re : regexp.Regexp) (s : bytes) :
  regexp.match_here (map regexp.Lit l ++ re) s =
  match strings.strip l s with
  | Some s' => regexp.match_here re s'
  | None => None
  end.
Proof.
  revert s. induction l as [|c l IH]; intros s; simpl; [reflexivity|].
  destruct s as [|x s]; [reflexivity|].
  destruct (Ascii.eqb c x); [apply IH|reflexivity].
Qed.

Lemma match_lits_end (l s : bytes) :
  regexp.match_here (map regexp.Lit l) s = strings.strip l s.
Proof.
  rewrite <- (app_nil_r (map regexp.Lit l)), match_lits.
  now destruct (strings.strip l s).
Qed.

(** What the greedy loop accepts was cut into white space and a rest the
    continuation accepts. *)
Lemma spaces_then_Some (k : bytes -> option bytes) (s r : bytes) :
  regexp.spaces_then k s = Some r ->
  exists ws s', whitespace ws /\ s = ws ++ s' /\ k s' = Some r.
Proof.
  revert r. induction s as [|x s IH]; simpl; intros r H.
  - exists [], []. now repeat split.
  - destruct (regexp.is_space x) eqn:Hx.
    + destruct (regexp.spaces_then k s) as [r'|] eqn:E.
      * injection H as ->.
        destruct (IH _ eq_refl) as (ws & s' & Hws & -> & Hk).
        exists (x :: ws), s'. repeat split; [|assumption].
        unfold whitespace. simpl. now rewrite Hx.
      * exists [], (x :: s). now repeat split.
    + exists [], (x :: s). now repeat split.
Qed.

(** After white space that ends at a byte that is not white space, the
    greedy loop hands over exactly there, when the continuation rejects
    white space. *)
Lemma spaces_then_run (k : bytes -> option bytes) (ws : bytes) (q : ascii) (s : bytes) :
  (forall x t, regexp.is_space x = true -> k (x :: t) = None) ->
  whitespace ws -> regexp.is_space q = false ->
  regexp.spaces_then k (ws ++ q :: s) = k (q :: s).
Proof.
  intros Hk Hws Hq. induction ws as [|x ws IH]; simpl.
  - now rewrite Hq.
  - unfold whitespace in Hws. simpl in Hws. apply andb_true_iff in Hws as [Hx Hws].
    rewrite Hx, (IH Hws).
    destruct (k (q :: s)); [reflexivity|]. now apply Hk.
Qed.

Lemma DQ_not_space : regexp.is_space DQ = false.
Proof. reflexivity. Qed.

(** The matches of the pattern: the opening braces and the keyword, at
    least one byte of white space, the quoted name and the closing
    braces. *)
Lemma match_placeholderPattern (kind name s r : bytes) :
  regexp.match_here (placeholderPattern kind name) s = Some r <->
  exists ws, ws <> [] /\ whitespace ws /\
    s = (lit "{{" ++ kind) ++ ws ++ (DQ :: name ++ DQ :: lit "}}") ++ r.
Proof.
  unfold placeholderPattern. rewrite match_lits. split.
  - destruct (strings.strip (lit "{{" ++ kind) s) as [s'|] eqn:E; [|discriminate].
    apply strip_Some in E. subst s.
    destruct s' as [|x s']; [discriminate|].
    cbn [regexp.match_here].
    destruct (regexp.is_space x) eqn:Hx; [|discriminate].
    intros H. apply spaces_then_Some in H as (ws & t & Hws & -> & Hk).
    rewrite match_lits_end in Hk. apply strip_Some in Hk. subst t.
    exists (x :: ws). split; [discriminate|]. split; [|reflexivity].
    unfold whitespace. simpl. now rewrite Hx.
  - intros (ws & Hne & Hws & ->). rewrite strip_app.
    destruct ws as [|x ws]; [congruence|].
    unfold whitespace in Hws. simpl in Hws. apply andb_true_iff in Hws as [Hx Hws].
    cbn [regexp.match_here app]. rewrite Hx.
    change ((DQ :: name ++ DQ :: lit "}}") ++ r)
      with (DQ :: (name ++ DQ :: lit "}}") ++ r).
    rewrite spaces_then_run; [| |assumption|apply DQ_not_space].
    + change (DQ :: (name ++ DQ :: lit "}}") ++ r)
        with ((DQ :: name ++ DQ :: lit "}}") ++ r).
      rewrite match_lits_end. apply strip_app.
    + intros y t Hy. cbn [map regexp.match_here].
      destruct (Ascii.eqb DQ y) eqn:E; [|reflexivity].
      apply Ascii.eqb_eq in E. subst y. discriminate.
Qed.

Lemma fieldsPattern_shape : fieldsPattern = placeholderPattern fieldsKind genericName.
Proof. reflexivity. Qed.

Lemma eventPattern_shape : eventPattern = placeholderPattern eventKind genericName.
Proof. reflexivity. Qed.

(** The two expressions are in the fragment [regexp.Compile] reads. *)
Lemma fieldsPattern_compiles :
  regexp.Compile
    (lit "\{\{fields\s+" ++ DQ :: lit "data_stream_name" ++ DQ :: lit "\}\}")
  = Some fieldsPattern.
Proof. reflexivity. Qed.

Lemma eventPattern_compiles :
  regexp.Compile
    (lit "\{\{event\s+" ++ DQ :: lit "data_stream_name" ++ DQ :: lit "\}\}")
  = Some eventPattern.
Proof. reflexivity. Qed.

Lemma genericPlaceholder_app (kind ws r : bytes) :
  genericPlaceholder kind ws ++ r =
  (lit "{{" ++ kind) ++ ws ++ (DQ :: genericName ++ DQ :: lit "}}") ++ r.
Proof.
  unfold genericPlaceholder. now rewrite <- !app_assoc.
Qed.

(** The pattern of a kind matches at [s] exactly when a generic placeholder
    of that kind starts there. *)
Lemma match_generic (kind s r : bytes) :
  regexp.match_here (placeholderPattern kind genericName) s = Some r <->
  exists ws, ws <> [] /\ whitespace ws /\ s = genericPlaceholder kind ws ++ r.
Proof.
  rewrite match_placeholderPattern.
  split; intros (ws & Hne & Hws & ->); exists ws; repeat split; trivial.
  - now rewrite genericPlaceholder_app.
  - now rewrite genericPlaceholder_app.
Qed.

(** ** [regexp]: replacement *)

Lemma placeholderPattern_nonempty (kind name : bytes) :
  nonempty_matches (placeholderPattern kind name).
Proof.
  intros s r H. apply match_placeholderPattern in H as (ws & _ & _ & ->).
  rewrite !length_app. simpl. lia.
Qed.

Lemma find_match (re : regexp.Regexp) (s rest : bytes) :
  regexp.match_here re s = Some rest ->
  regexp.find re s = Some ([], firstn (length s - length rest) s, rest).
Proof.
  intros H. destruct s; simpl; now rewrite H.
Qed.

Lemma find_nomatch (re : regexp.Regexp) (c : ascii) (s : bytes) :
  regexp.match_here re (c :: s) = None ->
  regexp.find re (c :: s) =
  match regexp.find re s with
  | Some (before, m, after) => Some (c :: before, m, after)
  | None => None
  end.
Proof.
  intros H. simpl. now rewrite H.
Qed.

Lemma find_after_length (re : regexp.Regexp) (s before m after : bytes) :
  nonempty_matches re ->
  regexp.find re s = Some (before, m, after) -> length after < length s.
Proof.
  intros Hne. revert before.
  induction s as [|x s IH]; intros before; simpl.
  - destruct (regexp.match_here re []) eqn:E; [|discriminate].
    intros [= <- <- <-]. now apply Hne in E.
  - destruct (regexp.match_here re (x :: s)) eqn:E.
    + intros [= <- <- <-]. now apply Hne in E.
    + destruct (regexp.find re s) as [[[b m'] a]|] eqn:F; [|discriminate].
      intros [= <- <- <-]. specialize (IH _ eq_refl). simpl. lia.
Qed.

(** Enough rounds: every round of [replaceAll] shortens the text left, so
    a larger bound gives the same result. *)
Lemma replaceAll_fuel (re : regexp.Regexp) (repl : bytes) (n m : nat) (src : bytes) :
  nonempty_matches re -> length src <= n -> length src <= m ->
  regexp.replaceAll n re src repl = regexp.replaceAll m re src repl.
Proof.
  intros Hne. revert m src.
  induction n as [|n IH]; intros m src Hn Hm.
  - destruct src; [|simpl in Hn; lia].
    destruct m; simpl; [reflexivity|].
    destruct (regexp.match_here re []) eqn:E; [|reflexivity].
    apply Hne in E. simpl in E. lia.
  - destruct m as [|m].
    + destruct src; [|simpl in Hm; lia]. simpl.
      destruct (regexp.match_here re []) eqn:E; [|reflexivity].
      apply Hne in E. simpl in E. lia.
    + simpl. destruct (regexp.find re src) as [[[b mt] a]|] eqn:F; [|reflexivity].
      apply (find_after_length _ _ _ _ _ Hne) in F.
      do 2 f_equal. apply IH; lia.
Qed.

Lemma ReplaceAllString_unfold (re : regexp.Regexp) (src repl : bytes) :
  nonempty_matches re ->
  regexp.ReplaceAllString re src repl =
  match regexp.find re src with
  | None => src
  | Some (before, m, after) =>
      before ++ regexp.expand repl m ++ regexp.ReplaceAllString re after repl
  end.
Proof.
  intros Hne. unfold regexp.ReplaceAllString.
  destruct src as [|x src].
  - simpl. destruct (regexp.match_here re []) eqn:E; [|reflexivity].
    apply Hne in E. simpl in E. lia.
  - change (regexp.replaceAll (length (x :: src)) re (x :: src) repl)
      with (match regexp.find re (x :: src) with
            | None => x :: src
            | Some (before, m, after) =>
                before ++ regexp.expand repl m ++
                regexp.replaceAll (length src) re after repl
            end).
    destruct (regexp.find re (x :: src)) as [[[b m] a]|] eqn:F; [|reflexivity].
    apply (find_after_length _ _ _ _ _ Hne) in F.
    do 2 f_equal. apply replaceAll_fuel; simpl in *; [assumption|lia|lia].
Qed.

Lemma ReplaceAllString_nil (re : regexp.Regexp) (repl : bytes) :
  regexp.ReplaceAllString re [] repl = [].
Proof. reflexivity. Qed.

(** A match at the head is replaced, and the search goes on after it. *)
Lemma ReplaceAllString_match (re : regexp.Regexp) (m rest repl : bytes) :
  nonempty_matches re ->
  regexp.match_here re (m ++ rest) = Some rest ->
  regexp.ReplaceAllString re (m ++ rest) repl =
  regexp.expand repl m ++ regexp.ReplaceAllString re rest repl.
Proof.
  intros Hne H. rewrite ReplaceAllString_unfold by assumption.
  rewrite (find_match _ _ _ H).
  replace (length (m ++ rest) - length rest) with (length m)
    by (rewrite length_app; lia).
  rewrite firstn_app, firstn_all, Nat.sub_diag. simpl.
  now rewrite app_nil_r.
Qed.

(** A byte at which the pattern does not match is copied. *)
Lemma ReplaceAllString_copy (re : regexp.Regexp) (c : ascii) (s repl : bytes) :
  nonempty_matches re ->
  regexp.match_here re (c :: s) = None ->
  regexp.ReplaceAllString re (c :: s) repl =
  c :: regexp.ReplaceAllString re s repl.
Proof.
  intros Hne H. rewrite ReplaceAllString_unfold by assumption.
  rewrite (find_nomatch _ _ _ H).
  rewrite (ReplaceAllString_unfold re s) by assumption.
  now destruct (regexp.find re s) as [[[b m] a]|].
Qed.

(** A template without [$] is inserted as it is. *)
Lemma expand_literal (template matched : bytes) :
  ~ In "$"%char template -> regexp.expand template matched = template.
Proof.
  intros H. unfold regexp.expand.
  destruct template as [|c t]; [reflexivity|].
  cbn [length regexp.expand_loop].
  change (lit "$") with ["$"%char]. now rewrite Cut_absent.
Qed.

(** ** Braces shield a token from the other pattern *)

Lemma placeholder_shape (kind e : bytes) :
  placeholder kind e = LB :: LB :: kind ++ lit " " ++ DQ :: e ++ DQ :: lit "}}".
Proof. reflexivity. Qed.

Lemma genericPlaceholder_shape (kind ws : bytes) :
  genericPlaceholder kind ws =
  LB :: LB :: kind ++ ws ++ DQ :: genericName ++ DQ :: lit "}}".
Proof. reflexivity. Qed.

Lemma isKind_nobrace (kind : bytes) : isKind kind -> ~ In LB kind.
Proof.
  intros [-> | ->]; cbv; intuition discriminate.
Qed.

Lemma isKind_nodollar (kind : bytes) : isKind kind -> ~ In "$"%char kind.
Proof.
  intros [-> | ->]; cbv; intuition discriminate.
Qed.

Lemma whitespace_nobrace (ws : bytes) : whitespace ws -> ~ In LB ws.
Proof.
  intros Hws Hin. unfold whitespace in Hws.
  rewrite forallb_forall in Hws. apply Hws in Hin. discriminate.
Qed.

Lemma generic_body_nobrace (kind ws : bytes) :
  isKind kind -> whitespace ws ->
  ~ In LB (kind ++ ws ++ DQ :: genericName ++ DQ :: lit "}}").
Proof.
  intros Hk Hws Hin. apply in_app_iff in Hin as [Hin|Hin].
  - now apply (isKind_nobrace kind).
  - apply in_app_iff in Hin as [Hin|Hin].
    + now apply (whitespace_nobrace ws).
    + cbv in Hin. intuition discriminate.
Qed.

Lemma placeholder_nodollar (kind e : bytes) :
  isKind kind -> ~ In "$"%char e -> ~ In "$"%char (placeholder kind e).
Proof.
  intros Hk He Hin. rewrite placeholder_shape in Hin.
  destruct Hin as [Hin|[Hin|Hin]]; try discriminate.
  apply in_app_iff in Hin as [Hin|Hin]; [now apply (isKind_nodollar kind)|].
  cbn in Hin. destruct Hin as [Hin|[Hin|Hin]]; try discriminate.
  apply in_app_iff in Hin as [Hin|Hin]; [now apply He|].
  cbv in Hin. intuition discriminate.
Qed.

(** A match starts with two opening braces and the keyword. *)
Lemma match_head (kind name s r : bytes) :
  regexp.match_here (placeholderPattern kind name) s = Some r ->
  exists t, s = LB :: LB :: kind ++ t.
Proof.
  intros H. apply match_placeholderPattern in H as (ws & _ & _ & ->).
  eexists. cbn. rewrite <- app_assoc. reflexivity.
Qed.

Lemma no_match_nobrace (kind name : bytes) (c : ascii) (s : bytes) :
  c <> LB -> regexp.match_here (placeholderPattern kind name) (c :: s) = None.
Proof.
  intros Hc. destruct (regexp.match_here _ _) eqn:E; [|reflexivity].
  apply match_head in E as (t & [= -> _]). congruence.
Qed.

Lemma no_match_one_brace (kind name : bytes) (c : ascii) (s : bytes) :
  c <> LB -> regexp.match_here (placeholderPattern kind name) (LB :: c :: s) = None.
Proof.
  intros Hc. destruct (regexp.match_here _ _) eqn:E; [|reflexivity].
  apply match_head in E as (t & [= -> _]). congruence.
Qed.

(** Text without an opening brace holds no match and is copied. *)
Lemma ReplaceAllString_skip_nobrace (kind name a y repl : bytes) :
  ~ In LB a ->
  regexp.ReplaceAllString (placeholderPattern kind name) (a ++ y) repl =
  a ++ regexp.ReplaceAllString (placeholderPattern kind name) y repl.
Proof.
  induction a as [|x a IH]; intros Hin; [reflexivity|].
  cbn [app]. rewrite ReplaceAllString_copy.
  - f_equal. apply IH. intros H. apply Hin. now right.
  - apply placeholderPattern_nonempty.
  - apply no_match_nobrace. intros ->. apply Hin. now left.
Qed.

(** A token in braces at which the pattern does not match, and whose body
    has no opening brace, is copied as a whole. *)
Lemma ReplaceAllString_skip_block (kind name t y repl : bytes) :
  regexp.match_here (placeholderPattern kind name) (LB :: LB :: t ++ y) = None ->
  t <> [] -> ~ In LB t ->
  regexp.ReplaceAllString (placeholderPattern kind name) (LB :: LB :: t ++ y) repl =
  LB :: LB :: t ++ regexp.ReplaceAllString (placeholderPattern kind name) y repl.
Proof.
  intros Hno Hne Hin.
  rewrite ReplaceAllString_copy;
    [|apply placeholderPattern_nonempty|assumption].
  f_equal. rewrite ReplaceAllString_copy; [|apply placeholderPattern_nonempty|].
  - f_equal. now apply ReplaceAllString_skip_nobrace.
  - destruct t as [|x t]; [congruence|]. cbn [app].
    apply no_match_one_brace. intros ->. apply Hin. now left.
Qed.

Lemma ReplaceAllString_skip_token (kind name tok t y repl : bytes) :
  tok = LB :: LB :: t -> t <> [] -> ~ In LB t ->
  regexp.match_here (placeholderPattern kind name) (tok ++ y) = None ->
  regexp.ReplaceAllString (placeholderPattern kind name) (tok ++ y) repl =
  tok ++ regexp.ReplaceAllString (placeholderPattern kind name) y repl.
Proof.
  intros -> Hne Hin Hno. now apply ReplaceAllString_skip_block.
Qed.

(** If a text without the byte [c] ends, inside another, at a [c], it
    ends before that [c]. *)
Lemma app_eq_absent (c : ascii) (t r b y : bytes) :
  ~ In c t -> b ++ c :: y = t ++ r ->
  exists b', b = t ++ b' /\ r = b' ++ c :: y.
Proof.
  revert b. induction t as [|x t IH]; intros b Hin H.
  - exists b. now split.
  - destruct b as [|z b].
    + cbn in H. injection H as <- _. exfalso. apply Hin. now left.
    + cbn in H. injection H as -> H.
      destruct (IH b) as (b' & -> & ->); [|assumption|].
      * intros Hx. apply Hin. now right.
      * exists b'. now split.
Qed.

(** Whether a generic placeholder starts at the head of a text is decided
    before the next opening brace after the first two bytes. *)
Lemma match_local (kind : bytes) (a0 a1 : ascii) (a y1 y2 : bytes) :
  isKind kind ->
  regexp.match_here (placeholderPattern kind genericName)
    (a0 :: a1 :: a ++ LB :: y1) = None ->
  regexp.match_here (placeholderPattern kind genericName)
    (a0 :: a1 :: a ++ LB :: y2) = None.
Proof.
  intros Hk Hno.
  destruct (regexp.match_here _ (a0 :: a1 :: a ++ LB :: y2)) as [r|] eqn:E;
    [|reflexivity].
  apply match_generic in E as (ws & Hne & Hws & E).
  rewrite genericPlaceholder_shape, <- !app_comm_cons in E.
  injection E as -> -> E.
  apply app_eq_absent in E as (b' & -> & ->);
    [|now apply generic_body_nobrace].
  assert (M : regexp.match_here (placeholderPattern kind genericName)
                (genericPlaceholder kind ws ++ b' ++ LB :: y1)
              = Some (b' ++ LB :: y1)).
  { apply match_generic. now exists ws. }
  rewrite <- app_assoc in Hno. exfalso.
  assert (HH : Some (b' ++ LB :: y1) = None) by (rewrite <- M; exact Hno).
  discriminate.
Qed.

(** ** [regexp]: what a search returns *)

Lemma match_here_suffix (re : regexp.Regexp) (s rest : bytes) :
  regexp.match_here re s = Some rest -> exists m, s = m ++ rest.
Proof.
  revert s. induction re as [|[c|] re IH]; intros s H.
  - injection H as ->. now exists [].
  - destruct s as [|x s]; [discriminate|]. cbn in H.
    destruct (Ascii.eqb c x); [|discriminate].
    destruct (IH _ H) as (m & ->). now exists (x :: m).
  - destruct s as [|x s]; [discriminate|]. cbn in H.
    destruct (regexp.is_space x); [|discriminate].
    apply spaces_then_Some in H as (ws & s' & _ & -> & Hk).
    destruct (IH _ Hk) as (m & ->).
    exists (x :: ws ++ m). cbn. now rewrite <- app_assoc.
Qed.

Lemma match_here_firstn (re : regexp.Regexp) (s rest : bytes) :
  regexp.match_here re s = Some rest ->
  firstn (length s - length rest) s ++ rest = s.
Proof.
  intros H. destruct (match_here_suffix _ _ _ H) as (m & ->).
  replace (length (m ++ rest) - length rest) with (length m)
    by (rewrite length_app; lia).
  rewrite firstn_app, firstn_all, Nat.sub_diag. cbn [firstn].
  now rewrite app_nil_r.
Qed.

Lemma find_Some (re : regexp.Regexp) (s before m after : bytes) :
  regexp.find re s = Some (before, m, after) ->
  s = before ++ m ++ after /\ regexp.match_here re (m ++ after) = Some after.
Proof.
  revert before. induction s as [|x s IH]; intros before H.
  - cbn in H. destruct (regexp.match_here re []) as [r|] eqn:E; [|discriminate].
    injection H as <- <- <-.
    destruct (match_here_suffix _ _ _ E) as (m' & Hm).
    symmetry in Hm. apply app_eq_nil in Hm as [-> ->]. now split.
  - destruct (regexp.match_here re (x :: s)) as [r|] eqn:E.
    + rewrite (find_match _ _ _ E) in H. injection H as <- <- <-.
      pose proof (match_here_firstn _ _ _ E) as F. split.
      * exact (eq_sym F).
      * exact (eq_ind_r (fun z => regexp.match_here re z = Some r) E F).
    + rewrite (find_nomatch _ _ _ E) in H.
      destruct (regexp.find re s) as [[[b m0] a]|] eqn:F; [|discriminate].
      injection H as <- <- <-.
      destruct (IH _ eq_refl) as [-> Hm]. now split.
Qed.

(** ** The two passes of the single-entity rewrite *)

(** The event pass copies a rendered fields placeholder whose name does not
    hold the opener of an event placeholder. *)
Lemma event_pass_skips_name (e1 e2 y repl : bytes) :
  strings.Contains (e1 ++ e2) eventOpener = false ->
  regexp.ReplaceAllString (placeholderPattern eventKind genericName)
    (e2 ++ DQ :: y) repl
  = e2 ++ regexp.ReplaceAllString (placeholderPattern eventKind genericName)
            (DQ :: y) repl.
Proof.
  revert e1. induction e2 as [|x e2 IH]; intros e1 He; [reflexivity|].
  cbn [app]. rewrite ReplaceAllString_copy.
  - f_equal. apply (IH (e1 ++ [x])). now rewrite <- app_assoc.
  - apply placeholderPattern_nonempty.
  - match goal with |- ?m = None => destruct m eqn:E end; [|reflexivity].
    exfalso. apply match_head in E as (t & E).
    change (LB :: LB :: eventKind ++ t) with (eventOpener ++ t) in E.
    change (x :: e2 ++ DQ :: y) with ((x :: e2) ++ DQ :: y) in E.
    apply app_eq_absent in E as (b' & E & _);
      [|cbv; intuition discriminate].
    apply (Contains_false _ _ e1 b') in He. apply He. now rewrite E.
Qed.

Lemma event_pass_skips_fields_placeholder (e y repl : bytes) :
  strings.Contains e eventOpener = false ->
  regexp.ReplaceAllString (placeholderPattern eventKind genericName)
    (placeholder fieldsKind e ++ y) repl
  = placeholder fieldsKind e ++
    regexp.ReplaceAllString (placeholderPattern eventKind genericName) y repl.
Proof.
  intros He.
  assert (S : forall z, placeholder fieldsKind e ++ z
              = LB :: LB :: (lit "fields " ++ [DQ]) ++ e ++ DQ :: lit "}}" ++ z).
  { intros z. unfold placeholder. cbn. now rewrite <- app_assoc. }
  rewrite !S.
  rewrite ReplaceAllString_skip_block.
  - do 3 f_equal.
    rewrite (event_pass_skips_name [] e) by assumption. f_equal.
    apply (ReplaceAllString_skip_nobrace eventKind genericName (DQ :: lit "}}")).
    cbv. intuition discriminate.
  - match goal with |- ?m = None => destruct m eqn:E end; [|reflexivity].
    apply match_head in E as (t' & E). exfalso. clear - E.
    cbn in E. discriminate.
  - discriminate.
  - cbv. intuition discriminate.
Qed.

Lemma isKind_fields : isKind fieldsKind.
Proof. now left. Qed.

Lemma isKind_event : isKind eventKind.
Proof. now right. Qed.

(** The fields pass does not make the event pattern match where neither
    pattern matched before. *)
Lemma event_head_after_fields_pass (e : bytes) (c : ascii) (d : bytes) :
  ~ In "$"%char e ->
  regexp.match_here fieldsPattern (c :: d) = None ->
  regexp.match_here eventPattern (c :: d) = None ->
  regexp.match_here eventPattern
    (c :: regexp.ReplaceAllString fieldsPattern d (placeholder fieldsKind e)) = None.
Proof.
  intros He HF HE. rewrite fieldsPattern_shape in *. rewrite eventPattern_shape in *.
  rewrite ReplaceAllString_unfold by apply placeholderPattern_nonempty.
  destruct (regexp.find _ d) as [[[b m] a]|] eqn:F; [|assumption].
  apply find_Some in F as [-> Hm].
  rewrite expand_literal by (apply placeholder_nodollar; [apply isKind_fields|assumption]).
  apply match_head in Hm as (t & Hm). rewrite Hm in HE.
  rewrite placeholder_shape.
  destruct b as [|b0 b].
  - cbn [app]. destruct (regexp.match_here _ _) eqn:E; [|reflexivity].
    apply match_head in E as (t' & E). exfalso. clear - E.
    cbn in E. discriminate.
  - cbn [app] in *.
    eapply match_local; [apply isKind_event|exact HE].
Qed.

(** The single-entity rewrite replaces every generic placeholder and keeps
    every other byte, for an entity name without [$] and without opening
    brace. *)
Lemma singleEntityRewrite_Rewritten (e : bytes) :
  strings.Contains e eventOpener = false -> ~ In "$"%char e ->
  forall n d, length d <= n -> Rewritten e d (singleEntityRewrite d e).
Proof.
  intros Hb Hd. unfold singleEntityRewrite.
  rewrite Sprintf_fieldsFormat, Sprintf_eventFormat.
  rewrite fieldsPattern_shape, eventPattern_shape.
  pose proof (placeholderPattern_nonempty fieldsKind genericName) as NF.
  pose proof (placeholderPattern_nonempty eventKind genericName) as NE.
  induction n as [|n IH]; intros d Hlen.
  - destruct d; [|simpl in Hlen; lia]. constructor.
  - destruct d as [|c d]; [constructor|].
    destruct (regexp.match_here (placeholderPattern fieldsKind genericName) (c :: d))
      as [rest|] eqn:MF.
    + (* a generic fields placeholder starts here *)
      pose proof MF as MF'.
      apply match_generic in MF' as (ws & Hne & Hws & Hd').
      assert (Hrest : length rest <= n).
      { rewrite Hd', length_app in Hlen. rewrite genericPlaceholder_shape in Hlen.
        simpl in Hlen. lia. }
      rewrite Hd' in *.
      rewrite (ReplaceAllString_match _ _ _ _ NF MF).
      rewrite expand_literal
        by (apply placeholder_nodollar; [apply isKind_fields|assumption]).
      rewrite event_pass_skips_fields_placeholder by assumption.
      apply RW_placeholder; [apply isKind_fields|assumption|assumption|].
      now apply IH.
    + destruct (regexp.match_here (placeholderPattern eventKind genericName) (c :: d))
        as [rest|] eqn:ME.
      * (* a generic event placeholder starts here *)
        pose proof ME as ME'.
        apply match_generic in ME' as (ws & Hne & Hws & Hd').
        assert (Hrest : length rest <= n).
        { rewrite Hd', length_app in Hlen. rewrite genericPlaceholder_shape in Hlen.
          simpl in Hlen. lia. }
        rewrite Hd' in *.
        rewrite (ReplaceAllString_skip_token fieldsKind genericName
                   (genericPlaceholder eventKind ws) _ _ _
                   (genericPlaceholder_shape eventKind ws)).
        -- rewrite ReplaceAllString_match; [|assumption|].
           ++ rewrite expand_literal
                by (apply placeholder_nodollar; [apply isKind_event|assumption]).
              apply RW_placeholder; [apply isKind_event|assumption|assumption|].
              now apply IH.
           ++ apply match_generic. now exists ws.
        -- discriminate.
        -- apply generic_body_nobrace; [apply isKind_event|assumption].
        -- exact MF.
      * (* no generic placeholder starts here *)
        rewrite (ReplaceAllString_copy _ _ _ _ NF MF).
        rewrite ReplaceAllString_copy; [|assumption|].
        -- apply RW_other; [|apply IH; simpl in Hlen; lia].
           intros (kind & ws & rest & [-> | ->] & Hne & Hws & Heq).
           ++ assert (M : regexp.match_here (placeholderPattern fieldsKind genericName)
                            (c :: d) = Some rest).
              { apply match_generic. now exists ws. }
              congruence.
           ++ assert (M : regexp.match_here (placeholderPattern eventKind genericName)
                            (c :: d) = Some rest).
              { apply match_generic. now exists ws. }
              congruence.
        -- rewrite <- eventPattern_shape, <- fieldsPattern_shape.
           apply event_head_after_fields_pass; [assumption| |].
           ++ now rewrite fieldsPattern_shape.
           ++ now rewrite eventPattern_shape.
Qed.

(** ** [Rewritten] determines its result *)

Lemma generic_inj (kind kind' ws ws' rest rest' : bytes) :
  isKind kind -> isKind kind' ->
  ws <> [] -> whitespace ws -> ws' <> [] -> whitespace ws' ->
  genericPlaceholder kind ws ++ rest = genericPlaceholder kind' ws' ++ rest' ->
  kind = kind' /\ rest = rest'.
Proof.
  intros Hk Hk' Hne Hws Hne' Hws' E.
  assert (K : kind = kind').
  { destruct Hk as [-> | ->], Hk' as [-> | ->]; trivial;
      rewrite !genericPlaceholder_shape in E; cbn in E; discriminate. }
  subst kind'. split; [reflexivity|].
  assert (M : regexp.match_here (placeholderPattern kind genericName)
                (genericPlaceholder kind ws ++ rest) = Some rest)
    by (apply match_generic; now exists ws).
  assert (M' : regexp.match_here (placeholderPattern kind genericName)
                 (genericPlaceholder kind ws' ++ rest') = Some rest')
    by (apply match_generic; now exists ws').
  congruence.
Qed.

Lemma Rewritten_functional (e d out1 out2 : bytes) :
  Rewritten e d out1 -> Rewritten e d out2 -> out1 = out2.
Proof.
  intros H1. revert out2.
  induction H1 as [|kind ws rest out Hk Hne Hws H1 IH|c d out Hno H1 IH];
    intros out2 H2.
  - remember [] as s eqn:Hs. destruct H2; trivial; [|discriminate].
    rewrite genericPlaceholder_shape in Hs. discriminate.
  - remember (genericPlaceholder kind ws ++ rest) as s eqn:Hs.
    destruct H2 as [|kind' ws' rest' out' Hk' Hne' Hws' H2|c d' out' Hno' H2].
    + rewrite genericPlaceholder_shape in Hs. discriminate.
    + apply generic_inj in Hs as [-> ->]; trivial.
      f_equal. now apply IH.
    + exfalso. apply Hno'. rewrite Hs. now exists kind, ws, rest.
  - remember (c :: d) as s eqn:Hs.
    destruct H2 as [|kind' ws' rest' out' Hk' Hne' Hws' H2|c' d' out' Hno' H2].
    + discriminate.
    + exfalso. apply Hno. now exists kind', ws', rest'.
    + injection Hs as -> ->. f_equal. now apply IH.
Qed.

(** ** The single-entity rewrite *)

(** C1 (as amended).  For every document [d] and every entity name [e]
    in which neither [$] nor the opener of an event placeholder, the text
    [{{event], occurs: the rewriter, given the entity set [{e}], replaces
    every generic fields placeholder of [d] (the keyword and the quoted
    name separated by white space) by [{{fields "e"}}] and every generic
    event placeholder by [{{event "e"}}], and keeps every other byte; no
    other text has this property. *)
Theorem single_entity_replaces_generic_placeholders (d e : bytes) :
  strings.Contains e (lit "$") = false ->
  strings.Contains e (lit "{{event") = false ->
  Rewritten e d (applyDataStreamPlaceholders d [e]) /\
  (forall out, Rewritten e d out -> out = applyDataStreamPlaceholders d [e]).
Proof.
  intros Hd Hb. apply Contains_false_In in Hd.
  assert (R : Rewritten e d (applyDataStreamPlaceholders d [e])).
  { rewrite apply_single.
    now apply (singleEntityRewrite_Rewritten e Hb Hd (length d)). }
  split; [exact R|].
  intros out H. exact (Rewritten_functional _ _ _ _ H R).
Qed.

Lemma single_entity_replaces_generic_placeholders_witness :
  Rewritten (lit "logs") sampleDocument
    (applyDataStreamPlaceholders sampleDocument [lit "logs"]).
Proof.
  refine (proj1 (single_entity_replaces_generic_placeholders
                   sampleDocument (lit "logs") _ _)).
  - reflexivity.
  - reflexivity.
Defined.

(** C1 (as stated) fails for an entity name that completes a generic event
    placeholder: the event pass rewrites inside the name the fields pass
    has just inserted. *)
Lemma single_entity_rewrites_inside_inserted_name :
  ~ Rewritten bracedName (genericPlaceholder fieldsKind (lit " "))
      (applyDataStreamPlaceholders (genericPlaceholder fieldsKind (lit " "))
         [bracedName]).
Proof.
  intros H.
  assert (R : Rewritten bracedName (genericPlaceholder fieldsKind (lit " ") ++ [])
                (placeholder fieldsKind bracedName ++ [])).
  { apply RW_placeholder;
      [apply isKind_fields|discriminate|reflexivity|constructor]. }
  rewrite app_nil_r in R.
  pose proof (Rewritten_functional _ _ _ _ H R) as E.
  vm_compute in E. discriminate.
Qed.

(** What the rewriter returns there: the name is cut at its quote and an
    event placeholder for it is inserted. *)
Lemma single_entity_braced_name_output :
  applyDataStreamPlaceholders (genericPlaceholder fieldsKind (lit " ")) [bracedName]
  = placeholder fieldsKind (lit "x") ++ placeholder eventKind bracedName.
Proof. vm_compute. reflexivity. Qed.

(** [ReplaceAllString] expands [$] in its replacement: a name with a [$]
    does not reach the output as it is. *)
Lemma single_entity_dollar_name_output :
  applyDataStreamPlaceholders (genericPlaceholder fieldsKind (lit " ")) [lit "a$b"]
  = placeholder fieldsKind (lit "a").
Proof. vm_compute. reflexivity. Qed.

(** ** Which white space the pattern tolerates *)

Lemma whitespace_cons (x : ascii) (ws : bytes) :
  whitespace (x :: ws) <-> regexp.is_space x = true /\ whitespace ws.
Proof.
  unfold whitespace. simpl. apply andb_true_iff.
Qed.

(** Two runs of white space that both end at a double quote are the same
    run. *)
Lemma whitespace_run_inj (ws ws' x x' : bytes) :
  whitespace ws -> whitespace ws' ->
  ws ++ DQ :: x = ws' ++ DQ :: x' -> ws = ws' /\ x = x'.
Proof.
  revert ws'. induction ws as [|c ws IH]; intros ws' Hws Hws' E.
  - destruct ws' as [|c' ws']; cbn in E.
    + injection E as ->. now split.
    + injection E as <- _. apply whitespace_cons in Hws' as [H _]. discriminate.
  - apply whitespace_cons in Hws as [Hc Hws].
    destruct ws' as [|c' ws']; cbn in E.
    + injection E as -> _. discriminate.
    + injection E as -> E. apply whitespace_cons in Hws' as [_ Hws'].
      destruct (IH _ Hws Hws' E) as [-> ->]. now split.
Qed.

(** White space before a text is empty when the whole starts with a byte
    that is not white space. *)
Lemma whitespace_prefix_nil (ws : bytes) (q : ascii) (x y : bytes) :
  whitespace ws -> regexp.is_space q = false ->
  ws ++ x = q :: y -> ws = [].
Proof.
  intros Hws Hq E. destruct ws as [|c ws]; [reflexivity|].
  apply whitespace_cons in Hws as [Hc _]. cbn in E. injection E as -> _.
  congruence.
Qed.

(** A token with white space after the opening braces, inside the quotes
    or before the closing braces is not a generic placeholder, of either
    kind. *)
Lemma spacedToken_not_generic (kind kind' a ws b c d ws' r : bytes) :
  isKind kind -> isKind kind' ->
  whitespace a -> whitespace ws -> whitespace b -> whitespace c -> whitespace d ->
  whitespace ws' ->
  a ++ b ++ c ++ d <> [] ->
  spacedToken kind a ws b c d <> genericPlaceholder kind' ws' ++ r.
Proof.
  intros Hk Hk' Ha Hws Hb Hc Hd Hws' Hne E. apply Hne. clear Hne.
  rewrite genericPlaceholder_app in E. unfold spacedToken in E.
  rewrite <- !app_assoc in E. cbn [lit list_ascii_of_string app] in E.
  injection E as E.
  assert (a = []) as ->.
  { destruct Hk' as [-> | ->];
      apply (whitespace_prefix_nil a _ _ _ Ha) in E; trivial. }
  cbn [app] in E.
  assert (kind = kind').
  { destruct Hk as [-> | ->], Hk' as [-> | ->]; trivial; cbn in E; discriminate. }
  subst kind'. apply app_inv_head in E.
  apply whitespace_run_inj in E as [_ E]; trivial.
  cbn in E.
  assert (b = []) as ->
    by (apply (whitespace_prefix_nil b _ _ _ Hb) in E; trivial).
  cbn [app] in E. injection E as E.
  assert (c = []) as ->
    by (apply (whitespace_prefix_nil c _ _ _ Hc) in E; trivial).
  cbn [app] in E. injection E as E.
  assert (d = []) as ->
    by (apply (whitespace_prefix_nil d _ _ _ Hd) in E; trivial).
  reflexivity.
Qed.

Lemma spacedToken_shape (kind a ws b c d : bytes) :
  spacedToken kind a ws b c d =
  LB :: LB :: a ++ kind ++ ws ++ DQ :: b ++ genericName ++ c ++ DQ :: d ++ lit "}}".
Proof. reflexivity. Qed.

Lemma spacedToken_body_nobrace (kind a ws b c d : bytes) :
  isKind kind ->
  whitespace a -> whitespace ws -> whitespace b -> whitespace c -> whitespace d ->
  ~ In LB (a ++ kind ++ ws ++ DQ :: b ++ genericName ++ c ++ DQ :: d ++ lit "}}").
Proof.
  intros Hk Ha Hws Hb Hc Hd Hin.
  apply in_app_iff in Hin as [Hin|Hin]; [now apply (whitespace_nobrace a)|].
  apply in_app_iff in Hin as [Hin|Hin]; [now apply (isKind_nobrace kind)|].
  apply in_app_iff in Hin as [Hin|Hin]; [now apply (whitespace_nobrace ws)|].
  destruct Hin as [Hin|Hin]; [discriminate|].
  apply in_app_iff in Hin as [Hin|Hin]; [now apply (whitespace_nobrace b)|].
  apply in_app_iff in Hin as [Hin|Hin]; [cbv in Hin; intuition discriminate|].
  apply in_app_iff in Hin as [Hin|Hin]; [now apply (whitespace_nobrace c)|].
  destruct Hin as [Hin|Hin]; [discriminate|].
  apply in_app_iff in Hin as [Hin|Hin]; [now apply (whitespace_nobrace d)|].
  cbv in Hin. intuition discriminate.
Qed.

(** Text without an opening brace holds no match. *)
Lemma find_nobrace (kind name a : bytes) :
  ~ In LB a -> regexp.find (placeholderPattern kind name) a = None.
Proof.
  induction a as [|x a IH]; intros Hin.
  - cbn [regexp.find].
    destruct (regexp.match_here (placeholderPattern kind name) []) eqn:E;
      [|reflexivity].
    apply placeholderPattern_nonempty in E. simpl in E. lia.
  - rewrite find_nomatch.
    + rewrite IH; [reflexivity|]. intros H. apply Hin. now right.
    + apply no_match_nobrace. intros ->. apply Hin. now left.
Qed.

(** A token in braces whose body has no opening brace holds no match
    unless it starts with one. *)
Lemma find_token (kind name tok t : bytes) :
  tok = LB :: LB :: t -> t <> [] -> ~ In LB t ->
  regexp.match_here (placeholderPattern kind name) tok = None ->
  regexp.find (placeholderPattern kind name) tok = None.
Proof.
  intros -> Hne Hin Hno.
  rewrite (find_nomatch _ _ _ Hno). rewrite find_nomatch.
  - now rewrite find_nobrace.
  - destruct t as [|x t]; [congruence|].
    apply no_match_one_brace. intros ->. apply Hin. now left.
Qed.

(** Neither pattern matches anywhere in such a token. *)
Lemma find_spacedToken (kind kind' a ws b c d : bytes) :
  isKind kind -> isKind kind' ->
  whitespace a -> whitespace ws -> whitespace b -> whitespace c -> whitespace d ->
  a ++ b ++ c ++ d <> [] ->
  regexp.find (placeholderPattern kind' genericName)
    (spacedToken kind a ws b c d) = None.
Proof.
  intros Hk Hk' Ha Hws Hb Hc Hd Hne.
  apply (find_token kind' genericName _ _ (spacedToken_shape kind a ws b c d)).
  - destruct a; [|discriminate]. destruct Hk as [-> | ->]; discriminate.
  - now apply spacedToken_body_nobrace.
  - match goal with |- ?x = None => destruct x eqn:E end; [|reflexivity].
    apply match_generic in E as (ws' & Hne' & Hws' & E).
    now apply spacedToken_not_generic in E.
Qed.

(** C10.  The fields pattern and the event pattern match exactly the
    tokens [{{fields "data_stream_name"}}] and [{{event "data_stream_name"}}]
    with one or more bytes of white space between the keyword and the
    quoted name.  A token with white space after the opening braces, inside
    the quotes or before the closing braces is matched by neither pattern,
    and the single-entity rewrite returns it unchanged. *)
Theorem whitespace_only_between_keyword_and_name
    (kind a ws b c d e : bytes) :
  isKind kind ->
  whitespace a -> whitespace ws -> whitespace b -> whitespace c -> whitespace d ->
  a ++ b ++ c ++ d <> [] ->
  (forall s r,
     regexp.match_here fieldsPattern s = Some r <->
     exists ws', ws' <> [] /\ whitespace ws' /\
       s = genericPlaceholder fieldsKind ws' ++ r) /\
  (forall s r,
     regexp.match_here eventPattern s = Some r <->
     exists ws', ws' <> [] /\ whitespace ws' /\
       s = genericPlaceholder eventKind ws' ++ r) /\
  regexp.find fieldsPattern (spacedToken kind a ws b c d) = None /\
  regexp.find eventPattern (spacedToken kind a ws b c d) = None /\
  applyDataStreamPlaceholders (spacedToken kind a ws b c d) [e]
  = spacedToken kind a ws b c d.
Proof.
  intros Hk Ha Hws Hb Hc Hd Hne.
  assert (NF : forall kind', isKind kind' ->
             regexp.find (placeholderPattern kind' genericName)
               (spacedToken kind a ws b c d) = None)
    by (intros; now apply find_spacedToken).
  split; [intros s r; rewrite fieldsPattern_shape; apply match_generic|].
  split; [intros s r; rewrite eventPattern_shape; apply match_generic|].
  split; [rewrite fieldsPattern_shape; apply NF, isKind_fields|].
  split; [rewrite eventPattern_shape; apply NF, isKind_event|].
  rewrite apply_single. unfold singleEntityRewrite.
  rewrite fieldsPattern_shape, eventPattern_shape.
  rewrite (ReplaceAllString_unfold (placeholderPattern fieldsKind genericName))
    by apply placeholderPattern_nonempty.
  rewrite (NF _ isKind_fields).
  rewrite ReplaceAllString_unfold by apply placeholderPattern_nonempty.
  now rewrite (NF _ isKind_event).
Qed.

(** The token [{{ fields "data_stream_name" }}]: white space after the
    opening braces and before the closing ones. *)
Lemma whitespace_only_between_keyword_and_name_witness :
  applyDataStreamPlaceholders
    (spacedToken fieldsKind (lit " ") (lit " ") [] [] (lit " ")) [lit "logs"]
  = lit "{{ fields " ++ DQ :: lit "data_stream_name" ++ DQ :: lit " }}".
Proof.
  apply (whitespace_only_between_keyword_and_name
           fieldsKind (lit " ") (lit " ") [] [] (lit " ") (lit "logs"));
    try reflexivity.
  - apply isKind_fields.
  - discriminate.
Defined.

(** ** Rendered placeholders *)



(** ** The rewriter on zero and on several entities *)

(** C3.  With no entity the rewriter returns the document as it is. *)
Theorem no_entities_identity (d : bytes) :
  applyDataStreamPlaceholders d [] = d.
Proof. reflexivity. Qed.

Lemma Split_not_two (s sep : bytes) :
  length (strings.Split s sep) <> 2 -> (length (strings.Split s sep) =? 2) = false.
Proof. intros H. now apply Nat.eqb_neq. Qed.

Lemma sampleHeader_nonempty : sampleHeader <> [].
Proof. discriminate. Qed.

(** C2.  Several entities, a document that splits in two at
    [### ECS field Reference] and whose second part splits in two at
    [### Sample Event]: the output is the text before the first header, the
    fields header and a blank line, one fields sub-block per entity in
    their order, the sample-event header and a blank line, one event
    sub-block per entity in their order, and the text after the
    sample-event header. *)
Theorem multi_entity_both_sections
    (content pre rest mid tail : bytes) (dataStreams : list bytes) :
  2 <= length dataStreams ->
  strings.Split content ecsHeader = [pre; rest] ->
  strings.Split rest sampleHeader = [mid; tail] ->
  applyDataStreamPlaceholders content dataStreams =
  pre ++ (ecsHeader ++ [LF; LF]) ++
  concat (map (subBlock fieldsKind) dataStreams) ++
  (sampleHeader ++ [LF; LF]) ++
  concat (map (subBlock eventKind) dataStreams) ++ tail.
Proof.
  intros Hlen H1 H2. rewrite apply_multi by assumption. cbv zeta.
  rewrite H1. cbn [length Nat.eqb negb nth]. rewrite H2. reflexivity.
Qed.

Lemma multi_entity_both_sections_witness :
  applyDataStreamPlaceholders
    (lit "intro " ++ ecsHeader ++ lit " old fields " ++ sampleHeader ++ lit " tail")
    [lit "audit"; lit "signin"] =
  lit "intro " ++ (ecsHeader ++ [LF; LF]) ++
  concat (map (subBlock fieldsKind) [lit "audit"; lit "signin"]) ++
  (sampleHeader ++ [LF; LF]) ++
  concat (map (subBlock eventKind) [lit "audit"; lit "signin"]) ++ lit " tail".
Proof.
  apply (multi_entity_both_sections _ (lit "intro ")
           (lit " old fields " ++ sampleHeader ++ lit " tail")
           (lit " old fields ") (lit " tail")).
  - simpl. lia.
  - reflexivity.
  - reflexivity.
Defined.



(** The part after the only instance of a separator does not split at that
    separator again. *)
Lemma Split_rest_single (s sep a b : bytes) :
  sep <> [] -> strings.Split s sep = [a; b] -> strings.Split b sep = [b].
Proof.
  intros Hsep H. apply Split_two in H as [_ H]; [|assumption].
  rewrite Split_unfold by assumption. now rewrite H.
Qed.

(** C6.  Several entities, a first split that gives two parts (at the
    fields header, or else at the sample-event header) and a second part
    that does not split in two at [### Sample Event]: the output is the
    text before the header, the fields header and a blank line, one fields
    sub-block per entity, and the second part as it is, so that the generic
    event placeholders in it stay generic. *)
Theorem multi_entity_remainder_unmodified
    (content pre rest : bytes) (dataStreams : list bytes) :
  2 <= length dataStreams ->
  strings.Split content ecsHeader = [pre; rest] \/
  (length (strings.Split content ecsHeader) <> 2 /\
   strings.Split content sampleHeader = [pre; rest]) ->
  length (strings.Split rest sampleHeader) <> 2 ->
  applyDataStreamPlaceholders content dataStreams =
  pre ++ (ecsHeader ++ [LF; LF]) ++
  concat (map (subBlock fieldsKind) dataStreams) ++ rest.
Proof.
  intros Hlen [H1 | [H1 H2]] H3; rewrite apply_multi by assumption; cbv zeta.
  - rewrite H1. cbn [length Nat.eqb negb nth].
    now rewrite (Split_not_two _ _ H3).
  - rewrite (Split_not_two _ _ H1). cbn [negb].
    rewrite H2. cbn [length Nat.eqb negb nth].
    now rewrite (Split_not_two _ _ H3).
Qed.

Lemma multi_entity_remainder_unmodified_witness :
  applyDataStreamPlaceholders
    (lit "intro " ++ ecsHeader ++ [LF] ++ genericPlaceholder eventKind (lit " "))
    [lit "a"; lit "b"] =
  lit "intro " ++ (ecsHeader ++ [LF; LF]) ++
  concat (map (subBlock fieldsKind) [lit "a"; lit "b"]) ++
  [LF] ++ genericPlaceholder eventKind (lit " ").
Proof.
  apply (multi_entity_remainder_unmodified _ (lit "intro ")
           ([LF] ++ genericPlaceholder eventKind (lit " "))).
  - simpl. lia.
  - left. reflexivity.
  - vm_compute. discriminate.
Defined.

(** When the document was split at the sample-event header, the header
    written is still the fields header, and the sample-event header is
    gone. *)
Lemma fallback_split_writes_fields_header
    (content pre rest : bytes) (dataStreams : list bytes) :
  2 <= length dataStreams ->
  length (strings.Split content ecsHeader) <> 2 ->
  strings.Split content sampleHeader = [pre; rest] ->
  applyDataStreamPlaceholders content dataStreams =
  pre ++ (ecsHeader ++ [LF; LF]) ++
  concat (map (subBlock fieldsKind) dataStreams) ++ rest.
Proof.
  intros Hlen H1 H2. rewrite apply_multi by assumption. cbv zeta.
  rewrite (Split_not_two _ _ H1). cbn [negb].
  rewrite H2. cbn [length Nat.eqb negb nth].
  now rewrite (Split_rest_single _ _ _ _ sampleHeader_nonempty H2).
Qed.

(** C5, at a document with the sample-event header only.  The rewriter
    splits at [### Sample Event] and writes [### ECS field Reference] in
    its place: the output holds the fields header, which the document did
    not, and no longer holds the sample-event header. *)
Theorem fallback_header_not_reemitted :
  strings.Split sampleOnlyDocument ecsHeader = [sampleOnlyDocument] /\
  strings.Split sampleOnlyDocument sampleHeader
    = [lit "# Title" ++ [LF]; [LF] ++ genericPlaceholder eventKind (lit " ") ++ [LF]] /\
  applyDataStreamPlaceholders sampleOnlyDocument [lit "a"; lit "b"] =
    (lit "# Title" ++ [LF]) ++ (ecsHeader ++ [LF; LF]) ++
    subBlock fieldsKind (lit "a") ++ subBlock fieldsKind (lit "b") ++
    [LF] ++ genericPlaceholder eventKind (lit " ") ++ [LF] /\
  strings.Contains sampleOnlyDocument sampleHeader = true /\
  strings.Contains
    (applyDataStreamPlaceholders sampleOnlyDocument [lit "a"; lit "b"])
    sampleHeader = false /\
  strings.Contains
    (applyDataStreamPlaceholders sampleOnlyDocument [lit "a"; lit "b"])
    ecsHeader = true.
Proof. repeat split; vm_compute; reflexivity. Qed.

(** ** Entity discovery *)

Lemma collect_directories (entries : list os.DirEntry) (acc : list bytes) :
  fold_left
    (fun dataStreams entry =>
       if os.IsDir entry then dataStreams ++ [os.Name entry] else dataStreams)
    entries acc
  = acc ++ map os.Name (filter os.IsDir entries).
Proof.
  revert acc. induction entries as [|entry entries IH]; intros acc; simpl.
  - now rewrite app_nil_r.
  - rewrite IH. destruct (os.IsDir entry); [|reflexivity].
    simpl. now rewrite <- app_assoc.
Qed.

(** C8.  When [data_stream] under the base path does not exist, discovery
    returns no entity and no error.  When it exists and its listing
    succeeds, discovery returns the names of the entries that are
    directories, in the order of the listing, and no error. *)
Theorem discovery_absent_or_listed
    (fs : os.FileSystem) (pkgPath : bytes) (entries : list os.DirEntry) :
  let dataStreamPath := filepath.Join [pkgPath; lit "data_stream"] in
  (os.IsNotExist (os.Stat fs dataStreamPath) = true ->
   findDataStreams fs pkgPath = ([], None)) /\
  (os.IsNotExist (os.Stat fs dataStreamPath) = false ->
   os.ReadDir fs dataStreamPath = (entries, None) ->
   findDataStreams fs pkgPath
   = (map os.Name (filter os.IsDir entries), None)).
Proof.
  intros dataStreamPath. unfold findDataStreams. fold dataStreamPath. split.
  - now intros ->.
  - intros -> ->. now rewrite collect_directories.
Qed.

Lemma discovery_absent_or_listed_witness :
  findDataStreams emptyPackage (lit "pkg") = ([], None) /\
  findDataStreams samplePackage (lit "pkg") = ([lit "x"; lit "y"], None).
Proof.
  split.
  - refine (proj1 (discovery_absent_or_listed emptyPackage (lit "pkg") []) _).
    reflexivity.
  - refine (proj2 (discovery_absent_or_listed samplePackage (lit "pkg")
                     sampleEntries) _ _).
    + reflexivity.
    + reflexivity.
Defined.

(** A listing that fails is reported, with its cause. *)
Lemma discovery_listing_fails
    (fs : os.FileSystem) (pkgPath : bytes) (entries : list os.DirEntry)
    (cause : os.error) :
  let dataStreamPath := filepath.Join [pkgPath; lit "data_stream"] in
  os.IsNotExist (os.Stat fs dataStreamPath) = false ->
  os.ReadDir fs dataStreamPath = (entries, Some cause) ->
  findDataStreams fs pkgPath
  = ([], Some (os.Wrapped (lit "failed to read data_stream directory: ") cause)).
Proof.
  intros dataStreamPath. unfold findDataStreams. fold dataStreamPath.
  now intros -> ->.
Qed.

(** ** [difflib]: the positions of a line *)

Lemma bytes_eqb_sym (a b : bytes) : bytes_eqb a b = bytes_eqb b a.
Proof.
  destruct (bytes_eqb a b) eqn:E1, (bytes_eqb b a) eqn:E2; trivial.
  - apply bytes_eqb_eq in E1. apply bytes_eqb_neq in E2. congruence.
  - apply bytes_eqb_eq in E2. apply bytes_eqb_neq in E1. congruence.
Qed.

Lemma combine_snoc {X Y : Type} (a : list X) (b : list Y) (x : X) (y : Y) :
  length a = length b -> combine (a ++ [x]) (b ++ [y]) = combine a b ++ [(x, y)].
Proof.
  revert b. induction a as [|a0 a IH]; intros [|b0 b] H; simpl in *;
    try discriminate; [reflexivity|].
  f_equal. apply IH. now injection H.
Qed.

(** The first loop of [chainB] records, for every line, its positions in
    ascending order. *)
Lemma chainB_fold (l : list bytes) (s : bytes) :
  fold_left
    (fun b2j (e : nat * bytes) =>
       let (i, s) := e in difflib.update b2j s (b2j s ++ [i]))
    (combine (seq 0 (length l)) l) (fun _ => []) s
  = positions l s (length l).
Proof.
  revert s. induction l as [|x l IH] using rev_ind; intros s; [reflexivity|].
  unfold positions.
  rewrite length_app, Nat.add_comm. cbn [length plus].
  rewrite seq_S, combine_snoc by now rewrite length_seq.
  rewrite fold_left_app. cbn [combine fold_left plus].
  unfold difflib.update at 1.
  rewrite filter_app. cbn [filter].
  rewrite app_nth2, Nat.sub_diag by lia. cbn [nth].
  assert (F : filter (fun j => bytes_eqb (nth j (l ++ [x]) []) s) (seq 0 (length l))
              = positions l s (length l)).
  { apply filter_ext_in. intros j Hj. apply in_seq in Hj.
    now rewrite app_nth1 by lia. }
  rewrite F. rewrite (bytes_eqb_sym x s).
  destruct (bytes_eqb s x) eqn:E.
  - apply bytes_eqb_eq in E. subst x. now rewrite IH.
  - now rewrite IH, app_nil_r.
Qed.

Lemma chainB_positions (l : list bytes) (s : bytes) :
  difflib.chainB l s = [] \/ difflib.chainB l s = positions l s (length l).
Proof.
  unfold difflib.chainB. destruct (200 <=? length l).
  - destruct (_ <? _); [now left|right; apply chainB_fold].
  - right. apply chainB_fold.
Qed.

(** A position recorded for a line holds that line. *)
Lemma chainB_In (l : list bytes) (s : bytes) (j : nat) :
  In j (difflib.chainB l s) -> j < length l /\ nth j l [] = s.
Proof.
  destruct (chainB_positions l s) as [-> | ->]; [intros []|].
  unfold positions. intros H. apply filter_In in H as [H1 H2].
  apply in_seq in H1. apply bytes_eqb_eq in H2. split; [lia|assumption].
Qed.

(** The positions recorded for line [i], when its key was kept: those
    before [i], then [i], then those after [i]. *)
Lemma chainB_row (l : list bytes) (i : nat) :
  i < length l ->
  difflib.chainB l (nth i l []) = [] \/
  exists L1 L2,
    difflib.chainB l (nth i l []) = L1 ++ i :: L2 /\
    (forall j, In j L1 -> j < i) /\ (forall j, In j L2 -> i < j).
Proof.
  intros Hi.
  destruct (chainB_positions l (nth i l [])) as [-> | ->]; [now left|right].
  unfold positions.
  replace (length l) with (i + S (length l - S i)) by lia.
  rewrite seq_app, filter_app. cbn [seq filter plus].
  rewrite bytes_eqb_refl.
  eexists _, _. split; [reflexivity|]. split; intros j Hj.
  - apply filter_In in Hj as [Hj _]. apply in_seq in Hj. lia.
  - apply filter_In in Hj as [Hj _]. apply in_seq in Hj. lia.
Qed.

(** ** [difflib]: the longest match of a sequence with itself *)

Lemma scan_row_cons (i n : nat) (j2len : nat -> nat) (j : nat) (js : list nat)
    (besti bestj bestsize : nat) (newj2len : nat -> nat) :
  j < n ->
  difflib.scan_row i 0 n j2len (j :: js) (besti, bestj, bestsize) newj2len =
  difflib.scan_row i 0 n j2len js
    (if bestsize <? difflib.before j2len j + 1
     then (i + 1 - (difflib.before j2len j + 1),
           j + 1 - (difflib.before j2len j + 1),
           difflib.before j2len j + 1)
     else (besti, bestj, bestsize))
    (difflib.update_nat newj2len j (difflib.before j2len j + 1)).
Proof.
  intros Hj. cbn [difflib.scan_row].
  replace (j <? 0) with false by (symmetry; apply Nat.ltb_ge; lia).
  replace (n <=? j) with false by (symmetry; apply Nat.leb_gt; lia).
  reflexivity.
Qed.

Section LongestMatchSelf.

Variable l : list bytes.
Variable b2j : bytes -> list nat.

Hypothesis b2j_In :
  forall s j, In j (b2j s) -> j < length l /\ nth j l [] = s.

Hypothesis b2j_row :
  forall i, i < length l ->
    b2j (nth i l []) = [] \/
    exists L1 L2,
      b2j (nth i l []) = L1 ++ i :: L2 /\
      (forall j, In j L1 -> j < i) /\ (forall j, In j L2 -> i < j).

Lemma keptRun_unfold (i : nat) :
  keptRun b2j l i =
  if kept b2j l i then S (difflib.before (keptRun b2j l) i) else 0.
Proof. destruct i; reflexivity. Qed.

Lemma keptRun_le (i : nat) : keptRun b2j l i <= S i.
Proof.
  induction i as [|i IH]; rewrite keptRun_unfold;
    destruct (kept b2j l _); cbn [difflib.before]; lia.
Qed.

(** The lines at the positions recorded for a line have kept their key. *)
Lemma row_kept (i j : nat) :
  In j (b2j (nth i l [])) -> kept b2j l j = true /\ kept b2j l i = true /\ j < length l.
Proof.
  intros H. destruct (b2j_In _ _ H) as [Hj E].
  unfold kept. rewrite E.
  destruct (b2j (nth i l [])); [destruct H|]. now repeat split.
Qed.

Section Row.

Variable i : nat.
Variable j2len : nat -> nat.

Hypothesis kept_i : kept b2j l i = true.
Hypothesis j2len_row : forall j, j2len j <= difflib.before (keptRun b2j l) i.
Hypothesis j2len_col : forall j, j2len j <= keptRun b2j l j.
Hypothesis j2len_diag :
  difflib.before j2len i = difflib.before (keptRun b2j l) i.

Lemma run_here : keptRun b2j l i = difflib.before j2len i + 1.
Proof. rewrite keptRun_unfold, kept_i, j2len_diag. lia. Qed.

Lemma k_le_row (j : nat) : difflib.before j2len j + 1 <= keptRun b2j l i.
Proof.
  rewrite (keptRun_unfold i), kept_i.
  destruct j as [|j]; cbn [difflib.before]; [lia|].
  specialize (j2len_row j). lia.
Qed.

Lemma k_le_col (j : nat) :
  kept b2j l j = true -> difflib.before j2len j + 1 <= keptRun b2j l j.
Proof.
  intros Hj. rewrite (keptRun_unfold j), Hj.
  destruct j as [|j]; cbn [difflib.before]; [lia|].
  specialize (j2len_col j). lia.
Qed.

(** The positions before the diagonal leave the best match as it is. *)
Lemma scan_row_below (js rest : list nat) (besti bestj bestsize : nat)
    (newj2len : nat -> nat) :
  (forall j, In j js -> j < i /\ j < length l /\ kept b2j l j = true) ->
  (forall i', i' < i -> keptRun b2j l i' <= bestsize) ->
  (forall j, newj2len j <= keptRun b2j l i) ->
  (forall j, newj2len j <= keptRun b2j l j) ->
  exists newj2len',
    difflib.scan_row i 0 (length l) j2len (js ++ rest)
      (besti, bestj, bestsize) newj2len
    = difflib.scan_row i 0 (length l) j2len rest
        (besti, bestj, bestsize) newj2len' /\
    (forall j, newj2len' j <= keptRun b2j l i) /\
    (forall j, newj2len' j <= keptRun b2j l j).
Proof.
  revert newj2len. induction js as [|j js IH]; intros newj2len Hjs Hbest Hr Hc.
  - exists newj2len. now repeat split.
  - destruct (Hjs j (or_introl eq_refl)) as (Hlt & Hn & Hk).
    cbn [app]. rewrite scan_row_cons by assumption.
    pose proof (k_le_col j Hk) as K. pose proof (Hbest j Hlt) as B.
    replace (bestsize <? difflib.before j2len j + 1) with false
      by (symmetry; apply Nat.ltb_ge; lia).
    apply IH.
    + intros j' Hj'. apply Hjs. now right.
    + assumption.
    + intros j'. unfold difflib.update_nat.
      destruct (j' =? j); [apply k_le_row|apply Hr].
    + intros j'. unfold difflib.update_nat.
      destruct (j' =? j) eqn:E; [|apply Hc].
      apply Nat.eqb_eq in E. now subst j'.
Qed.

(** So do the positions after the diagonal, once the diagonal was seen. *)
Lemma scan_row_above (js : list nat) (besti bestj bestsize : nat)
    (newj2len : nat -> nat) :
  (forall j, In j js -> i < j /\ j < length l /\ kept b2j l j = true) ->
  keptRun b2j l i <= bestsize ->
  newj2len i = keptRun b2j l i ->
  (forall j, newj2len j <= keptRun b2j l i) ->
  (forall j, newj2len j <= keptRun b2j l j) ->
  exists newj2len',
    difflib.scan_row i 0 (length l) j2len js (besti, bestj, bestsize) newj2len
    = ((besti, bestj, bestsize), newj2len') /\
    newj2len' i = keptRun b2j l i /\
    (forall j, newj2len' j <= keptRun b2j l i) /\
    (forall j, newj2len' j <= keptRun b2j l j).
Proof.
  revert newj2len. induction js as [|j js IH]; intros newj2len Hjs Hbest Hi Hr Hc.
  - exists newj2len. now repeat split.
  - destruct (Hjs j (or_introl eq_refl)) as (Hlt & Hn & Hk).
    rewrite scan_row_cons by assumption.
    pose proof (k_le_row j) as K.
    replace (bestsize <? difflib.before j2len j + 1) with false
      by (symmetry; apply Nat.ltb_ge; lia).
    apply IH.
    + intros j' Hj'. apply Hjs. now right.
    + assumption.
    + unfold difflib.update_nat.
      replace (i =? j) with false by (symmetry; apply Nat.eqb_neq; lia).
      assumption.
    + intros j'. unfold difflib.update_nat.
      destruct (j' =? j); [apply k_le_row|apply Hr].
    + intros j'. unfold difflib.update_nat.
      destruct (j' =? j) eqn:E; [|apply Hc].
      apply Nat.eqb_eq in E. subst j'. now apply k_le_col.
Qed.

End Row.

(** One row of the outer loop keeps [scanInv]. *)
Lemma scan_row_inv (i : nat) (st : difflib.best) (j2len : nat -> nat) :
  i < length l -> scanInv b2j l i st j2len ->
  let (st', newj2len) :=
    difflib.scan_row i 0 (length l) j2len (b2j (nth i l [])) st (fun _ => 0) in
  scanInv b2j l (S i) st' newj2len.
Proof.
  intros Hi. destruct st as [[besti bestj] bestsize].
  intros (Hdiag & Hend & Hr & Hc & Hd & Hbest).
  destruct (b2j_row i Hi) as [E | (L1 & L2 & E & H1 & H2)].
  - rewrite E. cbn [difflib.scan_row].
    assert (K : keptRun b2j l i = 0).
    { rewrite keptRun_unfold. unfold kept. now rewrite E. }
    cbn [scanInv difflib.before]. repeat split; try lia; try (intros j; lia).
    intros i' Hi'. destruct (Nat.eq_dec i' i) as [-> | Hne];
      [lia|apply Hbest; lia].
  - assert (Hrow : forall j, In j (L1 ++ i :: L2) ->
                    kept b2j l j = true /\ kept b2j l i = true /\ j < length l).
    { intros j Hj. apply row_kept. now rewrite E. }
    assert (Ki : kept b2j l i = true).
    { apply (Hrow i). apply in_or_app. right. now left. }
    rewrite E.
    destruct (scan_row_below i j2len Ki Hr Hc Hd L1 (i :: L2)
                besti bestj bestsize (fun _ => 0))
      as (nj1 & Eq1 & Hr1 & Hc1).
    { intros j Hj. destruct (Hrow j) as (? & _ & ?);
        [apply in_or_app; now left|]. repeat split; auto. }
    { assumption. }
    { intros j. lia. }
    { intros j. lia. }
    rewrite Eq1. clear Eq1.
    rewrite scan_row_cons by assumption.
    pose proof (run_here i j2len Ki Hd) as Kk.
    pose proof (keptRun_le i) as Kle.
    set (k := difflib.before j2len i + 1) in *.
    set (nj2 := difflib.update_nat nj1 i k).
    assert (N2i : nj2 i = keptRun b2j l i).
    { unfold nj2, difflib.update_nat. now rewrite Nat.eqb_refl. }
    assert (N2r : forall j, nj2 j <= keptRun b2j l i).
    { intros j. unfold nj2, difflib.update_nat.
      destruct (j =? i); [lia|apply Hr1]. }
    assert (N2c : forall j, nj2 j <= keptRun b2j l j).
    { intros j. unfold nj2, difflib.update_nat.
      destruct (j =? i) eqn:Ej; [|apply Hc1].
      apply Nat.eqb_eq in Ej. subst j. lia. }
    assert (HL2 : forall j, In j L2 ->
                    i < j /\ j < length l /\ kept b2j l j = true).
    { intros j Hj. destruct (Hrow j) as (? & _ & ?);
        [apply in_or_app; right; now right|]. repeat split; auto. }
    destruct (bestsize <? k) eqn:Eb.
    + apply Nat.ltb_lt in Eb.
      destruct (scan_row_above i j2len Ki Hr Hc Hd L2
                  (i + 1 - k) (i + 1 - k) k nj2 HL2)
        as (nj3 & Eq3 & N3i & N3r & N3c); try assumption; [lia|].
      rewrite Eq3. clear Eq3.
      cbn [scanInv difflib.before]. repeat split; try assumption; try lia.
      intros i' Hi'. destruct (Nat.eq_dec i' i) as [-> | Hne]; [lia|].
      specialize (Hbest i'). lia.
    + apply Nat.ltb_ge in Eb.
      destruct (scan_row_above i j2len Ki Hr Hc Hd L2
                  besti bestj bestsize nj2 HL2)
        as (nj3 & Eq3 & N3i & N3r & N3c); try assumption; [lia|].
      rewrite Eq3. clear Eq3.
      cbn [scanInv difflib.before]. repeat split; try assumption; try lia.
      intros i' Hi'. destruct (Nat.eq_dec i' i) as [-> | Hne]; [lia|].
      apply Hbest. lia.
Qed.

(** The outer loop ends with a best match on the diagonal and inside the
    sequence. *)
Lemma scan_rows_diag (m i : nat) (st : difflib.best) (j2len : nat -> nat) :
  i + m = length l -> scanInv b2j l i st j2len ->
  let '(besti, bestj, bestsize) :=
    difflib.scan_rows l b2j 0 (length l) (seq i m) st j2len in
  besti = bestj /\ besti + bestsize <= length l.
Proof.
  revert i st j2len. induction m as [|m IH]; intros i st j2len Hm Hinv.
  - cbn. destruct st as [[besti bestj] bestsize].
    destruct Hinv as (Hdiag & Hend & _). split; [assumption|lia].
  - cbn [seq difflib.scan_rows].
    pose proof (scan_row_inv i st j2len ltac:(lia) Hinv) as Hrow.
    destruct (difflib.scan_row i 0 (length l) j2len (b2j (nth i l [])) st
                (fun _ => 0)) as [st' nj].
    apply IH; [lia|assumption].
Qed.

End LongestMatchSelf.

Lemma extend_back_self (l : list bytes) (n d k : nat) :
  d <= n ->
  difflib.extend_back n l l 0 0 false (d, d, k) = (0, 0, d + k).
Proof.
  revert d k. induction n as [|n IH]; intros d k Hd.
  - now replace d with 0 by lia.
  - cbn [difflib.extend_back]. destruct d as [|d]; [reflexivity|].
    cbn [Nat.ltb Nat.leb difflib.isBJunk Bool.eqb andb].
    rewrite bytes_eqb_refl.
    replace (S d - 1) with d by lia.
    rewrite IH by lia. f_equal. lia.
Qed.

Lemma extend_fwd_self (l : list bytes) (n k : nat) :
  k <= length l -> length l - k <= n ->
  difflib.extend_fwd n l l (length l) (length l) false (0, 0, k)
  = (0, 0, length l).
Proof.
  revert k. induction n as [|n IH]; intros k Hk Hn.
  - cbn. f_equal. lia.
  - cbn [difflib.extend_fwd plus difflib.isBJunk Bool.eqb].
    destruct (k <? length l) eqn:E.
    + apply Nat.ltb_lt in E. cbn [andb]. rewrite bytes_eqb_refl.
      apply IH; lia.
    + apply Nat.ltb_ge in E. cbn [andb]. f_equal. lia.
Qed.

(** No line is junk, so the loops that extend by junk lines do nothing. *)
Lemma extend_back_junk (n : nat) (a b : list bytes) (alo blo : nat)
    (st : difflib.best) :
  difflib.extend_back n a b alo blo true st = st.
Proof.
  destruct n; [reflexivity|]. destruct st as [[besti bestj] bestsize].
  cbn [difflib.extend_back difflib.isBJunk Bool.eqb].
  now rewrite andb_false_r.
Qed.

Lemma extend_fwd_junk (n : nat) (a b : list bytes) (ahi bhi : nat)
    (st : difflib.best) :
  difflib.extend_fwd n a b ahi bhi true st = st.
Proof.
  destruct n; [reflexivity|]. destruct st as [[besti bestj] bestsize].
  cbn [difflib.extend_fwd difflib.isBJunk Bool.eqb].
  now rewrite andb_false_r.
Qed.

(** The longest match of a sequence with itself is the whole sequence. *)
Lemma findLongestMatch_self (l : list bytes) :
  difflib.findLongestMatch l l (difflib.chainB l) 0 (length l) 0 (length l)
  = {| difflib.A := 0; difflib.B := 0; difflib.Size := length l |}.
Proof.
  unfold difflib.findLongestMatch. rewrite Nat.sub_0_r.
  pose proof (scan_rows_diag l (difflib.chainB l)
                (chainB_In l) (chainB_row l) (length l) 0 (0, 0, 0) (fun _ => 0))
    as H.
  destruct (difflib.scan_rows l (difflib.chainB l) 0 (length l)
              (seq 0 (length l)) (0, 0, 0) (fun _ => 0))
    as [[besti bestj] bestsize].
  destruct H as [<- Hend]; [reflexivity| |].
  { cbn. repeat split; intros; lia. }
  rewrite extend_back_self by lia.
  rewrite extend_fwd_self by lia.
  now rewrite extend_back_junk, extend_fwd_junk.
Qed.

(** ** [difflib]: the diff of a sequence with itself *)

Lemma GetMatchingBlocks_self (l : list bytes) :
  difflib.GetMatchingBlocks l l =
  (if 0 <? length l
   then [{| difflib.A := 0; difflib.B := 0; difflib.Size := length l |}]
   else []) ++
  [{| difflib.A := length l; difflib.B := length l; difflib.Size := 0 |}].
Proof.
  unfold difflib.GetMatchingBlocks. cbn [difflib.matchBlocks].
  rewrite findLongestMatch_self.
  cbn [difflib.A difflib.B difflib.Size].
  change (0 <? 0) with false. cbn [andb plus].
  rewrite Nat.ltb_irrefl. cbn [andb app].
  destruct (0 <? length l) eqn:E; [|reflexivity].
  cbn [fold_left difflib.collapse_step difflib.A difflib.B difflib.Size
       plus Nat.eqb andb app].
  now rewrite E.
Qed.

Lemma GetOpCodes_self (l : list bytes) :
  difflib.GetOpCodes l l =
  if 0 <? length l
  then [{| difflib.Tag := "e"%char; difflib.I1 := 0; difflib.I2 := length l;
           difflib.J1 := 0; difflib.J2 := length l |}]
  else [].
Proof.
  unfold difflib.GetOpCodes. rewrite GetMatchingBlocks_self.
  destruct (0 <? length l) eqn:E.
  - cbn [app fold_left difflib.opcode_step difflib.A difflib.B difflib.Size plus].
    change (0 <? 0) with false. cbn [andb]. rewrite E, Nat.ltb_irrefl.
    reflexivity.
  - cbn [app fold_left difflib.opcode_step difflib.A difflib.B difflib.Size].
    apply Nat.ltb_ge in E. replace (length l) with 0 by lia. reflexivity.
Qed.

(** No group of changes: the only opcode says that all lines are equal, and
    what is left of it after the fix-ups is not longer than the context. *)
Lemma GetGroupedOpCodes_self (l : list bytes) (n : nat) :
  difflib.GetGroupedOpCodes l l n = [].
Proof.
  unfold difflib.GetGroupedOpCodes. rewrite GetOpCodes_self.
  destruct (0 <? length l);
    cbv beta iota zeta delta
      [hd_error rev app difflib.is_equal difflib.Tag
       difflib.set_first difflib.set_last removelast
       difflib.I1 difflib.I2 difflib.J1 difflib.J2 fold_left
       difflib.group_step Ascii.eqb Bool.eqb andb].
  - replace (n + n <? Nat.min (length l) (Nat.max 0 (length l - n) + n)
                       - Nat.max 0 (length l - n))
      with false by (symmetry; apply Nat.ltb_ge; lia).
    reflexivity.
  - replace (n + n <? Nat.min 1 (Nat.max 0 (1 - n) + n) - Nat.max 0 (1 - n))
      with false by (symmetry; apply Nat.ltb_ge; lia).
    reflexivity.
Qed.

Lemma GetUnifiedDiffString_self (diff : difflib.UnifiedDiff) :
  difflib.DiffA diff = difflib.DiffB diff ->
  difflib.GetUnifiedDiffString diff = ([], None).
Proof.
  intros E. unfold difflib.GetUnifiedDiffString.
  destruct (length (difflib.Eol diff) =? 0);
    cbn [difflib.DiffA difflib.DiffB difflib.Context];
    rewrite <- E, GetGroupedOpCodes_self; reflexivity.
Qed.

(** ** Patch generation *)

(** C7.  The patch of a document against itself is the empty string, with
    no error, whatever the file path. *)
Theorem patch_of_identical_documents_is_empty (filePath A : bytes) :
  generatePatch filePath A A = ([], None).
Proof.
  unfold generatePatch. now apply GetUnifiedDiffString_self.
Qed.

(** * Further properties *)

(** ** Splitting and joining *)

Lemma Join_cons (e : bytes) (elems : list bytes) (sep : bytes) :
  elems <> [] ->
  strings.Join (e :: elems) sep = e ++ sep ++ strings.Join elems sep.
Proof. destruct elems; [congruence|reflexivity]. Qed.

(** Joining the parts of a split with the separator gives the text back:
    splitting loses nothing. *)
Lemma Join_Split (s sep : bytes) :
  sep <> [] -> strings.Join (strings.Split s sep) sep = s.
Proof.
  intros Hsep.
  assert (H : forall n s, length s <= n ->
            strings.Join (strings.Split s sep) sep = s).
  { induction n as [|n IH]; intros t Ht.
    - destruct t; [|simpl in Ht; lia].
      rewrite Split_unfold by assumption.
      destruct (strings.Cut [] sep) as [[b a]|] eqn:C; [|reflexivity].
      apply Cut_Some in C. destruct b; [|discriminate].
      destruct sep; [congruence|discriminate].
    - rewrite Split_unfold by assumption.
      destruct (strings.Cut t sep) as [[b a]|] eqn:C; [|reflexivity].
      rewrite Join_cons by apply Split_nonempty.
      pose proof (Cut_after_length _ _ _ _ C) as L.
      assert (0 < length sep) by (destruct sep; [congruence|simpl; lia]).
      rewrite IH by lia. symmetry. now apply Cut_Some. }
  now apply (H (length s)).
Qed.

Lemma Split_injective (s t sep : bytes) :
  sep <> [] -> strings.Split s sep = strings.Split t sep -> s = t.
Proof.
  intros Hsep E.
  rewrite <- (Join_Split s sep Hsep), <- (Join_Split t sep Hsep).
  now rewrite E.
Qed.

(** ** [difflib]: matching blocks hold equal lines *)

Section MatchingBlocks.

Variables a b : list bytes.
Variable b2j : bytes -> list nat.

Hypothesis b2j_sound :
  forall s j, In j (b2j s) -> j < length b /\ nth j b [] = s.

Lemma validBlock_widen (alo ahi blo bhi alo' ahi' blo' bhi' : nat)
    (st : difflib.best) :
  alo' <= alo -> ahi <= ahi' -> blo' <= blo -> bhi <= bhi' ->
  validBlock a b alo ahi blo bhi st -> validBlock a b alo' ahi' blo' bhi' st.
Proof.
  destruct st as [[i j] k]. cbn. intros ? ? ? ? (? & ? & ? & ? & H).
  repeat split; try lia. exact H.
Qed.

(** One row of the search: the runs recorded and the best match stay
    genuine. *)
Lemma scan_row_valid (alo ahi blo bhi i : nat) (j2len : nat -> nat)
    (js : list nat) (st : difflib.best) (newj2len : nat -> nat) :
  alo <= i -> i < ahi ->
  (forall j, In j js -> nth j b [] = nth i a []) ->
  (forall j, validRun a b alo blo i j (j2len j)) ->
  validBlock a b alo ahi blo bhi st ->
  (forall j, validRun a b alo blo (S i) j (newj2len j)) ->
  let (st', newj2len') := difflib.scan_row i blo bhi j2len js st newj2len in
  validBlock a b alo ahi blo bhi st' /\
  (forall j, validRun a b alo blo (S i) j (newj2len' j)).
Proof.
  intros Hlo Hhi. revert st newj2len.
  induction js as [|j js IH]; intros st newj2len Hjs Hold Hst Hnew.
  - cbn. now split.
  - cbn [difflib.scan_row].
    assert (Hjs' : forall j', In j' js -> nth j' b [] = nth i a [])
      by (intros j' Hj'; apply Hjs; now right).
    destruct (j <? blo) eqn:E1; [now apply IH|].
    destruct (bhi <=? j) eqn:E2; [now split|].
    apply Nat.ltb_ge in E1. apply Nat.leb_gt in E2.
    destruct st as [[besti bestj] bestsize].
    set (k := difflib.before j2len j + 1).
    assert (Hk : validRun a b alo blo (S i) j k).
    { unfold k. destruct j as [|j'].
      - cbn [difflib.before]. repeat split; try lia.
        intros t Ht. replace t with 0 by lia.
        replace (S i - 1 - 0) with i by lia. cbn [Nat.sub].
        symmetry. apply Hjs. now left.
      - cbn [difflib.before]. destruct (Hold j') as (R1 & R2 & R3).
        repeat split; try lia.
        intros t Ht. destruct t as [|t].
        + replace (S i - 1 - 0) with i by lia. rewrite Nat.sub_0_r.
          symmetry. apply Hjs. now left.
        + replace (S i - 1 - S t) with (i - 1 - t) by lia.
          cbn [Nat.sub]. apply R3. lia. }
    apply IH; try assumption.
    + destruct (bestsize <? k) eqn:E3; [|assumption].
      destruct Hk as (K1 & K2 & K3). cbn. repeat split; try lia.
      intros t Ht.
      replace (i + 1 - k + t) with (S i - 1 - (k - 1 - t)) by lia.
      replace (j + 1 - k + t) with (j - (k - 1 - t)) by lia.
      apply K3. lia.
    + intros j'. unfold difflib.update_nat.
      destruct (j' =? j) eqn:E; [|apply Hnew].
      apply Nat.eqb_eq in E. now subst j'.
Qed.

Lemma scan_rows_valid (alo ahi blo bhi m i : nat) (st : difflib.best)
    (j2len : nat -> nat) :
  alo <= i -> i + m <= ahi ->
  (forall j, validRun a b alo blo i j (j2len j)) ->
  validBlock a b alo ahi blo bhi st ->
  validBlock a b alo ahi blo bhi
    (difflib.scan_rows a b2j blo bhi (seq i m) st j2len).
Proof.
  revert i st j2len. induction m as [|m IH]; intros i st j2len Hlo Hhi Hold Hst.
  - exact Hst.
  - cbn [seq difflib.scan_rows].
    pose proof (scan_row_valid alo ahi blo bhi i j2len (b2j (nth i a [])) st
                  (fun _ => 0) Hlo ltac:(lia)) as H.
    destruct (difflib.scan_row i blo bhi j2len (b2j (nth i a [])) st (fun _ => 0))
      as [st' nj].
    destruct H as [H1 H2]; try assumption.
    + intros j Hj. now apply b2j_sound in Hj.
    + intros j. repeat split; lia.
    + apply IH; try assumption; lia.
Qed.

Lemma extend_back_valid (n alo ahi blo bhi : nat) (junk : bool)
    (st : difflib.best) :
  validBlock a b alo ahi blo bhi st ->
  validBlock a b alo ahi blo bhi (difflib.extend_back n a b alo blo junk st).
Proof.
  revert st. induction n as [|n IH]; intros st Hst; [exact Hst|].
  destruct st as [[besti bestj] bestsize]. cbn [difflib.extend_back].
  destruct (_ && _) eqn:E; [|exact Hst].
  apply andb_true_iff in E as [E E4]. apply andb_true_iff in E as [E _].
  apply andb_true_iff in E as [E1 E2].
  apply Nat.ltb_lt in E1. apply Nat.ltb_lt in E2. apply bytes_eqb_eq in E4.
  apply IH. destruct Hst as (H1 & H2 & H3 & H4 & H5).
  cbn. repeat split; try lia.
  intros t Ht. destruct t as [|t].
  - now rewrite !Nat.add_0_r.
  - replace (besti - 1 + S t) with (besti + t) by lia.
    replace (bestj - 1 + S t) with (bestj + t) by lia.
    apply H5. lia.
Qed.

Lemma extend_fwd_valid (n alo ahi blo bhi : nat) (junk : bool)
    (st : difflib.best) :
  validBlock a b alo ahi blo bhi st ->
  validBlock a b alo ahi blo bhi (difflib.extend_fwd n a b ahi bhi junk st).
Proof.
  revert st. induction n as [|n IH]; intros st Hst; [exact Hst|].
  destruct st as [[besti bestj] bestsize]. cbn [difflib.extend_fwd].
  destruct (_ && _) eqn:E; [|exact Hst].
  apply andb_true_iff in E as [E E4]. apply andb_true_iff in E as [E _].
  apply andb_true_iff in E as [E1 E2].
  apply Nat.ltb_lt in E1. apply Nat.ltb_lt in E2. apply bytes_eqb_eq in E4.
  apply IH. destruct Hst as (H1 & H2 & H3 & H4 & H5).
  cbn. repeat split; try lia.
  intros t Ht. destruct (Nat.eq_dec t bestsize) as [-> | Hne];
    [assumption|apply H5; lia].
Qed.

(** The longest match found in a range is a block of equal lines inside
    that range. *)
Lemma findLongestMatch_valid (alo ahi blo bhi : nat) :
  alo <= ahi -> blo <= bhi ->
  let m := difflib.findLongestMatch a b b2j alo ahi blo bhi in
  validBlock a b alo ahi blo bhi (difflib.A m, difflib.B m, difflib.Size m).
Proof.
  intros Ha Hb. unfold difflib.findLongestMatch.
  match goal with
  | |- context [difflib.extend_fwd ?n a b ahi bhi true ?st] =>
      assert (V : validBlock a b alo ahi blo bhi
                    (difflib.extend_fwd n a b ahi bhi true st))
  end.
  { apply extend_fwd_valid, extend_back_valid, extend_fwd_valid,
      extend_back_valid.
    apply scan_rows_valid; try lia.
    - intros j. repeat split; lia.
    - cbn. repeat split; lia. }
  destruct (difflib.extend_fwd _ a b ahi bhi true _) as [[besti bestj] bestsize].
  exact V.
Qed.

(** The blocks collected by [matchBlocks] are genuine. *)
Lemma matchBlocks_genuine (n alo ahi blo bhi : nat) (matched : list difflib.Match) :
  alo <= ahi -> ahi <= length a -> blo <= bhi -> bhi <= length b ->
  Forall (genuine a b) matched ->
  Forall (genuine a b) (difflib.matchBlocks n a b b2j alo ahi blo bhi matched).
Proof.
  revert alo ahi blo bhi matched.
  induction n as [|n IH]; intros alo ahi blo bhi matched Ha Ha' Hb Hb' Hm;
    [exact Hm|].
  cbn [difflib.matchBlocks].
  pose proof (findLongestMatch_valid alo ahi blo bhi Ha Hb) as V.
  cbv zeta in V.
  set (m := difflib.findLongestMatch a b b2j alo ahi blo bhi) in *.
  destruct V as (V1 & V2 & V3 & V4 & V5).
  destruct (0 <? difflib.Size m) eqn:Ek; [|exact Hm].
  assert (G : genuine a b m) by (repeat split; try lia; exact V5).
  assert (M1 : Forall (genuine a b)
                 ((if (alo <? difflib.A m) && (blo <? difflib.B m)
                   then difflib.matchBlocks n a b b2j alo (difflib.A m)
                          blo (difflib.B m) matched
                   else matched) ++ [m])).
  { apply Forall_app. split; [|now constructor].
    destruct (_ && _); [|exact Hm]. apply IH; try lia. exact Hm. }
  destruct ((difflib.A m + difflib.Size m <? ahi) &&
            (difflib.B m + difflib.Size m <? bhi)) eqn:E3; [|exact M1].
  apply andb_true_iff in E3 as [E3 E4].
  apply Nat.ltb_lt in E3. apply Nat.ltb_lt in E4.
  apply IH; try lia. exact M1.
Qed.

End MatchingBlocks.

Lemma genuine_merge (a b : list bytes) (i1 j1 k1 : nat) (blk : difflib.Match) :
  genuine a b {| difflib.A := i1; difflib.B := j1; difflib.Size := k1 |} ->
  genuine a b blk ->
  i1 + k1 = difflib.A blk -> j1 + k1 = difflib.B blk ->
  genuine a b {| difflib.A := i1; difflib.B := j1;
                 difflib.Size := k1 + difflib.Size blk |}.
Proof.
  intros (G1 & G2 & G3) (H1 & H2 & H3) Ei Ej.
  unfold genuine. cbn [difflib.A difflib.B difflib.Size] in *.
  split; [lia|]. split; [lia|].
  intros t Ht. destruct (Nat.lt_ge_cases t k1) as [Hlt | Hge].
  - now apply G3.
  - replace (i1 + t) with (difflib.A blk + (t - k1)) by lia.
    replace (j1 + t) with (difflib.B blk + (t - k1)) by lia.
    apply H3. lia.
Qed.

(** The loop that merges adjacent blocks keeps genuine blocks genuine and
    hands on no empty block. *)
Lemma collapse_genuine (a b : list bytes) (matched : list difflib.Match)
    (i1 j1 k1 : nat) (acc : list difflib.Match) :
  Forall (genuine a b) matched ->
  genuine a b {| difflib.A := i1; difflib.B := j1; difflib.Size := k1 |} ->
  Forall (fun m => genuine a b m /\ 0 < difflib.Size m) acc ->
  let '(i1', j1', k1', acc') :=
    fold_left difflib.collapse_step matched (i1, j1, k1, acc) in
  genuine a b {| difflib.A := i1'; difflib.B := j1'; difflib.Size := k1' |} /\
  Forall (fun m => genuine a b m /\ 0 < difflib.Size m) acc'.
Proof.
  revert i1 j1 k1 acc.
  induction matched as [|blk matched IH]; intros i1 j1 k1 acc Hm G Hacc.
  - cbn. now split.
  - inversion Hm as [|? ? Hblk Hrest]; subst.
    cbn [fold_left difflib.collapse_step].
    destruct ((i1 + k1 =? difflib.A blk) && (j1 + k1 =? difflib.B blk)) eqn:E.
    + apply andb_true_iff in E as [E1 E2].
      apply Nat.eqb_eq in E1. apply Nat.eqb_eq in E2.
      apply IH; try assumption. now apply genuine_merge.
    + apply IH; [assumption|destruct blk as [ba bb bs]; exact Hblk|].
      destruct (0 <? k1) eqn:Ek; [|assumption].
      apply Nat.ltb_lt in Ek. apply Forall_app. split; [assumption|].
      constructor; [|constructor]. now split.
Qed.

(** The matching blocks: genuine blocks that are not empty, then the
    sentinel. *)
Lemma GetMatchingBlocks_genuine (a b : list bytes) :
  exists blocks,
    difflib.GetMatchingBlocks a b =
    blocks ++ [{| difflib.A := length a; difflib.B := length b;
                  difflib.Size := 0 |}] /\
    Forall (fun m => genuine a b m /\ 0 < difflib.Size m) blocks.
Proof.
  unfold difflib.GetMatchingBlocks.
  pose proof (matchBlocks_genuine a b (difflib.chainB b) (chainB_In b)
                (S (length a)) 0 (length a) 0 (length b) []
                ltac:(lia) ltac:(lia) ltac:(lia) ltac:(lia) (Forall_nil _)) as Hm.
  pose proof (collapse_genuine a b _ 0 0 0 [] Hm) as Hc.
  destruct (fold_left difflib.collapse_step _ (0, 0, 0, []))
    as [[[i1 j1] k1] acc].
  destruct Hc as [G Hacc].
  { repeat split; cbn; lia. }
  { constructor. }
  eexists. split; [reflexivity|].
  destruct (0 <? k1) eqn:Ek; [|assumption].
  apply Nat.ltb_lt in Ek. apply Forall_app. split; [assumption|].
  constructor; [|constructor]. now split.
Qed.

(** ** [difflib]: opcodes without a change *)

Lemma opcode_step_spec (i j : nat) (codes : list difflib.OpCode)
    (m : difflib.Match) :
  exists codes',
    difflib.opcode_step (i, j, codes) m =
    (difflib.A m + difflib.Size m, difflib.B m + difflib.Size m, codes') /\
    length codes' =
    length codes +
    (if (i <? difflib.A m) || (j <? difflib.B m) then 1 else 0) +
    (if 0 <? difflib.Size m then 1 else 0).
Proof.
  unfold difflib.opcode_step.
  destruct (i <? difflib.A m), (j <? difflib.B m), (0 <? difflib.Size m);
    cbn [andb orb]; eexists; (split; [reflexivity|]);
    rewrite ?length_app; cbn [length]; lia.
Qed.

Lemma opcode_step_grows (st : nat * nat * list difflib.OpCode) (m : difflib.Match) :
  length (snd st) <= length (snd (difflib.opcode_step st m)) /\
  (0 < difflib.Size m ->
   S (length (snd st)) <= length (snd (difflib.opcode_step st m))).
Proof.
  destruct st as [[i j] codes].
  destruct (opcode_step_spec i j codes m) as (codes' & -> & L).
  cbn [snd]. split; [lia|].
  intros H. apply Nat.ltb_lt in H. rewrite H in L. lia.
Qed.

Lemma opcode_fold_grows (ms : list difflib.Match)
    (st : nat * nat * list difflib.OpCode) :
  length (snd st) <= length (snd (fold_left difflib.opcode_step ms st)).
Proof.
  revert st. induction ms as [|m ms IH]; intros st; [reflexivity|].
  cbn [fold_left]. etransitivity; [|apply IH]. apply opcode_step_grows.
Qed.

(** If the opcodes are none, or one that says equal, the two sequences are
    the same. *)
Lemma GetOpCodes_equal_only (a b : list bytes) :
  difflib.GetOpCodes a b = [] \/
  (exists c, difflib.GetOpCodes a b = [c] /\ difflib.is_equal c = true) ->
  a = b.
Proof.
  unfold difflib.GetOpCodes.
  destruct (GetMatchingBlocks_genuine a b) as (blocks & -> & Hblocks).
  intros H.
  assert (L : length (snd (fold_left difflib.opcode_step
                             (blocks ++ [{| difflib.A := length a;
                                            difflib.B := length b;
                                            difflib.Size := 0 |}])
                             (0, 0, []))) <= 1).
  { destruct H as [-> | (c & -> & _)]; cbn; lia. }
  destruct blocks as [|m [|m2 rest]].
  - (* no block: both sequences are empty *)
    cbn in H. destruct a as [|x a], b as [|y b]; trivial; cbn in H;
      destruct H as [H | (c & H & Hc)]; try discriminate;
      injection H as <-; discriminate.
  - (* one block *)
    inversion Hblocks as [|? ? [G Hpos] _]; subst.
    destruct G as (G1 & G2 & G3).
    cbn [app fold_left] in L.
    destruct (opcode_step_spec 0 0 [] m) as (codes1 & E1 & L1).
    rewrite E1 in L.
    destruct (opcode_step_spec (difflib.A m + difflib.Size m)
                (difflib.B m + difflib.Size m) codes1
                {| difflib.A := length a; difflib.B := length b;
                   difflib.Size := 0 |}) as (codes2 & E2 & L2).
    rewrite E2 in L. cbn [snd difflib.A difflib.B difflib.Size length] in *.
    assert (P : (0 <? difflib.Size m) = true) by now apply Nat.ltb_lt.
    rewrite P in L1.
    destruct ((0 <? difflib.A m) || (0 <? difflib.B m)) eqn:C1; [lia|].
    destruct ((difflib.A m + difflib.Size m <? length a) ||
              (difflib.B m + difflib.Size m <? length b)) eqn:C2; [lia|].
    apply orb_false_iff in C1 as [C1 C1']. apply orb_false_iff in C2 as [C2 C2'].
    apply Nat.ltb_ge in C1, C1', C2, C2'.
    apply (nth_ext a b [] []); [lia|].
    intros t Ht.
    replace t with (difflib.A m + t) at 1 by lia.
    replace t with (difflib.B m + t) at 2 by lia.
    apply G3. lia.
  - (* two blocks or more: two opcodes or more *)
    exfalso.
    inversion Hblocks as [|? ? [_ P1] Hb2]; subst.
    inversion Hb2 as [|? ? [_ P2] _]; subst.
    cbn [app fold_left] in L.
    pose proof (opcode_fold_grows
                  (rest ++ [{| difflib.A := length a; difflib.B := length b;
                               difflib.Size := 0 |}])
                  (difflib.opcode_step (difflib.opcode_step (0, 0, []) m) m2))
      as X.
    pose proof (proj2 (opcode_step_grows (difflib.opcode_step (0, 0, []) m) m2) P2).
    pose proof (proj2 (opcode_step_grows (0, 0, []) m) P1).
    cbn [snd length] in *. lia.
Qed.

(** ** [difflib]: groups and the text written *)

Lemma set_first_length (codes : list difflib.OpCode) (c : difflib.OpCode) :
  length (difflib.set_first codes c) = length codes.
Proof. destruct codes; reflexivity. Qed.

Lemma set_last_length (codes : list difflib.OpCode) (c : difflib.OpCode) :
  length (difflib.set_last codes c) = length codes.
Proof.
  destruct codes as [|c0 codes]; [reflexivity|].
  unfold difflib.set_last.
  rewrite (app_removelast_last c (l := c0 :: codes)) at 2 by discriminate.
  now rewrite !length_app.
Qed.

Lemma group_step_eta (n : nat) (groups : list (list difflib.OpCode))
    (group : list difflib.OpCode) (c : difflib.OpCode) :
  (exists g c', difflib.group_step n (groups, group) c = (groups ++ [group ++ [g]], [c'])) \/
  difflib.group_step n (groups, group) c = (groups, group ++ [c]).
Proof.
  unfold difflib.group_step.
  destruct (difflib.is_equal c && (n + n <? difflib.I2 c - difflib.I1 c)).
  - left. eexists. eexists. reflexivity.
  - right. now destruct c.
Qed.

(** The groups done and the group under construction are never empty, and
    as long as no group is done the group under construction holds every
    opcode read. *)
Lemma group_fold (n : nat) (codes : list difflib.OpCode)
    (groups : list (list difflib.OpCode)) (group : list difflib.OpCode) :
  Forall (fun g => g <> []) groups ->
  group <> [] \/ codes <> [] ->
  exists groups' group',
    fold_left (difflib.group_step n) codes (groups, group) = (groups', group') /\
    Forall (fun g => g <> []) groups' /\ group' <> [] /\
    (groups' = [] -> groups = [] /\ group' = group ++ codes).
Proof.
  revert groups group.
  induction codes as [|c codes IH]; intros groups group Hg Hne.
  - exists groups, group. cbn. rewrite app_nil_r.
    split; [reflexivity|]. split; [assumption|].
    split; [destruct Hne; congruence|]. intros Z. now split.
  - cbn [fold_left].
    destruct (group_step_eta n groups group c) as [(g & c' & E)|E]; rewrite E.
    + destruct (IH (groups ++ [group ++ [g]]) [c']) as (gs' & g' & F & H1 & H2 & H3).
      * apply Forall_app. split; [assumption|].
        constructor; [|constructor]. now destruct group.
      * left. discriminate.
      * exists gs', g'. split; [assumption|]. split; [assumption|].
        split; [assumption|].
        intros Z; destruct (H3 Z) as [Z' _]; now destruct groups.
    + destruct (IH groups (group ++ [c])) as (gs' & g' & F & H1 & H2 & H3).
      * assumption.
      * left. now destruct group.
      * exists gs', g'. split; [assumption|]. split; [assumption|].
        split; [assumption|].
        intros Z. destruct (H3 Z) as [Z1 Z2]. split; [assumption|].
        rewrite Z2. now rewrite <- app_assoc.
Qed.

Lemma GetGroupedOpCodes_nonempty (a b : list bytes) (n : nat) :
  Forall (fun g => g <> []) (difflib.GetGroupedOpCodes a b n).
Proof.
  unfold difflib.GetGroupedOpCodes.
  set (c0 := match difflib.GetOpCodes a b with [] => _ | _ => _ end).
  set (c1 := match hd_error c0 with Some _ => _ | None => _ end).
  set (c2 := match hd_error (rev c1) with Some _ => _ | None => _ end).
  assert (L0 : 0 < length c0).
  { subst c0. destruct (difflib.GetOpCodes a b); cbn; lia. }
  assert (L1 : length c1 = length c0).
  { subst c1. destruct (hd_error c0); [|reflexivity].
    destruct (difflib.is_equal _); [apply set_first_length|reflexivity]. }
  assert (L2 : length c2 = length c1).
  { subst c2. destruct (hd_error (rev c1)); [|reflexivity].
    destruct (difflib.is_equal _); [apply set_last_length|reflexivity]. }
  destruct (group_fold n c2 [] []) as (gs & g & F & H1 & H2 & _).
  - constructor.
  - right. destruct c2; [cbn in L2; lia|discriminate].
  - rewrite F.
    assert (Forall (fun g => g <> []) (gs ++ [g])).
    { apply Forall_app. split; [assumption|]. now constructor. }
    destruct g as [|c [|c' g]]; try assumption.
    now destruct (difflib.is_equal c).
Qed.

(** No group at all: there was no opcode, or a single one that says
    "equal". *)
Lemma GetGroupedOpCodes_nil (a b : list bytes) (n : nat) :
  difflib.GetGroupedOpCodes a b n = [] ->
  difflib.GetOpCodes a b = [] \/
  exists c, difflib.GetOpCodes a b = [c] /\ difflib.is_equal c = true.
Proof.
  unfold difflib.GetGroupedOpCodes.
  destruct (difflib.GetOpCodes a b) as [|c [|c' codes]] eqn:E.
  - now left.
  - intros H. right. exists c. split; [reflexivity|].
    destruct (difflib.is_equal c) eqn:Q; [reflexivity|exfalso].
    revert H. destruct c as [t i1 i2 j1 j2].
    unfold difflib.is_equal in *. cbn [difflib.Tag] in Q.
    cbn [hd_error rev app fold_left difflib.group_step difflib.is_equal
         difflib.Tag difflib.I1 difflib.I2 difflib.J1 difflib.J2].
    repeat (rewrite Q;
      cbn [hd_error rev app fold_left difflib.group_step difflib.is_equal andb
           difflib.Tag difflib.I1 difflib.I2 difflib.J1 difflib.J2]).
    unfold difflib.is_equal; cbn [difflib.Tag andb]; rewrite Q; cbn [andb difflib.Tag]; rewrite Q; discriminate.
  - intros H. exfalso. revert H.
    set (c0 := c :: c' :: codes).
    set (c1 := match hd_error c0 with Some _ => _ | None => _ end).
    set (c2 := match hd_error (rev c1) with Some _ => _ | None => _ end).
    assert (L1 : length c1 = length c0).
    { subst c1. destruct (hd_error c0); [|reflexivity].
      destruct (difflib.is_equal _); [apply set_first_length|reflexivity]. }
    assert (L2 : length c2 = length c1).
    { subst c2. destruct (hd_error (rev c1)); [|reflexivity].
      destruct (difflib.is_equal _); [apply set_last_length|reflexivity]. }
    destruct (group_fold n c2 [] []) as (gs & g & F & H1 & H2 & H3).
    + constructor.
    + right. destruct c2; [cbn in L2; subst c0; cbn in *; lia|discriminate].
    + rewrite F.
      destruct g as [|x [|y g]]; [congruence| |now destruct gs].
      destruct gs; [|now destruct (difflib.is_equal x)].
      destruct (H3 eq_refl) as [_ Z]. cbn in Z.
      assert (length c2 = 1) by now rewrite <- Z.
      subst c0. cbn in *. lia.
Qed.

Lemma write_lines_app (buf prefix : bytes) (lines : list bytes) :
  difflib.write_lines buf prefix lines =
  buf ++ difflib.write_lines [] prefix lines.
Proof.
  unfold difflib.write_lines. revert buf.
  induction lines as [|l ls IH]; intros buf; cbn [fold_left].
  - now rewrite app_nil_r.
  - rewrite IH, (IH ([] ++ _)). now rewrite app_nil_l, !app_assoc.
Qed.

Lemma write_opcode_app (diff : difflib.UnifiedDiff) (buf : bytes)
    (c : difflib.OpCode) :
  difflib.write_opcode diff buf c = buf ++ difflib.write_opcode diff [] c.
Proof.
  unfold difflib.write_opcode.
  destruct (Ascii.eqb (difflib.Tag c) "e"); [apply write_lines_app|].
  destruct (_ || _), (_ || _);
    rewrite ?(write_lines_app (difflib.write_lines _ _ _)),
            ?(write_lines_app buf), ?app_nil_r, ?app_assoc; reflexivity.
Qed.

Lemma write_opcodes_app (diff : difflib.UnifiedDiff) (g : list difflib.OpCode)
    (buf : bytes) :
  fold_left (difflib.write_opcode diff) g buf =
  buf ++ fold_left (difflib.write_opcode diff) g [].
Proof.
  revert buf. induction g as [|c cs IH]; intros buf; cbn [fold_left].
  - now rewrite app_nil_r.
  - rewrite IH, (IH (difflib.write_opcode diff [] c)), write_opcode_app.
    now rewrite app_assoc.
Qed.

(** Writing a group appends to the buffer, and sets [started]. *)
Lemma write_group_app (diff : difflib.UnifiedDiff) (buf : bytes)
    (started : bool) (g : list difflib.OpCode) :
  difflib.write_group diff (buf, started) g =
  (buf ++ fst (difflib.write_group diff ([], started) g), true).
Proof.
  unfold difflib.write_group.
  set (h := if started then _ else _).
  set (h0 := if started then _ else _).
  assert (H : h = buf ++ h0).
  { subst h h0. destruct started; [now rewrite app_nil_r|].
    destruct (_ || _); [|now rewrite app_nil_r].
    now rewrite app_nil_l, !app_assoc. }
  rewrite H.
  destruct (hd_error g), (hd_error (rev g)); cbn [fst]; try reflexivity.
  rewrite write_opcodes_app, (write_opcodes_app _ _ (h0 ++ _)).
  now rewrite !app_assoc.
Qed.

Lemma write_groups_app (diff : difflib.UnifiedDiff)
    (groups : list (list difflib.OpCode)) (buf : bytes) (started : bool) :
  exists rest,
    fst (fold_left (difflib.write_group diff) groups (buf, started)) =
    buf ++ rest.
Proof.
  revert buf started. induction groups as [|g gs IH]; intros buf started.
  - exists []. cbn. now rewrite app_nil_r.
  - cbn [fold_left]. rewrite write_group_app.
    destruct (IH (buf ++ fst (difflib.write_group diff ([], started) g)) true)
      as (rest & E).
    exists (fst (difflib.write_group diff ([], started) g) ++ rest).
    etransitivity; [exact E|]. now rewrite <- app_assoc.
Qed.

(** What the first group writes when the file names are given and the
    dates are not: the two file lines and the opening of the range line. *)
Lemma write_first_group (diff : difflib.UnifiedDiff) (g : list difflib.OpCode) :
  g <> [] -> difflib.FromFile diff <> [] ->
  difflib.FromDate diff = [] -> difflib.ToDate diff = [] ->
  exists rest,
    fst (difflib.write_group diff ([], false) g) =
    lit "--- " ++ difflib.FromFile diff ++ difflib.Eol diff ++
    lit "+++ " ++ difflib.ToFile diff ++ difflib.Eol diff ++
    lit "@@ -" ++ rest.
Proof.
  intros Hg Hf Hfd Htd. unfold difflib.write_group.
  rewrite Hfd, Htd. cbn [length Nat.ltb Nat.leb].
  replace (bytes_eqb (difflib.FromFile diff) []) with false
    by (symmetry; now apply bytes_eqb_neq).
  cbn [negb orb].
  destruct g as [|c g]; [congruence|]. cbn [hd_error].
  destruct (hd_error (rev (c :: g))) as [l|] eqn:R.
  2:{ exfalso. destruct (rev (c :: g)) eqn:R'; [|discriminate].
      apply (f_equal (@length _)) in R'. rewrite length_rev in R'. discriminate. }
  cbn [fst]. rewrite write_opcodes_app.
  eexists.
  cbn [fmt.Sprintf lit list_ascii_of_string Ascii.eqb Bool.eqb fmt.verb_s app].
  rewrite <- !app_assoc. cbn [app]. rewrite <- !app_assoc. reflexivity.
Qed.

Lemma LF_sep : [LF] <> [].
Proof. discriminate. Qed.

(** The text of [generatePatch] is what the groups write, with a line
    feed for [Eol]. *)
Lemma generatePatch_groups (filePath A B : bytes) :
  generatePatch filePath A B =
  (fst (fold_left
          (difflib.write_group
             {| difflib.DiffA := strings.Split A [LF];
                difflib.DiffB := strings.Split B [LF];
                difflib.FromFile := lit "a/" ++ filepath.Base filePath;
                difflib.FromDate := [];
                difflib.ToFile := lit "b/" ++ filepath.Base filePath;
                difflib.ToDate := [];
                difflib.Eol := [LF];
                difflib.Context := 3 |})
          (difflib.GetGroupedOpCodes (strings.Split A [LF])
             (strings.Split B [LF]) 3)
          ([], false)), None).
Proof. reflexivity. Qed.

(** Two different documents give a first group, which is not empty. *)
Lemma first_group (A B : bytes) :
  A <> B ->
  exists g gs,
    difflib.GetGroupedOpCodes (strings.Split A [LF]) (strings.Split B [LF]) 3
    = g :: gs /\ g <> [].
Proof.
  intros Hne.
  pose proof (GetGroupedOpCodes_nonempty
                (strings.Split A [LF]) (strings.Split B [LF]) 3) as Hg.
  pose proof (GetGroupedOpCodes_nil
                (strings.Split A [LF]) (strings.Split B [LF]) 3) as Hnil.
  destruct (difflib.GetGroupedOpCodes (strings.Split A [LF])
              (strings.Split B [LF]) 3) as [|g gs].
  - exfalso. apply Hne, (Split_injective A B [LF] LF_sep).
    now apply GetOpCodes_equal_only, Hnil.
  - exists g, gs. split; [reflexivity|]. now inversion Hg.
Qed.

(** What two different documents give: the two file lines, which name the
    last element of the path, then a range line. *)
Lemma generatePatch_differs (filePath A B : bytes) :
  A <> B ->
  exists rest,
    generatePatch filePath A B =
    (lit "--- a/" ++ filepath.Base filePath ++ [LF] ++
     lit "+++ b/" ++ filepath.Base filePath ++ [LF] ++
     lit "@@ -" ++ rest, None).
Proof.
  intros Hne. rewrite generatePatch_groups.
  destruct (first_group A B Hne) as (g & gs & -> & Hg).
  cbn [fold_left]. rewrite write_group_app.
  match goal with
  | |- context [fold_left (difflib.write_group ?d) gs (?buf, true)] =>
      destruct (write_groups_app d gs buf true) as (rest & E);
      destruct (write_first_group d g Hg) as (r & Er);
      [discriminate|reflexivity|reflexivity|]
  end.
  exists (r ++ rest). f_equal. etransitivity; [exact E|].
  rewrite app_nil_l. etransitivity; [apply (f_equal (fun x => x ++ rest) Er)|].
  cbn [difflib.FromFile difflib.ToFile difflib.Eol].
  rewrite <- !app_assoc. reflexivity.
Qed.

Lemma generatePatch_nil (filePath A B : bytes) :
  fst (generatePatch filePath A B) = [] <-> A = B.
Proof.
  split.
  - intros H. destruct (list_eq_dec ascii_dec A B) as [|Hne]; [assumption|].
    destruct (generatePatch_differs filePath A B Hne) as (rest & E).
    rewrite E in H. discriminate.
  - intros ->. unfold generatePatch. now rewrite GetUnifiedDiffString_self.
Qed.

(** X2.  The patch of two different documents opens with the two file lines,
    which name the last element of the path, and a range line; there is no
    error. *)
Theorem patch_header (filePath A B : bytes) :
  A <> B ->
  exists rest,
    generatePatch filePath A B =
    (lit "--- a/" ++ filepath.Base filePath ++ [LF] ++
     lit "+++ b/" ++ filepath.Base filePath ++ [LF] ++
     lit "@@ -" ++ rest, None).
Proof. apply generatePatch_differs. Qed.

(** X1.  A patch is empty exactly when the two documents are the same. *)
Theorem patch_empty_iff_identical (filePath A B : bytes) :
  generatePatch filePath A B = ([], None) <-> A = B.
Proof.
  rewrite <- (generatePatch_nil filePath). split.
  - now intros ->.
  - intros H. rewrite generatePatch_groups in *. cbn [fst] in H.
    now rewrite H.
Qed.

(** ** [difflib]: the hunks hold no line feed *)

Lemma Cut_char_before (s before after : bytes) (c : ascii) :
  strings.Cut s [c] = Some (before, after) -> ~ In c before.
Proof.
  revert before. induction s as [|x s IH]; intros before; cbn; [discriminate|].
  destruct (Ascii.eqb c x) eqn:E.
  - intros [= <- _]. intros [].
  - destruct (strings.Cut s [c]) as [[b a]|] eqn:C; [|discriminate].
    intros [= <- <-]. intros [H|H].
    + rewrite H, Ascii.eqb_refl in E. discriminate.
    + now apply (IH b).
Qed.

(** The parts of a split at a character do not hold the character. *)
Lemma Split_char_parts (s : bytes) (c : ascii) :
  Forall (fun part => ~ In c part) (strings.Split s [c]).
Proof.
  assert (H : forall n s, length s <= n ->
            Forall (fun part => ~ In c part) (strings.Split s [c])).
  { induction n as [|n IH]; intros t Ht;
      rewrite Split_unfold by discriminate;
      destruct (strings.Cut t [c]) as [[b a]|] eqn:C.
    - apply Cut_after_length in C. cbn in C. lia.
    - constructor; [|constructor]. destruct t; [intros []|cbn in Ht; lia].
    - constructor; [now apply (Cut_char_before t b a)|].
      apply IH. apply Cut_after_length in C. cbn in C. lia.
    - constructor; [|constructor]. intros Hin.
      apply in_split in Hin as (u & v & ->).
      now apply (Cut_occurs [c] u v). }
  now apply (H (length s)).
Qed.

Lemma Itoa_digits (n : nat) : ~ In LF (fmt.Itoa n).
Proof.
  unfold fmt.Itoa. generalize (Nat.to_uint n). intros d.
  induction d; cbn; intros H; try contradiction;
    destruct H as [H|H]; try discriminate; now apply IHd.
Qed.

Lemma formatRangeUnified_one_line (start stop : nat) :
  ~ In LF (difflib.formatRangeUnified start stop).
Proof.
  unfold difflib.formatRangeUnified.
  destruct (stop - start =? 1).
  - cbn. rewrite app_nil_r. apply Itoa_digits.
  - cbn. rewrite app_nil_r. intros H.
    apply in_app_or in H as [H|[H|H]].
    + revert H. apply Itoa_digits.
    + discriminate.
    + revert H. apply Itoa_digits.
Qed.

Lemma slice_Forall (P : bytes -> Prop) (s : list bytes) (lo hi : nat) :
  Forall P s -> Forall P (difflib.slice s lo hi).
Proof.
  intros H. unfold difflib.slice. apply Forall_forall. intros x Hx.
  rewrite Forall_forall in H. apply H.
  assert (In x (skipn lo s)).
  { revert Hx. generalize (skipn lo s) (hi - lo). intros l n. revert l.
    induction n as [|n IH]; intros [|y l]; cbn; try contradiction.
    intros [->|Hx]; [now left|right; now apply IH]. }
  revert H0. clear. revert s.
  induction lo as [|lo IH]; intros [|y s]; cbn; try contradiction; auto.
Qed.

Lemma write_lines_one_line (prefix : bytes) (lines : list bytes) :
  ~ In LF prefix -> Forall (fun l => ~ In LF l) lines ->
  ~ In LF (difflib.write_lines [] prefix lines).
Proof.
  intros Hp Hl. induction Hl as [|l ls Hl1 Hl IH].
  - intros [].
  - unfold difflib.write_lines. cbn [fold_left].
    fold (difflib.write_lines ([] ++ prefix ++ l) prefix ls).
    rewrite write_lines_app. intros H.
    apply in_app_or in H as [H|H]; [|now apply IH].
    cbn [app] in H. apply in_app_or in H as [H|H]; auto.
Qed.

Section Hunks.

Variable diff : difflib.UnifiedDiff.
Hypothesis HA : Forall (fun l => ~ In LF l) (difflib.DiffA diff).
Hypothesis HB : Forall (fun l => ~ In LF l) (difflib.DiffB diff).

Lemma write_opcode_one_line (c : difflib.OpCode) :
  ~ In LF (difflib.write_opcode diff [] c).
Proof.
  unfold difflib.write_opcode.
  assert (P : forall p : bytes, ~ In LF p -> forall lo hi,
            ~ In LF (difflib.write_lines [] p (difflib.slice (difflib.DiffA diff) lo hi)))
    by (intros; apply write_lines_one_line; [assumption|now apply slice_Forall]).
  assert (Q : forall p : bytes, ~ In LF p -> forall lo hi,
            ~ In LF (difflib.write_lines [] p (difflib.slice (difflib.DiffB diff) lo hi)))
    by (intros; apply write_lines_one_line; [assumption|now apply slice_Forall]).
  assert (S1 : ~ In LF (lit " ")) by (cbn; intuition discriminate).
  assert (S2 : ~ In LF (lit "-")) by (cbn; intuition discriminate).
  assert (S3 : ~ In LF (lit "+")) by (cbn; intuition discriminate).
  destruct (Ascii.eqb (difflib.Tag c) "e"); [now apply P|].
  destruct (_ || _), (_ || _).
  - rewrite write_lines_app. intros H.
    apply in_app_or in H as [H|H]; revert H; [now apply P|now apply Q].
  - first [now apply P|now apply Q].
  - first [now apply P|now apply Q].
  - intros [].
Qed.

Lemma write_opcodes_one_line (g : list difflib.OpCode) :
  ~ In LF (fold_left (difflib.write_opcode diff) g []).
Proof.
  induction g as [|c g IH]; [intros []|].
  cbn [fold_left]. rewrite write_opcodes_app. intros H.
  apply in_app_or in H as [H|H]; [|now apply IH].
  revert H. apply write_opcode_one_line.
Qed.

(** A group after the first is written as one hunk. *)
Lemma write_group_hunk (g : list difflib.OpCode) :
  g <> [] -> difflib.Eol diff = [LF] ->
  exists ranges body,
    fst (difflib.write_group diff ([], true) g) = hunk ranges body /\
    ~ In LF ranges /\ ~ In LF body.
Proof.
  intros Hg He. unfold difflib.write_group.
  destruct g as [|c g]; [congruence|]. cbn [hd_error].
  destruct (hd_error (rev (c :: g))) as [l|] eqn:R.
  2:{ exfalso. destruct (rev (c :: g)) eqn:R'; [|discriminate].
      apply (f_equal (@length _)) in R'. rewrite length_rev in R'. discriminate. }
  cbn [fst]. rewrite write_opcodes_app, He.
  exists (difflib.formatRangeUnified (difflib.I1 c) (difflib.I2 l) ++ lit " +" ++
          difflib.formatRangeUnified (difflib.J1 c) (difflib.J2 l)),
         (fold_left (difflib.write_opcode diff) (c :: g) []).
  split; [|split].
  - unfold hunk.
    cbn [fmt.Sprintf lit list_ascii_of_string Ascii.eqb Bool.eqb fmt.verb_s app].
    rewrite <- !app_assoc. cbn [app]. rewrite <- !app_assoc. reflexivity.
  - intros H. apply in_app_or in H as [H|H].
    + revert H. apply formatRangeUnified_one_line.
    + apply in_app_or in H as [H|H].
      * cbn in H. intuition discriminate.
      * revert H. apply formatRangeUnified_one_line.
  - apply write_opcodes_one_line.
Qed.

Lemma write_groups_hunks (groups : list (list difflib.OpCode)) (buf : bytes) :
  Forall (fun g => g <> []) groups -> difflib.Eol diff = [LF] ->
  exists hunks : list (bytes * bytes),
    fst (fold_left (difflib.write_group diff) groups (buf, true)) =
    buf ++ concat (map (fun h => hunk (fst h) (snd h)) hunks) /\
    length hunks = length groups /\
    Forall (fun h => ~ In LF (fst h) /\ ~ In LF (snd h)) hunks.
Proof.
  intros Hg He. revert buf.
  induction Hg as [|g gs Hg1 Hg IH]; intros buf.
  - exists []. cbn. rewrite app_nil_r. repeat split. constructor.
  - cbn [fold_left]. rewrite write_group_app.
    destruct (write_group_hunk g Hg1 He) as (ranges & body & E & H1 & H2).
    destruct (IH (buf ++ fst (difflib.write_group diff ([], true) g)))
      as (hunks & F & L & H).
    exists ((ranges, body) :: hunks). split; [|split].
    + etransitivity; [exact F|]. rewrite E. cbn [map concat fst snd].
      now rewrite <- !app_assoc.
    + cbn. now rewrite L.
    + constructor; [now split|assumption].
Qed.

End Hunks.

(** The first group writes the two file lines before its hunk. *)
Lemma write_group_first (diff : difflib.UnifiedDiff) (g : list difflib.OpCode) :
  difflib.FromFile diff <> [] ->
  difflib.FromDate diff = [] -> difflib.ToDate diff = [] ->
  fst (difflib.write_group diff ([], false) g) =
  (lit "--- " ++ difflib.FromFile diff ++ difflib.Eol diff ++
   lit "+++ " ++ difflib.ToFile diff ++ difflib.Eol diff) ++
  fst (difflib.write_group diff ([], true) g).
Proof.
  intros Hf Hfd Htd. unfold difflib.write_group.
  rewrite Hfd, Htd. cbn [length Nat.ltb Nat.leb].
  replace (bytes_eqb (difflib.FromFile diff) []) with false
    by (symmetry; now apply bytes_eqb_neq).
  cbn [negb orb].
  set (header := [] ++ fmt.Sprintf _ _ ++ fmt.Sprintf _ _).
  assert (E : header =
              lit "--- " ++ difflib.FromFile diff ++ difflib.Eol diff ++
              lit "+++ " ++ difflib.ToFile diff ++ difflib.Eol diff).
  { subst header.
    cbn [fmt.Sprintf lit list_ascii_of_string Ascii.eqb Bool.eqb fmt.verb_s app].
    rewrite <- !app_assoc. cbn [app]. rewrite !app_nil_r. reflexivity. }
  rewrite E.
  destruct (hd_error g), (hd_error (rev g)); cbn [fst];
    rewrite ?app_nil_r; try reflexivity.
  rewrite write_opcodes_app, (write_opcodes_app _ _ ([] ++ _)).
  now rewrite ?app_nil_l, ?app_nil_r, !app_assoc, ?app_nil_r.
Qed.

(** X3.  Every hunk of a patch is two lines: the range line, and the lines of
    the hunk one after the other with no line feed between them.  The
    lines come from [strings.Split] without their line feeds and
    [WriteUnifiedDiff] adds none. *)
Theorem patch_hunks_on_one_line (filePath original updated : bytes) :
  exists hunks : list (bytes * bytes),
    fst (generatePatch filePath original updated) =
    match hunks with
    | [] => []
    | _ => fileLines filePath
    end ++ concat (map (fun h => hunk (fst h) (snd h)) hunks) /\
    Forall (fun h => ~ In LF (fst h) /\ ~ In LF (snd h)) hunks.
Proof.
  rewrite generatePatch_groups. cbn [fst].
  pose proof (GetGroupedOpCodes_nonempty
                (strings.Split original [LF]) (strings.Split updated [LF]) 3)
    as Hg.
  set (diff := {| difflib.DiffA := strings.Split original [LF];
                  difflib.DiffB := strings.Split updated [LF];
                  difflib.FromFile := lit "a/" ++ filepath.Base filePath;
                  difflib.FromDate := [];
                  difflib.ToFile := lit "b/" ++ filepath.Base filePath;
                  difflib.ToDate := [];
                  difflib.Eol := [LF];
                  difflib.Context := 3 |}).
  assert (HA : Forall (fun l => ~ In LF l) (difflib.DiffA diff))
    by apply Split_char_parts.
  assert (HB : Forall (fun l => ~ In LF l) (difflib.DiffB diff))
    by apply Split_char_parts.
  destruct (difflib.GetGroupedOpCodes _ _ 3) as [|g gs].
  - exists []. split; [reflexivity|constructor].
  - inversion Hg as [|? ? Hg1 Hgs]; subst.
    cbn [fold_left]. rewrite write_group_app, app_nil_l.
    rewrite write_group_first by (try reflexivity; discriminate).
    destruct (write_group_hunk diff HA HB g Hg1 eq_refl)
      as (ranges & body & E & H1 & H2).
    rewrite E.
    destruct (write_groups_hunks diff HA HB gs
                ((lit "--- " ++ difflib.FromFile diff ++ difflib.Eol diff ++
                  lit "+++ " ++ difflib.ToFile diff ++ difflib.Eol diff) ++
                 hunk ranges body) Hgs eq_refl)
      as (hunks & F & _ & H).
    exists ((ranges, body) :: hunks). split.
    + etransitivity; [exact F|].
      cbn [map concat fst snd difflib.FromFile difflib.ToFile difflib.Eol].
      unfold fileLines. rewrite <- !app_assoc. reflexivity.
    + constructor; [now split|assumption].
Qed.

(** ** [filepath]: the last element of a joined path *)

Lemma Cut_char_app (s t : bytes) (c : ascii) :
  strings.Cut (s ++ c :: t) [c] =
  match strings.Cut s [c] with
  | Some (before, after) => Some (before, after ++ c :: t)
  | None => Some (s, t)
  end.
Proof.
  induction s as [|x s IH].
  - cbn. now rewrite Ascii.eqb_refl.
  - cbn [app strings.Cut strings.strip].
    destruct (Ascii.eqb c x); [reflexivity|].
    rewrite IH. now destruct (strings.Cut s [c]) as [[b a]|].
Qed.

Lemma char_sep (c : ascii) : [c] <> [].
Proof. discriminate. Qed.

(** Splitting at a character splits the text before and the text after an
    instance of it. *)
Lemma Split_char_app (s t : bytes) (c : ascii) :
  strings.Split (s ++ c :: t) [c] = strings.Split s [c] ++ strings.Split t [c].
Proof.
  assert (H : forall n s, length s <= n ->
            strings.Split (s ++ c :: t) [c] =
            strings.Split s [c] ++ strings.Split t [c]).
  { induction n as [|n IH]; intros u Hu;
      rewrite (Split_unfold (u ++ c :: t)), (Split_unfold u) by apply char_sep;
      rewrite Cut_char_app;
      destruct (strings.Cut u [c]) as [[b a]|] eqn:C; try reflexivity.
    - apply Cut_after_length in C. cbn in C. lia.
    - apply Cut_after_length in C. cbn in C.
      cbn [app]. f_equal. apply IH. lia. }
  now apply (H (length s)).
Qed.

Lemma Split_absent (s : bytes) (c : ascii) :
  ~ In c s -> strings.Split s [c] = [s].
Proof.
  intros H. rewrite Split_unfold by apply char_sep. now rewrite Cut_absent.
Qed.

Lemma Join_snoc (elems : list bytes) (e sep : bytes) :
  strings.Join (elems ++ [e]) sep =
  match elems with
  | [] => e
  | _ => strings.Join elems sep ++ sep ++ e
  end.
Proof.
  induction elems as [|x elems IH]; [reflexivity|].
  destruct elems as [|y elems]; [reflexivity|].
  change (strings.Join ((x :: y :: elems) ++ [e]) sep)
    with (x ++ sep ++ strings.Join ((y :: elems) ++ [e]) sep).
  rewrite IH.
  change (strings.Join (x :: y :: elems) sep)
    with (x ++ sep ++ strings.Join (y :: elems) sep).
  now rewrite <- !app_assoc.
Qed.

Lemma Clean_nonempty (path : bytes) : filepath.Clean path <> [].
Proof.
  unfold filepath.Clean.
  destruct (_ ++ _); discriminate.
Qed.

(** Cleaning a path that ends with a separator and a plain name keeps the
    name at the end, after a separator or alone. *)
Lemma Clean_last (d name : bytes) :
  plainName name ->
  exists pre,
    filepath.Clean (d ++ lit "/" ++ name) = pre ++ name /\
    (pre = [] \/ exists pre', pre = pre' ++ lit "/").
Proof.
  intros (Hne & Hsep & Hdot & Hdots).
  unfold filepath.Clean.
  generalize (match d ++ lit "/" ++ name with
              | c :: _ => filepath.is_sep c
              | [] => false
              end).
  intros rooted.
  change (lit "/" ++ name) with ("/"%char :: name).
  rewrite Split_char_app, (Split_absent name) by assumption.
  rewrite fold_left_app. cbn [fold_left].
  match goal with
  | |- context [filepath.clean_step rooted ?k name] => generalize k
  end.
  intros kept.
  unfold filepath.clean_step.
  replace (bytes_eqb name []) with false
    by (symmetry; now apply bytes_eqb_neq).
  replace (bytes_eqb name (lit ".")) with false
    by (symmetry; now apply bytes_eqb_neq).
  replace (bytes_eqb name (lit "..")) with false
    by (symmetry; now apply bytes_eqb_neq).
  cbn [orb rev]. rewrite Join_snoc.
  assert (M : forall l : bytes,
             l <> [] ->
             match l with [] => lit "." | x :: l' => x :: l' end = l)
    by (intros [|? ?] ?; [congruence|reflexivity]).
  destruct rooted, (rev kept) as [|k ks].
  - exists (lit "/"). split; [reflexivity|]. right. now exists [].
  - exists (lit "/" ++ strings.Join (k :: ks) (lit "/") ++ lit "/").
    split; [now rewrite <- !app_assoc|].
    right. exists (lit "/" ++ strings.Join (k :: ks) (lit "/")).
    now rewrite <- !app_assoc.
  - exists []. split; [|now left]. now apply (M ([] ++ name)).
  - exists (strings.Join (k :: ks) (lit "/") ++ lit "/").
    split; [|right; now eexists].
    rewrite <- !app_assoc.
    apply (M (strings.Join (k :: ks) (lit "/") ++ lit "/" ++ name)).
    intros E. apply app_eq_nil in E as [_ E]. discriminate.
Qed.

Lemma take_elem_app (a b : bytes) :
  ~ In "/"%char a ->
  (b = [] \/ exists b', b = "/"%char :: b') ->
  filepath.take_elem (a ++ b) = a.
Proof.
  intros Ha Hb. induction a as [|x a IH].
  - destruct Hb as [->|(b' & ->)]; reflexivity.
  - cbn [app filepath.take_elem]. unfold filepath.is_sep.
    destruct (Ascii.eqb x "/") eqn:E.
    + apply Ascii.eqb_eq in E. subst x. exfalso. apply Ha. now left.
    + f_equal. apply IH. intros H. apply Ha. now right.
Qed.

Lemma Base_last (pre name : bytes) :
  name <> [] -> ~ In "/"%char name ->
  (pre = [] \/ exists pre', pre = pre' ++ lit "/") ->
  filepath.Base (pre ++ name) = name.
Proof.
  intros Hne Hsep Hpre. unfold filepath.Base.
  destruct (pre ++ name) eqn:E.
  { apply app_eq_nil in E. now destruct E. }
  rewrite <- E, rev_app_distr.
  assert (Hr : ~ In "/"%char (rev name)) by now rewrite <- in_rev.
  assert (D : filepath.drop_seps (rev name ++ rev pre) = rev name ++ rev pre).
  { destruct (rev name) as [|x r] eqn:R.
    - apply (f_equal (@rev _)) in R. rewrite rev_involutive in R. now subst.
    - cbn [app filepath.drop_seps]. unfold filepath.is_sep.
      destruct (Ascii.eqb x "/") eqn:Q; [|reflexivity].
      apply Ascii.eqb_eq in Q. subst x. exfalso. apply Hr. now left. }
  rewrite D, take_elem_app, rev_involutive.
  - destruct name; [congruence|reflexivity].
  - assumption.
  - destruct Hpre as [->|(pre' & ->)]; [now left|right].
    rewrite rev_app_distr. cbn. now eexists.
Qed.

(** The last element of [filepath.Join(dir, name)] is [name]. *)
Lemma Base_Join (dir name : bytes) :
  dir <> [] -> plainName name ->
  filepath.Base (filepath.Join [dir; name]) = name.
Proof.
  intros Hd Hn. unfold filepath.Join.
  destruct dir as [|c dir]; [congruence|]. cbn [filepath.drop_empty].
  change (strings.Join [c :: dir; name] (lit "/"))
    with ((c :: dir) ++ lit "/" ++ name).
  destruct (Clean_last (c :: dir) name Hn) as (pre & -> & Hpre).
  destruct Hn as (Hne & Hsep & _). now apply Base_last.
Qed.

Lemma Join_nonempty (e : bytes) (elem : list bytes) :
  e <> [] -> filepath.Join (elem ++ [e]) <> [].
Proof.
  intros He. unfold filepath.Join.
  destruct (filepath.drop_empty (elem ++ [e])) eqn:E.
  - exfalso. induction elem as [|x elem IH].
    + cbn in E. destruct e; [congruence|discriminate].
    + cbn in E. destruct x; [now apply IH|discriminate].
  - apply Clean_nonempty.
Qed.

(** ** Documents without placeholders *)

Lemma ReplaceAllString_nobrace (kind name s repl : bytes) :
  ~ In LB s ->
  regexp.ReplaceAllString (placeholderPattern kind name) s repl = s.
Proof.
  intros H. rewrite <- (app_nil_r s) at 1.
  rewrite ReplaceAllString_skip_nobrace by assumption.
  now rewrite ReplaceAllString_nil, app_nil_r.
Qed.

Lemma singleEntityRewrite_nobrace (content e : bytes) :
  ~ In LB content -> singleEntityRewrite content e = content.
Proof.
  intros H. unfold singleEntityRewrite.
  rewrite fieldsPattern_shape, eventPattern_shape.
  rewrite (ReplaceAllString_nobrace fieldsKind) by assumption.
  now apply ReplaceAllString_nobrace.
Qed.

(** X4.  A document without an opening brace comes back unchanged, whatever
    the names of the entities, unless there are several entities and the
    document splits in two at one of the headers. *)
Theorem document_without_braces_unchanged
    (content : bytes) (dataStreams : list bytes) :
  ~ In LB content ->
  (2 <= length dataStreams ->
   length (strings.Split content ecsHeader) <> 2 /\
   length (strings.Split content sampleHeader) <> 2) ->
  applyDataStreamPlaceholders content dataStreams = content.
Proof.
  intros Hb Hs.
  destruct dataStreams as [|e [|e' ds]].
  - reflexivity.
  - rewrite apply_single. now apply singleEntityRewrite_nobrace.
  - destruct Hs as [H1 H2]; [cbn; lia|].
    rewrite apply_multi by (cbn; lia). cbv zeta.
    rewrite (Split_not_two _ _ H1). cbn [negb].
    rewrite (Split_not_two _ _ H2). cbn [negb nth].
    now apply singleEntityRewrite_nobrace.
Qed.

Lemma document_without_braces_unchanged_witness :
  applyDataStreamPlaceholders (lit "# Title $1 plain text")
    [lit "a$b"; lit "c"] = lit "# Title $1 plain text".
Proof.
  apply document_without_braces_unchanged.
  - cbn. intuition discriminate.
  - intros _. split; vm_compute; discriminate.
Defined.

(** ** Discovery: the errors *)

(** X5.  The only error of discovery is that of the listing, wrapped; it comes
    with no name.  An error of [os.Stat] other than "not exist" is never
    reported. *)
Theorem discovery_error_is_listing_error
    (fs : os.FileSystem) (pkgPath : bytes) (names : list bytes)
    (e : os.error) :
  findDataStreams fs pkgPath = (names, Some e) ->
  names = [] /\
  exists cause,
    snd (os.ReadDir fs (filepath.Join [pkgPath; lit "data_stream"]))
    = Some cause /\
    e = os.Wrapped (lit "failed to read data_stream directory: ") cause.
Proof.
  unfold findDataStreams.
  destruct (os.IsNotExist _); [discriminate|].
  destruct (os.ReadDir fs _) as [entries [cause|]]; [|discriminate].
  intros [= <- <-]. split; [reflexivity|]. now exists cause.
Qed.

Lemma discovery_error_is_listing_error_witness :
  [] = @nil bytes /\
  exists cause,
    snd (os.ReadDir
           {| os.Stat := fun _ => Some os.ErrPermission;
              os.ReadDir := fun _ => ([], Some os.ErrPermission) |}
           (filepath.Join [lit "pkg"; lit "data_stream"]))
    = Some cause /\
    os.Wrapped (lit "failed to read data_stream directory: ") os.ErrPermission
    = os.Wrapped (lit "failed to read data_stream directory: ") cause.
Proof.
  apply (discovery_error_is_listing_error
           {| os.Stat := fun _ => Some os.ErrPermission;
              os.ReadDir := fun _ => ([], Some os.ErrPermission) |}
           (lit "pkg")).
  reflexivity.
Defined.

(** ** The single-entity rewrite leaves nothing to rewrite *)

Lemma startsGeneric_braces (s : bytes) :
  startsGeneric s -> exists t, s = LB :: LB :: t.
Proof.
  intros (kind & ws & rest & _ & _ & _ & ->).
  rewrite genericPlaceholder_shape. now eexists.
Qed.

(** Text without an opening brace is kept. *)
Lemma Rewritten_copy_nobrace (e a t t' : bytes) :
  ~ In LB a -> Rewritten e t t' -> Rewritten e (a ++ t) (a ++ t').
Proof.
  intros Ha H. induction a as [|x a IH]; [exact H|].
  cbn [app]. apply RW_other.
  - intros G. apply startsGeneric_braces in G as (u & [= -> _]).
    apply Ha. now left.
  - apply IH. intros Hin. apply Ha. now right.
Qed.

(** An output that starts with text without an opening brace comes from a
    document that starts with the same text. *)
Lemma Rewritten_prefix (e a : bytes) :
  ~ In LB a ->
  forall d r', Rewritten e d (a ++ r') ->
  exists r, d = a ++ r /\ Rewritten e r r'.
Proof.
  intros Ha. induction a as [|x a IH]; intros d r' H.
  - now exists d.
  - cbn [app] in H. remember (x :: a ++ r') as o eqn:Ho.
    destruct H as [|kind ws rest out Hk Hne Hws H1|c d0 out Hno H1].
    + discriminate.
    + exfalso. rewrite placeholder_shape in Ho. injection Ho as Ho _.
      apply Ha. now left.
    + injection Ho as -> ->.
      destruct (IH (fun Hin => Ha (or_intror Hin)) d0 r' H1)
        as (r & -> & Hr).
      now exists r.
Qed.

Lemma kind_head (kind : bytes) :
  isKind kind -> exists k rest, kind = k :: rest /\ k <> LB.
Proof.
  intros [-> | ->]; eexists; eexists; (split; [reflexivity|discriminate]).
Qed.

Lemma placeholder_body_nobrace (kind e : bytes) :
  isKind kind -> ~ In LB e ->
  ~ In LB (kind ++ lit " " ++ DQ :: e ++ DQ :: lit "}}").
Proof.
  intros Hk He Hin. apply in_app_iff in Hin as [Hin|Hin].
  - now apply (isKind_nobrace kind).
  - cbn [app lit list_ascii_of_string] in Hin.
    destruct Hin as [Hin|[Hin|Hin]]; try discriminate.
    apply in_app_iff in Hin as [Hin|Hin]; [now apply He|].
    cbv in Hin. intuition discriminate.
Qed.

(** The placeholder bound to a name other than the generic one is not a
    generic placeholder. *)
Lemma placeholder_not_generic (kind e t : bytes) :
  isKind kind -> ~ In DQ e -> e <> genericName ->
  ~ startsGeneric (placeholder kind e ++ t).
Proof.
  intros Hk He Hne (kind' & ws & rest & Hk' & Hw & Hws & E).
  rewrite placeholder_shape, genericPlaceholder_shape in E.
  cbn [app] in E. injection E as E.
  assert (K : kind = kind').
  { destruct Hk as [-> | ->], Hk' as [-> | ->]; trivial; cbn in E;
      discriminate. }
  subst kind'. rewrite <- !app_assoc in E. apply app_inv_head in E.
  assert (S : whitespace (lit " ")) by reflexivity.
  cbn [app] in E. rewrite <- !app_assoc in E.
  destruct (whitespace_run_inj (lit " ") ws _ _ S Hws E) as [_ E'].
  symmetry in E'.
  apply (app_eq_absent DQ e (DQ :: lit "}}" ++ t) genericName
           (lit "}}" ++ rest)) in E' as (b' & G & Q); [|assumption].
  destruct b' as [|q b'].
  - apply Hne. now rewrite app_nil_r in G.
  - cbn in Q. injection Q as <- _.
    assert (In DQ genericName) by (rewrite G; apply in_or_app; right; now left).
    cbv in H. intuition discriminate.
Qed.

(** The output of the rewrite for a name without opening brace and double
    quote holds no generic placeholder, or only those the rewrite for the
    generic name itself puts there: rewriting it again changes nothing. *)
Lemma Rewritten_fixed (e d out : bytes) :
  ~ In LB e -> ~ In DQ e -> Rewritten e d out -> Rewritten e out out.
Proof.
  intros He Hq H.
  induction H as [|kind ws rest out Hk Hne Hws H IH|c d out Hno H IH].
  - constructor.
  - destruct (list_eq_dec ascii_dec e genericName) as [->|Hg].
    + change (placeholder kind genericName)
        with (genericPlaceholder kind (lit " ")) at 1.
      apply RW_placeholder; try assumption; [discriminate|reflexivity].
    + pose proof (placeholder_not_generic kind e out Hk Hq Hg) as N1.
      pose proof (placeholder_body_nobrace kind e Hk He) as NB.
      destruct (kind_head kind Hk) as (k & ks & Ek & Hk0).
      assert (S : placeholder kind e ++ out =
                  LB :: LB :: (kind ++ lit " " ++ DQ :: e ++ DQ :: lit "}}") ++ out)
        by (rewrite placeholder_shape; reflexivity).
      rewrite S in *.
      remember (kind ++ lit " " ++ DQ :: e ++ DQ :: lit "}}") as B eqn:EB.
      apply RW_other; [exact N1|].
      apply RW_other.
      * intros G. apply startsGeneric_braces in G as (u & G).
        rewrite EB, Ek in G. cbn [app] in G. injection G as G _. congruence.
      * now apply Rewritten_copy_nobrace.
  - apply RW_other; [|exact IH].
    intros (kind & ws & rest & Hk & Hne & Hws & E).
    pose proof (generic_body_nobrace kind ws Hk Hws) as NB.
    remember (kind ++ ws ++ DQ :: genericName ++ DQ :: lit "}}") as B eqn:EB.
    assert (E' : c :: out = LB :: LB :: B ++ rest)
      by (rewrite E, genericPlaceholder_shape, EB; reflexivity).
    clear E. assert (Ec : c = LB) by congruence.
    assert (Eo : out = LB :: B ++ rest) by congruence.
    subst c. clear E' IH.
    remember (LB :: B ++ rest) as o eqn:Ho. subst out.
    destruct H as [|kind' ws' rest' out' Hk' Hne' Hws' H|c d' out' Hno' H].
    + discriminate.
    + rewrite placeholder_shape in Ho. cbn [app] in Ho. injection Ho as Ho.
      destruct (kind_head kind Hk) as (k & ks & Ek & Hk0).
      rewrite EB, Ek in Ho. cbn [app] in Ho. injection Ho as Ho _. congruence.
    + injection Ho as -> ->.
      destruct (Rewritten_prefix e B NB d' rest H) as (r & -> & _).
      apply Hno. exists kind, ws, r. repeat split; try assumption.
      rewrite genericPlaceholder_shape, <- EB. reflexivity.
Qed.

Lemma nobrace_no_opener (e : bytes) :
  ~ In LB e -> strings.Contains e eventOpener = false.
Proof.
  intros He. unfold strings.Contains.
  destruct (strings.Cut e eventOpener) as [[b a]|] eqn:C; [|reflexivity].
  apply Cut_Some in C. exfalso. apply He. rewrite C.
  apply in_or_app. right. now left.
Qed.

(** X24.  Rewriting twice for the same entity is rewriting once, for a name
    without opening brace, double quote and dollar sign: the first rewrite
    leaves no generic placeholder behind (for the generic name itself it
    leaves them with one space). *)
Theorem single_entity_rewrite_idempotent (content e : bytes) :
  ~ In LB e -> ~ In DQ e -> ~ In "$"%char e ->
  applyDataStreamPlaceholders (applyDataStreamPlaceholders content [e]) [e]
  = applyDataStreamPlaceholders content [e].
Proof.
  intros He Hq Hd. rewrite !apply_single.
  pose proof (nobrace_no_opener e He) as Ho.
  pose proof (singleEntityRewrite_Rewritten e Ho Hd _ content (le_n _)) as R1.
  pose proof (singleEntityRewrite_Rewritten e Ho Hd _
                (singleEntityRewrite content e) (le_n _)) as R2.
  pose proof (Rewritten_fixed e _ _ He Hq R1) as R3.
  exact (Rewritten_functional e _ _ _ R2 R3).
Qed.

Lemma single_entity_rewrite_idempotent_witness :
  applyDataStreamPlaceholders
    (applyDataStreamPlaceholders sampleDocument [lit "audit"]) [lit "audit"]
  = applyDataStreamPlaceholders sampleDocument [lit "audit"].
Proof.
  apply single_entity_rewrite_idempotent; cbv; intuition discriminate.
Defined.

(** ** [fetchTemplate] *)

Section FetchTemplate.

Variable World : Type.
Variable sys : System World.

Lemma fetchTemplate_unfold (s : state World) :
  fetchTemplate World sys s =
  let '((resp, err), w1) := http_Get sys templateURL (fst s) in
  let tr1 := snd s ++ [Get templateURL] in
  match err with
  | Some e => (Returns ([], Some e), (w1, tr1))
  | None =>
      let body := http.Body resp in
      if negb (http.StatusCode resp =? http.StatusOK) then
        (Returns ([], Some (New (lit "failed to fetch template, status: " ++
                                 http.Status resp))),
         (Body_Close sys body w1, tr1 ++ [BodyClose body]))
      else
        let '((data, err), w2) := io_ReadAll sys body w1 in
        (Returns (match err with Some e => ([], Some e) | None => (data, None) end),
         (Body_Close sys body w2, (tr1 ++ [ReadAll body]) ++ [BodyClose body]))
  end.
Proof.
  unfold fetchTemplate, bind, act, defer, ret.
  destruct (http_Get sys templateURL (fst s)) as [[resp [e|]] w1];
    cbn [fst snd]; [reflexivity|].
  destruct (negb _); cbn [fst snd].
  - cbn [fmt.Sprintf lit list_ascii_of_string Ascii.eqb Bool.eqb fmt.verb_s app].
    rewrite app_nil_r. reflexivity.
  - destruct (io_ReadAll sys (http.Body resp) w1) as [[data [e|]] w2];
      reflexivity.
Qed.

(** X6.  [fetchTemplate] returns a template and no error exactly when the
    request succeeds with the status 200 and its body is read without
    error; the template is the body, and the body is closed last. *)
Theorem fetchTemplate_template_iff (s s' : state World) (template : bytes) :
  fetchTemplate World sys s = (Returns (template, None), s') <->
  exists resp w1 w2,
    http_Get sys templateURL (fst s) = ((resp, None), w1) /\
    http.StatusCode resp = 200 /\
    io_ReadAll sys (http.Body resp) w1 = ((template, None), w2) /\
    s' = (Body_Close sys (http.Body resp) w2,
          snd s ++ [Get templateURL; ReadAll (http.Body resp);
                    BodyClose (http.Body resp)]).
Proof.
  rewrite fetchTemplate_unfold. split.
  - destruct (http_Get sys templateURL (fst s)) as [[resp [e|]] w1];
      [discriminate|].
    cbv zeta. destruct (http.StatusCode resp =? http.StatusOK) eqn:Q;
      cbn [negb]; [|discriminate].
    destruct (io_ReadAll sys (http.Body resp) w1) as [[data [e|]] w2] eqn:R;
      [discriminate|].
    intros [= -> <-]. exists resp, w1, w2.
    apply Nat.eqb_eq in Q. repeat split; try assumption.
    now rewrite <- !app_assoc.
  - intros (resp & w1 & w2 & -> & Q & R & ->). cbv zeta.
    unfold http.StatusOK. rewrite Q, Nat.eqb_refl. cbn [negb]. rewrite R.
    now rewrite <- !app_assoc.
Qed.

(** X7.  Every response is closed: when the request succeeds, closing its body
    is the last call, whatever the status and whether or not the body could
    be read; when it fails, nothing else is called. *)
Theorem fetchTemplate_closes_body (s : state World) :
  let '((resp, err), _) := http_Get sys templateURL (fst s) in
  let tr := snd (snd (fetchTemplate World sys s)) in
  match err with
  | Some _ => tr = snd s ++ [Get templateURL]
  | None =>
      exists mid,
        tr = snd s ++ Get templateURL :: mid ++ [BodyClose (http.Body resp)] /\
        filter isBodyClose mid = []
  end.
Proof.
  rewrite fetchTemplate_unfold.
  destruct (http_Get sys templateURL (fst s)) as [[resp [e|]] w1];
    [reflexivity|].
  cbv zeta. destruct (negb _).
  - exists []. cbn [snd app]. now rewrite <- app_assoc.
  - destruct (io_ReadAll sys (http.Body resp) w1) as [[data err] w2].
    exists [ReadAll (http.Body resp)]. cbn [snd app filter isBodyClose].
    now rewrite <- !app_assoc.
Qed.

(** X8.  A status other than 200 is an error that carries the status line; the
    body is closed without being read. *)
Theorem fetchTemplate_bad_status (s : state World) (resp : http.Response)
    (w1 : World) :
  http_Get sys templateURL (fst s) = ((resp, None), w1) ->
  http.StatusCode resp <> 200 ->
  fetchTemplate World sys s =
  (Returns ([], Some (New (lit "failed to fetch template, status: " ++
                           http.Status resp))),
   (Body_Close sys (http.Body resp) w1,
    snd s ++ [Get templateURL; BodyClose (http.Body resp)])).
Proof.
  intros G Q. rewrite fetchTemplate_unfold, G. cbv zeta.
  apply Nat.eqb_neq in Q. unfold http.StatusOK. rewrite Q. cbn [negb].
  now rewrite <- app_assoc.
Qed.

End FetchTemplate.

(** ** [generateUpdatedReadme] *)

Section GenerateUpdatedReadme.

Variable World : Type.
Variable sys : System World.
Variable googleAPIKey : bytes.
Variable verbose : bool.

Lemma generateUpdatedReadme_unfold (readmeContent templateContent : bytes)
    (s : state World) :
  generateUpdatedReadme World sys googleAPIKey verbose
    readmeContent templateContent s =
  let '((client, err), w1) := genai_NewClient sys googleAPIKey (fst s) in
  let tr1 := snd s ++ [NewClient googleAPIKey] in
  match err with
  | Some e =>
      (Returns ([], Some (Wrap (lit "error creating Gemini client: ") e)),
       (w1, tr1))
  | None =>
      let w2 := if verbose then Client_ListModels sys client w1 else w1 in
      let tr2 := if verbose then tr1 ++ [ListModels client] else tr1 in
      let parts := [genai.Text (completePrompt readmeContent templateContent)] in
      let '((resp, err), w3) :=
        Model_GenerateContent sys (theModel client) parts w2 in
      let s' :=
        (Client_Close sys client w3,
         (tr2 ++ [GenerateContent (theModel client) parts]) ++
         [ClientClose client]) in
      match err with
      | Some e =>
          (Returns ([], Some (Wrap (lit "error generating content with gemini-2.5-pro: ") e)), s')
      | None =>
          match firstPart resp with
          | NoCandidate | NoPart =>
              (Returns ([], Some (New (lit "no response received from Gemini"))), s')
          | NilContent => (Panics, s')
          | TextPart text => (Returns (text, None), s')
          | OtherKind =>
              (Returns ([], Some (New (lit "unexpected response type from Gemini"))), s')
          end
      end
  end.
Proof.
  unfold generateUpdatedReadme, bind, act, act_, defer, ret, panic, firstPart.
  destruct (genai_NewClient sys googleAPIKey (fst s)) as [[client [e|]] w1];
    cbn [fst snd]; [reflexivity|].
  fold (theModel client).
  destruct verbose; cbn [fst snd];
    destruct (Model_GenerateContent sys _ _ _) as [[resp [e|]] w3];
    cbn [fst snd]; try reflexivity;
    destruct (genai.Candidates resp) as [|c cs]; try reflexivity;
    destruct (genai.Content c) as [content|]; try reflexivity;
    destruct (genai.Parts content) as [|[text|] ps]; reflexivity.
Qed.

(** X9.  [generateUpdatedReadme] returns a text and no error exactly when the
    client is created, the request succeeds and the first part of the first
    candidate is a text; it returns that text, whatever the other parts and
    candidates are. *)
Theorem generateUpdatedReadme_text_iff (readmeContent templateContent : bytes)
    (s s' : state World) (text : bytes) :
  generateUpdatedReadme World sys googleAPIKey verbose
    readmeContent templateContent s = (Returns (text, None), s') <->
  exists client w1 resp w3,
    genai_NewClient sys googleAPIKey (fst s) = ((client, None), w1) /\
    Model_GenerateContent sys (theModel client)
      [genai.Text (completePrompt readmeContent templateContent)]
      (if verbose then Client_ListModels sys client w1 else w1)
    = ((resp, None), w3) /\
    firstPart resp = TextPart text /\
    fst s' = Client_Close sys client w3 /\
    snd s' =
    snd s ++ NewClient googleAPIKey ::
    (if verbose then [ListModels client] else []) ++
    [GenerateContent (theModel client)
       [genai.Text (completePrompt readmeContent templateContent)];
     ClientClose client].
Proof.
  rewrite generateUpdatedReadme_unfold. split.
  - destruct (genai_NewClient sys googleAPIKey (fst s))
      as [[client [e|]] w1]; [discriminate|].
    cbv zeta.
    destruct (Model_GenerateContent sys _ _ _) as [[resp [e|]] w3] eqn:G;
      [discriminate|].
    destruct (firstPart resp) eqn:F; try discriminate.
    intros [= -> <-]. exists client, w1, resp, w3.
    repeat split; try reflexivity; try assumption. cbn [snd].
    clear G. destruct verbose; now rewrite <- !app_assoc.
  - intros (client & w1 & resp & w3 & -> & G & F & E). cbv zeta.
    rewrite G, F. destruct s' as [w' tr']. cbn [fst snd] in *.
    destruct E as [-> ->]. do 2 f_equal.
    clear G. destruct verbose; now rewrite <- !app_assoc.
Qed.

(** X10.  Once the client is created it is closed, by the last call of the run:
    when the request fails, when the response is refused, and when the run
    panics.  When the client cannot be created nothing else is called. *)
Theorem generateUpdatedReadme_closes_client
    (readmeContent templateContent : bytes) (s : state World) :
  let '((client, err), _) := genai_NewClient sys googleAPIKey (fst s) in
  let tr :=
    snd (snd (generateUpdatedReadme World sys googleAPIKey verbose
                readmeContent templateContent s)) in
  match err with
  | Some _ => tr = snd s ++ [NewClient googleAPIKey]
  | None =>
      exists mid,
        tr = snd s ++ NewClient googleAPIKey :: mid ++ [ClientClose client] /\
        filter isClientClose mid = []
  end.
Proof.
  rewrite generateUpdatedReadme_unfold.
  destruct (genai_NewClient sys googleAPIKey (fst s)) as [[client [e|]] w1];
    [reflexivity|].
  cbv zeta.
  destruct (Model_GenerateContent sys _ _ _) as [[resp err] w3].
  exists ((if verbose then [ListModels client] else []) ++
          [GenerateContent (theModel client)
             [genai.Text (completePrompt readmeContent templateContent)]]).
  split.
  - assert (E : forall (o : outcome (bytes * goerror)) (st : state World) tr,
                snd st = tr -> snd (snd (o, st)) = tr) by (intros; assumption).
    destruct err as [e|]; [|destruct (firstPart resp)]; apply E; cbn [snd];
      destruct verbose; now rewrite <- ?app_assoc.
  - destruct verbose; reflexivity.
Qed.

(** X11.  The run panics exactly when the client is created, the request
    succeeds and the first candidate has no content. *)
Theorem generateUpdatedReadme_panics_iff
    (readmeContent templateContent : bytes) (s : state World) :
  fst (generateUpdatedReadme World sys googleAPIKey verbose
         readmeContent templateContent s) = Panics <->
  exists client w1 resp w3,
    genai_NewClient sys googleAPIKey (fst s) = ((client, None), w1) /\
    Model_GenerateContent sys (theModel client)
      [genai.Text (completePrompt readmeContent templateContent)]
      (if verbose then Client_ListModels sys client w1 else w1)
    = ((resp, None), w3) /\
    exists candidate rest,
      genai.Candidates resp = candidate :: rest /\
      genai.Content candidate = None.
Proof.
  rewrite generateUpdatedReadme_unfold. split.
  - destruct (genai_NewClient sys googleAPIKey (fst s))
      as [[client [e|]] w1]; [discriminate|].
    cbv zeta.
    destruct (Model_GenerateContent sys _ _ _) as [[resp [e|]] w3] eqn:G;
      [discriminate|].
    destruct (firstPart resp) eqn:F; try discriminate.
    intros _. exists client, w1, resp, w3. split; [reflexivity|].
    split; [exact G|].
    unfold firstPart in F.
    destruct (genai.Candidates resp) as [|c cs]; [discriminate|].
    exists c, cs. split; [reflexivity|].
    destruct (genai.Content c) as [content|]; [|reflexivity].
    destruct (genai.Parts content) as [|[t|] ps]; discriminate.
  - intros (client & w1 & resp & w3 & -> & G & c & cs & C & N). cbv zeta.
    rewrite G. unfold firstPart. now rewrite C, N.
Qed.

End GenerateUpdatedReadme.

(** ** The prompt *)

Lemma Sprintf_systemPrompt (readmeContent templateContent : bytes) :
  fmt.Sprintf systemPrompt [fmt.Str readmeContent; fmt.Str templateContent] =
  promptIntro ++ lit "# Original README content:" ++ [LF] ++
  readmeContent ++ [LF; LF] ++
  lit "# New template structure:" ++ [LF] ++
  templateContent ++ [LF].
Proof. cbv. reflexivity. Qed.

(** X12.  The complete prompt holds the README under the heading of the original
    content and the template under the heading of the new structure, both
    as they are, and ends with the user prompt. *)
Theorem completePrompt_shape (readmeContent templateContent : bytes) :
  completePrompt readmeContent templateContent =
  promptIntro ++ lit "# Original README content:" ++ [LF] ++
  readmeContent ++ [LF; LF] ++
  lit "# New template structure:" ++ [LF] ++
  templateContent ++ [LF; LF; LF] ++ userPromptTemplate.
Proof.
  unfold completePrompt. rewrite Sprintf_systemPrompt.
  assert (E : forall a b,
             fmt.Sprintf (lit "%s" ++ [LF; LF] ++ lit "%s")
               [fmt.Str a; fmt.Str b] = a ++ [LF; LF] ++ b).
  { intros a b. cbn. now rewrite app_nil_r. }
  rewrite E. rewrite <- !app_assoc. reflexivity.
Qed.

(** ** [processPackage] *)

Section ProcessPackage.

Variable World : Type.
Variable sys : System World.

Ltac run_call :=
  match goal with
  | |- context [http_Get sys ?u ?w] =>
      destruct (http_Get sys u w) as [[? [?|]] ?] eqn:?
  | |- context [io_ReadAll sys ?b ?w] =>
      destruct (io_ReadAll sys b w) as [[? [?|]] ?] eqn:?
  | |- context [genai_NewClient sys ?k ?w] =>
      destruct (genai_NewClient sys k w) as [[? [?|]] ?] eqn:?
  | |- context [Model_GenerateContent sys ?m ?p ?w] =>
      destruct (Model_GenerateContent sys m p w) as [[? [?|]] ?] eqn:?
  | |- context [os_ReadFile sys ?p ?w] =>
      destruct (os_ReadFile sys p w) as [? [?|]] eqn:?
  | |- context [os_MkdirAll sys ?p ?m ?w] =>
      destruct (os_MkdirAll sys p m w) as [[?|] ?] eqn:?
  | |- context [copy_Copy sys ?p ?q ?w] =>
      destruct (copy_Copy sys p q w) as [[?|] ?] eqn:?
  | |- context [os_WriteFile sys ?p ?d ?m ?w] =>
      destruct (os_WriteFile sys p d m w) as [[?|] ?] eqn:?
  | |- context [findDataStreams ?f ?p] =>
      destruct (findDataStreams f p) as [? [?|]] eqn:?
  | |- context [generatePatch ?p ?a ?b] =>
      destruct (generatePatch p a b) as [? [?|]] eqn:?
  | |- context [os.IsNotExist ?e] =>
      destruct (os.IsNotExist e) eqn:?
  | |- context [firstPart ?r] =>
      destruct (firstPart r) eqn:?
  | |- context [negb (?a =? ?b)] =>
      destruct (a =? b) eqn:?
  end.

Ltac run :=
  unfold processPackage, bind, observe, act, act_, ret;
  fold (targetDir); 
  repeat first
    [ progress cbn [fst snd app negb]
    | rewrite fetchTemplate_unfold
    | rewrite generateUpdatedReadme_unfold
    | progress cbv zeta
    | run_call ].

Section Run.

Variable googleAPIKey : bytes.
Variable verbose : bool.

(** The name of the target. *)
Lemma Base_targetPath (pkgPath : bytes) :
  filepath.Base (targetPath pkgPath) = lit "readme.md".
Proof.
  unfold targetPath. apply Base_Join.
  - unfold targetDir.
    apply (Join_nonempty (lit "docs") [pkgPath; lit "_dev"; lit "build"]).
    discriminate.
  - repeat split; try discriminate.
    cbn. intuition discriminate.
Qed.

(** X13.  The readme is written at most once, by the last call, at the target
    path and with the permissions 0644.  A run that returns an error
    returns no patch, and has called [os.WriteFile] only if the error is
    that of the write; a run that panics has written nothing; no run ends
    in [os.Exit]. *)
Theorem processPackage_writes_last (pkgPath : bytes) (w : World) :
  let r := processPackage World sys googleAPIKey verbose pkgPath (w, []) in
  let tr := snd (snd r) in
  match fst r with
  | Returns (patch, Some e) =>
      patch = [] /\
      (filter isWriteFile tr = [] \/
       (exists cause, e = Wrap (lit "failed to write updated readme: ") cause) /\
       exists pre data,
         tr = pre ++ [WriteFile (targetPath pkgPath) data 420] /\
         filter isWriteFile pre = [])
  | Returns (patch, None) =>
      exists pre data,
        tr = pre ++ [WriteFile (targetPath pkgPath) data 420] /\
        filter isWriteFile pre = []
  | Panics => filter isWriteFile tr = []
  | Exits _ => False
  end.
Proof.
  intros r tr. subst tr r. destruct verbose; run.
  all: cbn [fst snd].
  all: try (split; [reflexivity|left; reflexivity]).
  all: try reflexivity.
  all: try (split; [reflexivity|right; split; [eexists; reflexivity|]]).
  all: match goal with
    | |- exists pre data, ?L = _ /\ _ =>
        match L with
        | context [WriteFile _ ?d _] =>
            exists (removelast L), d; split; reflexivity
        end
    end.
Qed.

(** A run that returns a patch: the patch is that of the content read at
    the target path, in some world of the run, against the content
    written there by the last call. *)
Lemma processPackage_success (pkgPath : bytes) (w : World) (patch : bytes) :
  fst (processPackage World sys googleAPIKey verbose pkgPath (w, []))
  = Returns (patch, None) ->
  exists w1 original pre updated,
    os_ReadFile sys (targetPath pkgPath) w1 = (original, None) /\
    snd (snd (processPackage World sys googleAPIKey verbose pkgPath (w, [])))
    = pre ++ [WriteFile (targetPath pkgPath) updated 420] /\
    generatePatch (targetPath pkgPath) original updated = (patch, None).
Proof.
  destruct verbose; run.
  all: cbn [fst snd]; try discriminate.
  all: intros [= <-].
  all: match goal with
    | R : os_ReadFile sys _ ?w1 = (?o, None),
      P : generatePatch _ ?o ?u = (_, None)
      |- exists w1 original pre updated, _ /\ ?L = _ /\ _ =>
        exists w1, o, (removelast L), u;
        split; [exact R|split; [reflexivity|exact P]]
    end.
Qed.


(** X15.  A patch that is not empty names the file [readme.md] on its two file
    lines, whatever the package path. *)
Theorem processPackage_patch_names_readme
    (pkgPath : bytes) (w : World) (patch : bytes) :
  fst (processPackage World sys googleAPIKey verbose pkgPath (w, []))
  = Returns (patch, None) ->
  patch <> [] ->
  exists rest,
    patch = lit "--- a/readme.md" ++ [LF] ++ lit "+++ b/readme.md" ++ [LF] ++
            lit "@@ -" ++ rest.
Proof.
  intros H Hne.
  destruct (processPackage_success pkgPath w patch H)
    as (w1 & original & pre & updated & _ & _ & P).
  destruct (list_eq_dec ascii_dec original updated) as [E|E].
  - exfalso. apply Hne.
    apply (generatePatch_nil (targetPath pkgPath)) in E. now rewrite P in E.
  - destruct (generatePatch_differs (targetPath pkgPath) _ _ E) as (rest & Q).
    rewrite Q in P. injection P as <-. rewrite Base_targetPath.
    exists rest. reflexivity.
Qed.

(** X16.  When the target readme is there (or [os.Stat] fails otherwise than
    with "not exist") nothing is created or copied and the first call
    fetches the template.  When it is not there the first call creates the
    target directory, and the source is copied at most once, right after. *)
Theorem processPackage_preparation (pkgPath : bytes) (w : World) :
  let tr :=
    snd (snd (processPackage World sys googleAPIKey verbose pkgPath (w, []))) in
  (os.IsNotExist (os.Stat (fs sys w) (targetPath pkgPath)) = false ->
   filter prepares tr = [] /\ exists rest, tr = Get templateURL :: rest) /\
  (os.IsNotExist (os.Stat (fs sys w) (targetPath pkgPath)) = true ->
   exists rest,
     tr = MkdirAll (targetDir pkgPath) 493 :: rest /\
     (filter prepares rest = [] \/
      exists rest',
        rest = Copy (sourcePath pkgPath) (targetPath pkgPath) :: rest' /\
        filter prepares rest' = [])).
Proof.
  intros tr. subst tr. unfold targetPath, targetDir, sourcePath.
  destruct verbose; run.
  all: cbn [fst snd]; split; intros Q; try discriminate.
  all: try (split; [reflexivity|eexists; reflexivity]).
  all: eexists; split; [reflexivity|].
  all: try (left; reflexivity).
  all: right; eexists; split; reflexivity.
Qed.

(** X17.  No target and no source: the directory of the target has been
    created, the error names the source path, and nothing else is
    called. *)
Theorem processPackage_source_missing (pkgPath : bytes) (w w1 : World) :
  os.IsNotExist (os.Stat (fs sys w) (targetPath pkgPath)) = true ->
  os_MkdirAll sys (targetDir pkgPath) 493 w = (None, w1) ->
  os.IsNotExist (os.Stat (fs sys w1) (sourcePath pkgPath)) = true ->
  processPackage World sys googleAPIKey verbose pkgPath (w, []) =
  (Returns ([], Some (New (lit "source README.md not found at " ++
                           sourcePath pkgPath))),
   (w1, [MkdirAll (targetDir pkgPath) 493])).
Proof.
  unfold targetPath, targetDir, sourcePath. intros H1 H2 H3.
  unfold processPackage, bind, observe, act, ret. cbn [fst snd].
  rewrite H1. cbv beta iota zeta. cbn [fst snd]. rewrite H2.
  cbv beta iota zeta. cbn [fst snd]. rewrite H3.
  cbn [app fmt.Sprintf lit list_ascii_of_string Ascii.eqb Bool.eqb fmt.verb_s].
  now rewrite app_nil_r.
Qed.

Lemma processPackage_no_output (pkgPath : bytes) (w : World) :
  let r := processPackage World sys googleAPIKey verbose pkgPath (w, []) in
  filter isOutput (snd (snd r)) = [] /\
  (forall code, fst r <> Exits code).
Proof.
  intros r. subst r. destruct verbose; run.
  all: cbn [fst snd]; split; [reflexivity|discriminate].
Qed.



End Run.

(** X23.  The flag [verbose] adds the listing of the models and nothing else:
    on a system where the listing leaves the world as it is, the run with
    the flag returns what the run without it returns, in the same world,
    after the same calls but for the listing. *)
Theorem verbose_changes_no_result (googleAPIKey pkgPath : bytes) (w : World) :
  (forall client w', Client_ListModels sys client w' = w') ->
  let quiet := processPackage World sys googleAPIKey false pkgPath (w, []) in
  let loud := processPackage World sys googleAPIKey true pkgPath (w, []) in
  fst loud = fst quiet /\ fst (snd loud) = fst (snd quiet) /\
  filter (fun c => negb (isListModels c)) (snd (snd loud)) = snd (snd quiet).
Proof.
  intros H quiet loud. subst quiet loud.
  unfold processPackage, bind, observe, act, act_, ret.
  repeat first
    [ progress cbn [fst snd app negb]
    | rewrite fetchTemplate_unfold
    | rewrite generateUpdatedReadme_unfold
    | rewrite H
    | progress cbv zeta
    | run_call ].
  all: cbn [fst snd]; repeat split; reflexivity.
Qed.

End ProcessPackage.

(** ** [main] *)

Section Main.

Variable World : Type.
Variable sys : System World.

(** X18.  Without a key, from the flag or from the environment, the program
    stops with the status 1 before it has touched anything. *)
Theorem main_without_key (packagePath : bytes) (verbose : bool) (w : World) :
  os_Getenv sys (lit "GOOGLE_API_KEY") w = [] ->
  main sys [] packagePath verbose (w, []) =
  (Exits 1,
   (w, [Fatal (lit "Google API key is required. Set it using the -api-key flag or GOOGLE_API_KEY environment variable") None])).
Proof.
  intros H. unfold main, bind, observe, fatal.
  rewrite bytes_eqb_refl. cbn [fst snd]. rewrite H, bytes_eqb_refl.
  reflexivity.
Qed.

(** X19.  The program prints at most once, by its last call, and only the patch
    of a run of [processPackage] without error, made with the key of the
    flag or, when the flag is empty, of the environment; every other run
    that does not panic ends with a fatal message and the status 1. *)
Theorem main_prints_last (googleAPIKey packagePath : bytes) (verbose : bool)
    (w : World) :
  let r := main sys googleAPIKey packagePath verbose (w, []) in
  let tr := snd (snd r) in
  let key :=
    if bytes_eqb googleAPIKey []
    then os_Getenv sys (lit "GOOGLE_API_KEY") w
    else googleAPIKey in
  match fst r with
  | Returns _ =>
      key <> [] /\
      exists pre patch,
        fst (processPackage World sys key verbose packagePath (w, []))
        = Returns (patch, None) /\
        tr = pre ++ [Println patch] /\ filter isOutput pre = []
  | Exits code =>
      code = 1 /\
      exists pre text cause,
        tr = pre ++ [Fatal text cause] /\ filter isOutput pre = []
  | Panics => filter isOutput tr = []
  end.
Proof.
  intros r tr key. subst tr r.
  assert (P : key <> [] ->
    let r := bind (processPackage World sys key verbose packagePath)
         (fun r =>
            let (patch, err) := r in
            match err with
            | Some e => fatal (lit "Error processing package: ") (Some e)
            | None => act_ (Println patch) (fmt_Println sys patch)
            end) (w, []) in
    match fst r with
    | Returns _ =>
        key <> [] /\
        exists pre patch,
          fst (processPackage World sys key verbose packagePath (w, []))
          = Returns (patch, None) /\
          snd (snd r) = pre ++ [Println patch] /\ filter isOutput pre = []
    | Exits code =>
        code = 1 /\
        exists pre text cause,
          snd (snd r) = pre ++ [Fatal text cause] /\ filter isOutput pre = []
    | Panics => filter isOutput (snd (snd r)) = []
    end).
  { intros Hkey. cbv zeta. unfold bind.
    destruct (processPackage_no_output World sys key verbose packagePath w)
      as [N X].
    destruct (processPackage World sys key verbose packagePath (w, []))
      as [[[patch [e|]]| |code] [w' tr]] eqn:E; cbn [fst snd] in *.
    - split; [reflexivity|].
      now exists tr, (lit "Error processing package: "), (Some e).
    - split; [assumption|]. exists tr, patch. now repeat split.
    - assumption.
    - now destruct (X code). }
  assert (C :
    main sys googleAPIKey packagePath verbose (w, []) =
    (Exits 1,
     (w, [Fatal (lit "Google API key is required. Set it using the -api-key flag or GOOGLE_API_KEY environment variable") None])) \/
    key <> [] /\
    main sys googleAPIKey packagePath verbose (w, []) =
    bind (processPackage World sys key verbose packagePath)
      (fun r =>
         let (patch, err) := r in
         match err with
         | Some e => fatal (lit "Error processing package: ") (Some e)
         | None => act_ (Println patch) (fmt_Println sys patch)
         end) (w, [])).
  { subst key. cbv beta iota zeta delta [main bind observe ret fst snd].
    destruct (bytes_eqb googleAPIKey []) eqn:K.
    - destruct (bytes_eqb (os_Getenv sys (lit "GOOGLE_API_KEY") w) []) eqn:K'.
      + left; reflexivity.
      + right. split; [now apply bytes_eqb_neq|reflexivity].
    - right. split; [now apply bytes_eqb_neq|reflexivity]. }
  destruct C as [->|(Hkey & ->)].
  - cbn [fst snd]. split; [reflexivity|].
    eexists [], _, _. split; reflexivity.
  - now apply P.
Qed.

(** X22.  With an empty flag, a key in the environment stands for the flag. *)
Theorem main_key_from_environment (key packagePath : bytes) (verbose : bool)
    (s : state World) :
  os_Getenv sys (lit "GOOGLE_API_KEY") (fst s) = key -> key <> [] ->
  main sys [] packagePath verbose s = main sys key packagePath verbose s.
Proof.
  intros H Hk. apply bytes_eqb_neq in Hk.
  cbv beta iota zeta delta [main bind observe ret].
  rewrite bytes_eqb_refl, H, Hk. reflexivity.
Qed.

End Main.

(** ** The theorems on the sample system *)

Lemma patch_header_witness :
  exists rest,
    generatePatch (lit "docs/readme.md") (lit "old") (lit "new") =
    (lit "--- a/" ++ filepath.Base (lit "docs/readme.md") ++ [LF] ++
     lit "+++ b/" ++ filepath.Base (lit "docs/readme.md") ++ [LF] ++
     lit "@@ -" ++ rest, None).
Proof. apply patch_header. discriminate. Defined.

Lemma fetchTemplate_bad_status_witness :
  fetchTemplate sampleWorld
    (sampleSystem [] 404 (lit "404 Not Found") [] (textReply []))
    (withTarget, []) =
  (Returns ([], Some (New (lit "failed to fetch template, status: 404 Not Found"))),
   (withTarget, [Get templateURL; BodyClose 1])).
Proof.
  apply (fetchTemplate_bad_status sampleWorld
           (sampleSystem [] 404 (lit "404 Not Found") [] (textReply []))
           (withTarget, [])
           {| http.StatusCode := 404; http.Status := lit "404 Not Found";
              http.Body := 1 |}
           withTarget).
  - reflexivity.
  - discriminate.
Defined.


Lemma processPackage_patch_names_readme_witness :
  exists rest,
    samplePatch =
    lit "--- a/readme.md" ++ [LF] ++ lit "+++ b/readme.md" ++ [LF] ++
    lit "@@ -" ++ rest.
Proof.
  apply (processPackage_patch_names_readme sampleWorld okSystem (lit "key")
           true (lit "pkg") withSource samplePatch).
  - vm_compute. reflexivity.
  - discriminate.
Defined.

Lemma processPackage_preparation_witness :
  (exists rest,
     snd (snd (processPackage sampleWorld okSystem (lit "key") false
                 (lit "pkg") (withTarget, [])))
     = Get templateURL :: rest) /\
  (exists rest,
     snd (snd (processPackage sampleWorld okSystem (lit "key") false
                 (lit "pkg") (withSource, [])))
     = MkdirAll (targetDir (lit "pkg")) 493 :: rest).
Proof.
  split.
  - refine (proj2 (proj1 (processPackage_preparation sampleWorld okSystem
                            (lit "key") false (lit "pkg") withTarget) _)).
    reflexivity.
  - destruct (proj2 (processPackage_preparation sampleWorld okSystem
                       (lit "key") false (lit "pkg") withSource) eq_refl)
      as (rest & E & _).
    exists rest. exact E.
Defined.

Lemma processPackage_source_missing_witness :
  processPackage sampleWorld okSystem (lit "key") false (lit "pkg") ([], []) =
  (Returns ([], Some (New (lit "source README.md not found at pkg/docs/README.md"))),
   ([], [MkdirAll (lit "pkg/_dev/build/docs") 493])).
Proof.
  apply (processPackage_source_missing sampleWorld okSystem (lit "key") false
           (lit "pkg") [] []); reflexivity.
Defined.

Lemma main_without_key_witness :
  main okSystem [] (lit ".") false (withTarget, []) =
  (Exits 1,
   (withTarget,
    [Fatal (lit "Google API key is required. Set it using the -api-key flag or GOOGLE_API_KEY environment variable") None])).
Proof. apply main_without_key. reflexivity. Defined.



Lemma verbose_changes_no_result_witness :
  fst (processPackage sampleWorld okSystem (lit "key") true (lit "pkg")
         (withTarget, []))
  = fst (processPackage sampleWorld okSystem (lit "key") false (lit "pkg")
           (withTarget, [])) /\
  fst (snd (processPackage sampleWorld okSystem (lit "key") true (lit "pkg")
              (withTarget, [])))
  = fst (snd (processPackage sampleWorld okSystem (lit "key") false (lit "pkg")
                (withTarget, []))) /\
  filter (fun c => negb (isListModels c))
    (snd (snd (processPackage sampleWorld okSystem (lit "key") true (lit "pkg")
                 (withTarget, []))))
  = snd (snd (processPackage sampleWorld okSystem (lit "key") false (lit "pkg")
                (withTarget, []))).
Proof.
  apply (verbose_changes_no_result sampleWorld okSystem (lit "key")
           (lit "pkg") withTarget).
  intros client w'. reflexivity.
Defined.

Lemma main_key_from_environment_witness :
  main (sampleSystem (lit "secret") 200 (lit "200 OK") (lit "# {{title}}")
          (textReply (lit "# New")))
    [] (lit "pkg") false (withTarget, []) =
  main (sampleSystem (lit "secret") 200 (lit "200 OK") (lit "# {{title}}")
          (textReply (lit "# New")))
    (lit "secret") (lit "pkg") false (withTarget, []).
Proof.
  apply main_key_from_environment.
  - reflexivity.
  - discriminate.
Defined.
